(** * Tagged URNs: an embedding of [tagged_urn.py] and its properties

    The development follows the Python module top to bottom: the string and
    dict primitives it relies on, the exception classes, the [TaggedUrn]
    class (parser, serializer, matching engine), [UrnMatcher] and
    [TaggedUrnBuilder]; then the properties.

    Conventions.
    - A Python [str] is a sequence of code points.  Here it is a
      [list ascii], i.e. the texts whose code points are below 256
      (Latin-1).  On that range [str.lower] maps one character to one
      character and stays in range, so the restriction is closed under
      every operation of the module.  The character classes below are
      CPython's [str.isalnum], [str.isupper], [str.isdigit],
      [str.isspace] and [str.lower] tabulated on 0..255.
    - Outside that range an uppercase letter may have no lowercase form
      (U+2102) and [str.lower] may change a character that is not
      uppercase (U+01C5).  Statements that depend on case are therefore
      phrased through [lower] itself (a key that [lower] changes,
      characters that [lower] leaves unchanged) and not through
      [isupper]; [Wide] adds U+2102 to the alphabet where the difference
      has to be exhibited.
    - A Python [dict] is an insertion-ordered table with unique keys.  Here
      it is an association list in insertion order; [Py.set] updates in
      place or appends the way [d[k] = v] does.
    - A raised exception is the [Raise] branch of [result]; messages are
      dropped, the class and the payload of [PrefixMismatchError] are
      kept. *)

From Stdlib Require Import List Ascii String Bool Arith NArith Lia.
From Stdlib Require Import Permutation Sorted.
Import ListNotations.

Set Implicit Arguments.

(** ** Python primitives *)

Module Py.

Definition str := list ascii.

Definition lit (s : string) : str := list_ascii_of_string s.

Definition code (c : ascii) : N := N_of_ascii c.

Definition between (lo hi : N) (c : ascii) : bool :=
  (lo <=? code c)%N && (code c <=? hi)%N.

(** [c.isupper()] *)
Definition isupper (c : ascii) : bool :=
  between 65 90 c || between 192 214 c || between 216 222 c.

(** [c.lower()] *)
Definition lower_char (c : ascii) : ascii :=
  if isupper c then ascii_of_N (code c + 32) else c.

(** [c.isdigit()] *)
Definition isdigit_char (c : ascii) : bool :=
  between 48 57 c || between 178 179 c || between 185 185 c.

(** [c.isalnum()] *)
Definition isalnum (c : ascii) : bool :=
  between 48 57 c || between 65 90 c || between 97 122 c
  || between 170 170 c || between 178 179 c || between 181 181 c
  || between 185 186 c || between 188 190 c || between 192 214 c
  || between 216 246 c || between 248 255 c.

(** [c.isspace()], the class [str.strip] removes *)
Definition isspace (c : ascii) : bool :=
  between 9 13 c || between 28 32 c || between 133 133 c
  || between 160 160 c.

(** [s.lower()] *)
Definition lower (s : str) : str := map lower_char s.

(** [s.isdigit()]: false on the empty string *)
Definition isdigit (s : str) : bool :=
  match s with [] => false | _ => forallb isdigit_char s end.

(** [a == b] on strings *)
Fixpoint str_eqb (a b : str) : bool :=
  match a, b with
  | [], [] => true
  | x :: a', y :: b' => Ascii.eqb x y && str_eqb a' b'
  | _, _ => false
  end.

(** [c in (x1, ..., xn)] *)
Definition char_in (c : ascii) (l : list ascii) : bool :=
  existsb (Ascii.eqb c) l.

(** [not s] *)
Definition is_empty (A : Type) (s : list A) : bool :=
  match s with [] => true | _ => false end.

Fixpoint lstrip (s : str) : str :=
  match s with
  | c :: s' => if isspace c then lstrip s' else s
  | [] => []
  end.

Definition rstrip (s : str) : str := rev (lstrip (rev s)).

(** [s.strip()] *)
Definition strip (s : str) : str := rstrip (lstrip s).

(** [s.find(c)], with [None] for -1 *)
Fixpoint find (c : ascii) (s : str) : option nat :=
  match s with
  | [] => None
  | x :: s' =>
      if Ascii.eqb x c then Some 0
      else match find c s' with Some n => Some (S n) | None => None end
  end.

(** [sep.join(parts)] *)
Fixpoint join (sep : str) (parts : list str) : str :=
  match parts with
  | [] => []
  | [p] => p
  | p :: rest => p ++ sep ++ join sep rest
  end.

(** [a < b] and [a <= b] on strings: lexicographic on code points *)
Fixpoint str_ltb (a b : str) : bool :=
  match a, b with
  | _, [] => false
  | [], _ :: _ => true
  | x :: a', y :: b' =>
      (code x <? code y)%N || ((code x =? code y)%N && str_ltb a' b')
  end.

Definition str_leb (a b : str) : bool := str_ltb a b || str_eqb a b.

(** *** dict *)

Definition dict := list (str * str).

Definition keys (d : dict) : list str := map fst d.
Definition values (d : dict) : list str := map snd d.

(** [d.get(k)] *)
Fixpoint get (d : dict) (k : str) : option str :=
  match d with
  | [] => None
  | (k', v) :: d' => if str_eqb k' k then Some v else get d' k
  end.

(** [k in d] *)
Definition mem (k : str) (d : dict) : bool :=
  match get d k with Some _ => true | None => false end.

(** [d[k] = v]: an existing key keeps its position *)
Fixpoint set (d : dict) (k v : str) : dict :=
  match d with
  | [] => [(k, v)]
  | (k', v') :: d' =>
      if str_eqb k' k then (k', v) :: d' else (k', v') :: set d' k v
  end.

(** [d.pop(k, None)] *)
Fixpoint pop (d : dict) (k : str) : dict :=
  match d with
  | [] => []
  | (k', v') :: d' => if str_eqb k' k then d' else (k', v') :: pop d' k
  end.

(** [d.update(other)] *)
Definition update (d other : dict) : dict :=
  fold_left (fun acc kv => set acc (fst kv) (snd kv)) other d.

(** [d1 == d2]: same size and every item of [d1] found in [d2] *)
Definition dict_eqb (d1 d2 : dict) : bool :=
  Nat.eqb (List.length d1) (List.length d2)
  && forallb (fun kv => match get d2 (fst kv) with
                        | Some v => str_eqb (snd kv) v
                        | None => false
                        end) d1.

(** [set(a) | set(b)] as a duplicate-free enumeration *)
Fixpoint set_of (l : list str) : list str :=
  match l with
  | [] => []
  | x :: l' => if existsb (str_eqb x) l' then set_of l' else x :: set_of l'
  end.

Definition union (a b : list str) : list str := set_of (a ++ b).

(** [(k1, v1) <= (k2, v2)] on tuples of strings *)
Definition item_leb (a b : str * str) : bool :=
  str_ltb (fst a) (fst b)
  || (str_eqb (fst a) (fst b) && str_leb (snd a) (snd b)).

Fixpoint insert_sorted (x : str * str) (l : list (str * str)) :=
  match l with
  | [] => [x]
  | y :: l' => if item_leb x y then x :: l else y :: insert_sorted x l'
  end.

(** [sorted(d.items())] *)
Fixpoint sorted (l : list (str * str)) : list (str * str) :=
  match l with
  | [] => []
  | x :: l' => insert_sorted x (sorted l')
  end.

End Py.

Import Py.

(** ** Exceptions *)

Inductive TaggedUrnError : Type :=
| EmptyError
| MissingPrefixError
| EmptyPrefixError
| InvalidTagFormatError
| EmptyTagComponentError
| InvalidCharacterError
| DuplicateKeyError
| NumericKeyError
| UnterminatedQuoteError
| InvalidEscapeSequenceError
| PrefixMismatchError (expected actual : str)
| WhitespaceInInputError.

Inductive result (A : Type) : Type :=
| Ok (a : A)
| Raise (e : TaggedUrnError).

Arguments Ok {A} a.
Arguments Raise {A} e.

Definition bind (A B : Type) (m : result A) (f : A -> result B) : result B :=
  match m with
  | Ok a => f a
  | Raise e => Raise e
  end.

Notation "x <- m ;; k" := (bind m (fun x => k))
  (at level 61, m at next level, right associativity).

(** ** The parser's states *)

Inductive ParseState : Type :=
| EXPECTING_KEY
| IN_KEY
| EXPECTING_VALUE
| IN_UNQUOTED_VALUE
| IN_QUOTED_VALUE
| IN_QUOTED_VALUE_ESCAPE
| EXPECTING_SEMI_OR_END.

Definition dquote : ascii := "034"%char.
Definition backslash : ascii := "\"%char.

(** ** class TaggedUrn *)

Module TaggedUrn.

Record t : Type := mk { prefix : str; tags : dict }.

(** [TaggedUrn(prefix, tags)]: [tags] is given by its items in insertion
    order; the dict comprehension re-inserts them under lowercased keys. *)
Definition __init__ (prefix : str) (tags : dict) : t :=
  mk (lower prefix)
     (fold_left (fun acc kv => set acc (lower (fst kv)) (snd kv)) tags []).

Definition empty (prefix : str) : t := __init__ prefix [].

Definition _is_valid_key_char (c : ascii) : bool :=
  isalnum c || char_in c ["_"; "-"; "/"; ":"; "."]%char.

Definition _is_valid_unquoted_value_char (c : ascii) : bool :=
  isalnum c || char_in c ["_"; "-"; "/"; ":"; "."; "*"; "?"; "!"]%char.

Definition _is_purely_numeric (s : str) : bool :=
  negb (is_empty s) && isdigit s.

(** [_finish_tag] mutates [tags]; here it returns the updated dict. *)
Definition _finish_tag (tags : dict) (key value : str) : result dict :=
  if is_empty key then Raise EmptyTagComponentError
  else if is_empty value then Raise EmptyTagComponentError
  else if mem key tags then Raise DuplicateKeyError
  else if _is_purely_numeric key then Raise NumericKeyError
  else Ok (set tags key value).

(** The local variables of the [while] loop of [from_string]. *)
Record cursor : Type := Cursor {
  state : ParseState;
  cur_tags : dict;
  current_key : str;
  current_value : str
}.

(** One iteration of the loop body on character [c]. *)
Definition step (cu : cursor) (c : ascii) : result cursor :=
  let '(Cursor st tags current_key current_value) := cu in
  match st with
  | EXPECTING_KEY =>
      if Ascii.eqb c ";" then Ok cu
      else if _is_valid_key_char c then
        Ok (Cursor IN_KEY tags (current_key ++ [lower_char c]) current_value)
      else Raise InvalidCharacterError
  | IN_KEY =>
      if Ascii.eqb c "=" then
        if is_empty current_key then Raise EmptyTagComponentError
        else Ok (Cursor EXPECTING_VALUE tags current_key current_value)
      else if Ascii.eqb c ";" then
        if is_empty current_key then Raise EmptyTagComponentError
        else
          tags' <- _finish_tag tags current_key (lit "*") ;;
          Ok (Cursor EXPECTING_KEY tags' [] [])
      else if _is_valid_key_char c then
        Ok (Cursor IN_KEY tags (current_key ++ [lower_char c]) current_value)
      else Raise InvalidCharacterError
  | EXPECTING_VALUE =>
      if Ascii.eqb c dquote then
        Ok (Cursor IN_QUOTED_VALUE tags current_key current_value)
      else if Ascii.eqb c ";" then Raise EmptyTagComponentError
      else if _is_valid_unquoted_value_char c then
        Ok (Cursor IN_UNQUOTED_VALUE tags current_key
                   (current_value ++ [lower_char c]))
      else Raise InvalidCharacterError
  | IN_UNQUOTED_VALUE =>
      if Ascii.eqb c ";" then
        tags' <- _finish_tag tags current_key current_value ;;
        Ok (Cursor EXPECTING_KEY tags' [] [])
      else if _is_valid_unquoted_value_char c then
        Ok (Cursor IN_UNQUOTED_VALUE tags current_key
                   (current_value ++ [lower_char c]))
      else Raise InvalidCharacterError
  | IN_QUOTED_VALUE =>
      if Ascii.eqb c dquote then
        Ok (Cursor EXPECTING_SEMI_OR_END tags current_key current_value)
      else if Ascii.eqb c backslash then
        Ok (Cursor IN_QUOTED_VALUE_ESCAPE tags current_key current_value)
      else Ok (Cursor IN_QUOTED_VALUE tags current_key (current_value ++ [c]))
  | IN_QUOTED_VALUE_ESCAPE =>
      if Ascii.eqb c dquote || Ascii.eqb c backslash then
        Ok (Cursor IN_QUOTED_VALUE tags current_key (current_value ++ [c]))
      else Raise InvalidEscapeSequenceError
  | EXPECTING_SEMI_OR_END =>
      if Ascii.eqb c ";" then
        tags' <- _finish_tag tags current_key current_value ;;
        Ok (Cursor EXPECTING_KEY tags' [] [])
      else Raise InvalidCharacterError
  end.

(** [while pos < len(chars)]: the loop visits every character once, in
    order, unless an iteration raises. *)
Fixpoint scan (cu : cursor) (chars : list ascii) : result cursor :=
  match chars with
  | [] => Ok cu
  | c :: rest => cu' <- step cu c ;; scan cu' rest
  end.

(** The end-of-input block after the loop. *)
Definition at_end (cu : cursor) : result dict :=
  let '(Cursor st tags current_key current_value) := cu in
  match st with
  | IN_UNQUOTED_VALUE | EXPECTING_SEMI_OR_END =>
      _finish_tag tags current_key current_value
  | EXPECTING_KEY => Ok tags
  | IN_QUOTED_VALUE | IN_QUOTED_VALUE_ESCAPE => Raise UnterminatedQuoteError
  | IN_KEY =>
      if is_empty current_key then Raise EmptyTagComponentError
      else _finish_tag tags current_key (lit "*")
  | EXPECTING_VALUE => Raise EmptyTagComponentError
  end.

Definition start : cursor := Cursor EXPECTING_KEY [] [] [].

Definition from_string (s : str) : result t :=
  if negb (str_eqb s (strip s)) then Raise WhitespaceInInputError
  else if is_empty s then Raise EmptyError
  else
    match find ":" s with
    | None => Raise MissingPrefixError
    | Some 0 => Raise EmptyPrefixError
    | Some colon_pos =>
        let prefix := lower (firstn colon_pos s) in
        let tags_part := skipn (colon_pos + 1) s in
        if is_empty tags_part || str_eqb tags_part (lit ";") then
          Ok (__init__ prefix [])
        else
          cu <- scan start tags_part ;;
          tags <- at_end cu ;;
          Ok (__init__ prefix tags)
    end.

Definition _needs_quoting (value : str) : bool :=
  existsb (fun c => char_in c [";"; "="; dquote; backslash; " "]%char
                    || isupper c) value.

Definition _quote_value (value : str) : str :=
  [dquote]
  ++ flat_map (fun c => if char_in c [dquote; backslash]
                        then [backslash; c] else [c]) value
  ++ [dquote].

(** The body of the [for k, v in sorted_tags] loop: the text appended for
    one tag. *)
Definition tag_to_string (kv : str * str) : str :=
  let (k, v) := kv in
  if str_eqb v (lit "*") then k
  else if str_eqb v (lit "?") then k ++ lit "=?"
  else if str_eqb v (lit "!") then k ++ lit "=!"
  else if _needs_quoting v then k ++ lit "=" ++ _quote_value v
  else k ++ lit "=" ++ v.

Definition tags_to_string (self : t) : str :=
  join (lit ";") (map tag_to_string (sorted (tags self))).

Definition to_string (self : t) : str :=
  prefix self ++ lit ":" ++ tags_to_string self.

Definition get_prefix (self : t) : str := prefix self.

Definition get_tag (self : t) (key : str) : option str :=
  get (tags self) (lower key).

(** [self.tags.get(key.lower()) == value] *)
Definition has_tag (self : t) (key value : str) : bool :=
  match get (tags self) (lower key) with
  | Some v => str_eqb v value
  | None => false
  end.

Definition with_tag (self : t) (key value : str) : result t :=
  if is_empty value then Raise EmptyTagComponentError
  else Ok (__init__ (prefix self) (set (tags self) (lower key) value)).

Definition _with_tag_unchecked (self : t) (key value : str) : t :=
  __init__ (prefix self) (set (tags self) (lower key) value).

Definition without_tag (self : t) (key : str) : t :=
  __init__ (prefix self) (pop (tags self) (lower key)).

(** [Optional[str] == "..."] *)
Definition is_lit (v : option str) (s : string) : bool :=
  match v with Some x => str_eqb x (lit s) | None => false end.

Definition is_none (A : Type) (v : option A) : bool :=
  match v with None => true | Some _ => false end.

Definition opt_eqb (a b : option str) : bool :=
  match a, b with
  | Some x, Some y => str_eqb x y
  | None, None => true
  | _, _ => false
  end.

Definition _values_match (inst patt : option str) : bool :=
  if is_none patt || is_lit patt "?" then true
  else if is_lit inst "?" then true
  else if is_lit patt "!" then
    if is_none inst then true
    else if is_lit inst "!" then true
    else false
  else if is_lit inst "!" then
    if is_lit patt "*" then false else false
  else if is_lit patt "*" then
    if is_none inst then false else true
  else if is_none inst then false
  else if is_lit inst "*" then true
  else opt_eqb inst patt.

(** The [for key in all_keys] loop of [_check_match], on an enumeration
    of the key set. *)
Fixpoint _check_match_loop (all_keys : list str)
    (instance_tags pattern_tags : dict) : bool :=
  match all_keys with
  | [] => true
  | key :: rest =>
      if negb (_values_match (get instance_tags key) (get pattern_tags key))
      then false
      else _check_match_loop rest instance_tags pattern_tags
  end.

Definition _check_match (instance_tags : dict) (instance_prefix : str)
    (pattern_tags : dict) (pattern_prefix : str) : result bool :=
  if negb (str_eqb instance_prefix pattern_prefix) then
    Raise (PrefixMismatchError instance_prefix pattern_prefix)
  else
    Ok (_check_match_loop (union (keys instance_tags) (keys pattern_tags))
          instance_tags pattern_tags).

Definition conforms_to (self pattern : t) : result bool :=
  _check_match (tags self) (prefix self) (tags pattern) (prefix pattern).

Definition accepts (self instance : t) : result bool :=
  _check_match (tags instance) (prefix instance) (tags self) (prefix self).

Definition conforms_to_str (self : t) (pattern_str : str) : result bool :=
  pattern <- from_string pattern_str ;; conforms_to self pattern.

Definition accepts_str (self : t) (instance_str : str) : result bool :=
  instance <- from_string instance_str ;; accepts self instance.

Definition specificity (self : t) : nat :=
  fold_left (fun score v =>
               if str_eqb v (lit "?") then score + 0
               else if str_eqb v (lit "!") then score + 1
               else if str_eqb v (lit "*") then score + 2
               else score + 3)
            (values (tags self)) 0.

Definition specificity_tuple (self : t) : nat * nat * nat :=
  fold_left (fun '(exact, must_have_any, must_not) v =>
               if str_eqb v (lit "?") then (exact, must_have_any, must_not)
               else if str_eqb v (lit "!")
                    then (exact, must_have_any, must_not + 1)
               else if str_eqb v (lit "*")
                    then (exact, must_have_any + 1, must_not)
               else (exact + 1, must_have_any, must_not))
            (values (tags self)) (0, 0, 0).

Definition _values_compatible (v1 v2 : option str) : bool :=
  if is_none v1 || is_none v2 then true
  else if is_lit v1 "?" || is_lit v2 "?" then true
  else if is_lit v1 "!" && is_lit v2 "!" then true
  else if is_lit v1 "!" || is_lit v2 "!" then false
  else if is_lit v1 "*" && is_lit v2 "*" then true
  else if is_lit v1 "*" || is_lit v2 "*" then true
  else opt_eqb v1 v2.

Fixpoint _compatible_loop (all_keys : list str) (tags1 tags2 : dict) : bool :=
  match all_keys with
  | [] => true
  | key :: rest =>
      if negb (_values_compatible (get tags1 key) (get tags2 key)) then false
      else _compatible_loop rest tags1 tags2
  end.

Definition is_compatible_with (self other : t) : result bool :=
  if negb (str_eqb (prefix self) (prefix other)) then
    Raise (PrefixMismatchError (prefix self) (prefix other))
  else
    Ok (_compatible_loop (union (keys (tags self)) (keys (tags other)))
          (tags self) (tags other)).

Definition is_more_specific_than (self other : t) : result bool :=
  if negb (str_eqb (prefix self) (prefix other)) then
    Raise (PrefixMismatchError (prefix self) (prefix other))
  else
    compatible <- is_compatible_with self other ;;
    if negb compatible then Ok false
    else Ok (specificity other <? specificity self).

Definition with_wildcard_tag (self : t) (key : str) : t :=
  if mem key (tags self) then _with_tag_unchecked self key (lit "*")
  else self.

Definition subset (self : t) (keys : list str) : t :=
  __init__ (prefix self)
    (fold_left (fun new_tags key =>
                  match get (tags self) key with
                  | Some v => set new_tags key v
                  | None => new_tags
                  end) keys []).

Definition merge (self other : t) : result t :=
  if negb (str_eqb (prefix self) (prefix other)) then
    Raise (PrefixMismatchError (prefix self) (prefix other))
  else Ok (__init__ (prefix self) (update (tags self) (tags other))).

Definition canonical (tagged_urn : str) : result str :=
  urn <- from_string tagged_urn ;; Ok (to_string urn).

(** [__eq__] between two [TaggedUrn] objects *)
Definition eqb (self other : t) : bool :=
  str_eqb (prefix self) (prefix other) && dict_eqb (tags self) (tags other).

Definition canonical_option (tagged_urn : option str) : result (option str) :=
  match tagged_urn with
  | Some text => urn <- from_string text ;; Ok (Some (to_string urn))
  | None => Ok None
  end.

(** [__hash__]: the built-in [hash], applied to the pair of the prefix and
    the sorted items, is a parameter. *)
Definition __hash__ (H : Type) (hash : str * list (str * str) -> H)
    (self : t) : H :=
  hash (prefix self, sorted (tags self)).

End TaggedUrn.

(** ** class UrnMatcher *)

Module UrnMatcher.

(** The [for urn in urns] loop of [find_best_match], threading [best] and
    [best_specificity]. *)
Fixpoint find_best_loop (urns : list TaggedUrn.t) (request : TaggedUrn.t)
    (best : option TaggedUrn.t) (best_specificity : nat)
  : result (option TaggedUrn.t) :=
  match urns with
  | [] => Ok best
  | urn :: rest =>
      ok <- TaggedUrn.conforms_to urn request ;;
      if ok then
        let specificity := TaggedUrn.specificity urn in
        if TaggedUrn.is_none best || (best_specificity <? specificity) then
          find_best_loop rest request (Some urn) specificity
        else find_best_loop rest request best best_specificity
      else find_best_loop rest request best best_specificity
  end.

Definition find_best_match (urns : list TaggedUrn.t) (request : TaggedUrn.t)
  : result (option TaggedUrn.t) :=
  find_best_loop urns request None 0.

(** The [for urn in urns] loop of [find_all_matches]: the conforming
    candidates, appended in input order. *)
Fixpoint collect_matches (urns : list TaggedUrn.t) (request : TaggedUrn.t)
    (results : list TaggedUrn.t) : result (list TaggedUrn.t) :=
  match urns with
  | [] => Ok results
  | urn :: rest =>
      ok <- TaggedUrn.conforms_to urn request ;;
      if ok then collect_matches rest request (results ++ [urn])
      else collect_matches rest request results
  end.

(** [results.sort(key=specificity, reverse=True)]: the sort is stable, also
    in reverse, so an element goes before the first one that does not score
    strictly higher. *)
Fixpoint insert_by_specificity (x : TaggedUrn.t) (l : list TaggedUrn.t)
  : list TaggedUrn.t :=
  match l with
  | [] => [x]
  | y :: l' =>
      if TaggedUrn.specificity x <? TaggedUrn.specificity y
      then y :: insert_by_specificity x l'
      else x :: l
  end.

Definition sort_by_specificity (l : list TaggedUrn.t) : list TaggedUrn.t :=
  fold_right insert_by_specificity [] l.

Definition find_all_matches (urns : list TaggedUrn.t) (request : TaggedUrn.t)
  : result (list TaggedUrn.t) :=
  results <- collect_matches urns request [] ;;
  Ok (sort_by_specificity results).

(** The inner [for u2 in urns2] loop of [are_compatible]. *)
Fixpoint any_compatible (u1 : TaggedUrn.t) (urns2 : list TaggedUrn.t)
  : result bool :=
  match urns2 with
  | [] => Ok false
  | u2 :: rest =>
      ok <- TaggedUrn.is_compatible_with u1 u2 ;;
      if ok then Ok true else any_compatible u1 rest
  end.

(** The outer [for u1 in urns1] loop; [true] stands for the early
    [return True] of the inner loop. *)
Fixpoint are_compatible (urns1 urns2 : list TaggedUrn.t) : result bool :=
  match urns1 with
  | [] => Ok false
  | u1 :: rest =>
      found <- any_compatible u1 urns2 ;;
      if found then Ok true else are_compatible rest urns2
  end.

End UrnMatcher.

(** ** class TaggedUrnBuilder *)

Module TaggedUrnBuilder.

Record t : Type := mk { prefix : str; tags : dict }.

Definition __init__ (prefix : str) : t := mk (lower prefix) [].

Definition tag (self : t) (key value : str) : result t :=
  if is_empty value then Raise EmptyTagComponentError
  else Ok (mk (prefix self) (set (tags self) (lower key) value)).

Definition solo_tag (self : t) (key : str) : t :=
  mk (prefix self) (set (tags self) (lower key) (lit "*")).

Definition build (self : t) : result TaggedUrn.t :=
  if is_empty (tags self) then Raise EmptyError
  else Ok (TaggedUrn.__init__ (prefix self) (tags self)).

Definition build_allow_empty (self : t) : TaggedUrn.t :=
  TaggedUrn.__init__ (prefix self) (tags self).

End TaggedUrnBuilder.

(** ** The specification's vocabulary

    The definitions of this section are written from the specification's
    words, not from the code; the theorems compare them with the code. *)

Module Spec.

(** The four tag-value kinds of the data model. *)
Inductive TagValue : Type :=
| Exact (s : str)
| MustHaveAny
| MustNotHave
| Unspecified.

(** How a stored string is read as a tag value. *)
Definition tag_value (v : str) : TagValue :=
  if str_eqb v (lit "*") then MustHaveAny
  else if str_eqb v (lit "!") then MustNotHave
  else if str_eqb v (lit "?") then Unspecified
  else Exact v.

(** One side of the matching table: absent, or a tag value. *)
Definition side (v : option str) : option TagValue := option_map tag_value v.

(** The 5x5 matching table, row by row (instance), column by column
    (pattern: absent, [?], [!], [*], [=v]). *)
Definition matches (inst patt : option TagValue) : bool :=
  match inst, patt with
  | None, None => true
  | None, Some Unspecified => true
  | None, Some MustNotHave => true
  | None, Some MustHaveAny => false
  | None, Some (Exact _) => false
  | Some Unspecified, None => true
  | Some Unspecified, Some Unspecified => true
  | Some Unspecified, Some MustNotHave => true
  | Some Unspecified, Some MustHaveAny => true
  | Some Unspecified, Some (Exact _) => true
  | Some MustNotHave, None => true
  | Some MustNotHave, Some Unspecified => true
  | Some MustNotHave, Some MustNotHave => true
  | Some MustNotHave, Some MustHaveAny => false
  | Some MustNotHave, Some (Exact _) => false
  | Some MustHaveAny, None => true
  | Some MustHaveAny, Some Unspecified => true
  | Some MustHaveAny, Some MustNotHave => false
  | Some MustHaveAny, Some MustHaveAny => true
  | Some MustHaveAny, Some (Exact _) => true
  | Some (Exact _), None => true
  | Some (Exact _), Some Unspecified => true
  | Some (Exact _), Some MustNotHave => false
  | Some (Exact _), Some MustHaveAny => true
  | Some (Exact v), Some (Exact w) => str_eqb v w
  end.

(** The cell of the table for key [k] of an instance and a pattern. *)
Definition cell (instance_tags pattern_tags : dict) (k : str) : bool :=
  matches (side (get instance_tags k)) (side (get pattern_tags k)).

(** A value needs quoting iff it contains a semicolon, an equals sign, a
    double quote, a backslash, a space or an uppercase letter. *)
Definition needs_quoting (v : str) : Prop :=
  exists c, In c v /\
    (c = ";"%char \/ c = "="%char \/ c = dquote \/ c = backslash
     \/ c = " "%char \/ isupper c = true).

(** Escaping inside quotes: a backslash before each quote or backslash. *)
Fixpoint escaped (v : str) : str :=
  match v with
  | [] => []
  | c :: v' =>
      if Ascii.eqb c dquote then backslash :: dquote :: escaped v'
      else if Ascii.eqb c backslash then backslash :: backslash :: escaped v'
      else c :: escaped v'
  end.

(** What the serializer emits for one tag. *)
Inductive emitted (k : str) : str -> str -> Prop :=
| emit_any : emitted k (lit "*") k
| emit_unspecified : emitted k (lit "?") (k ++ lit "=?")
| emit_must_not : emitted k (lit "!") (k ++ lit "=!")
| emit_quoted v :
    tag_value v = Exact v -> needs_quoting v ->
    emitted k v (k ++ lit "=" ++ [dquote] ++ escaped v ++ [dquote])
| emit_plain v :
    tag_value v = Exact v -> ~ needs_quoting v ->
    emitted k v (k ++ lit "=" ++ v).

(** Ascending order of key. *)
Definition ascending_keys (items : list (str * str)) : Prop :=
  StronglySorted (fun a b => str_leb a b = true) (map fst items).

(** An instance that names concrete facts only: no tag of it is [?] or
    [*]. *)
Definition concrete (tags : dict) : Prop :=
  forall v, In v (values tags) -> v <> lit "?" /\ v <> lit "*".

End Spec.

(** ** Auxiliary definitions *)

(** What [conforms_to] computes for a candidate once the prefixes agree. *)
Definition conforming (request u : TaggedUrn.t) : bool :=
  TaggedUrn._check_match_loop
    (union (keys (TaggedUrn.tags u)) (keys (TaggedUrn.tags request)))
    (TaggedUrn.tags u) (TaggedUrn.tags request).

(** The items of the input mapping under lowercased keys. *)
Definition lower_keys (d : dict) : dict :=
  map (fun kv => (lower (fst kv), snd kv)) d.

Definition init_tags (d acc : dict) : dict :=
  fold_left (fun acc kv => set acc (lower (fst kv)) (snd kv)) d acc.

(** A value that both patterns accept, when they are compatible on a key:
    the exact value one of them asks for, any exact value when one of them
    asks for presence, and no tag otherwise. *)
Definition exact_of (v : option str) : option str :=
  match v with
  | Some x =>
      if str_eqb x (lit "?") || str_eqb x (lit "!") || str_eqb x (lit "*")
      then None else Some x
  | None => None
  end.

Definition common (v1 v2 : option str) : option str :=
  match exact_of v1, exact_of v2 with
  | Some x, _ => Some x
  | None, Some y => Some y
  | None, None =>
      if TaggedUrn.is_lit v1 "*" || TaggedUrn.is_lit v2 "*"
      then Some (lit "x") else None
  end.

(** The instance built key by key from [common]. *)
Definition common_tags (t1 t2 : dict) (ks : list str) : dict :=
  flat_map (fun k => match common (get t1 k) (get t2 k) with
                     | Some w => [(k, w)]
                     | None => []
                     end) ks.

(** Sorted by the order on items. *)
Definition items_sorted (l : list (str * str)) : Prop :=
  StronglySorted (fun a b => item_leb a b = true) l.

(** ** The wire format, tag by tag *)

Module Wire.

(** The text of a key: one or more key characters. *)
Definition key_text (k : str) : Prop :=
  k <> [] /\ forallb TaggedUrn._is_valid_key_char k = true.

(** [value_text val v]: [val] is what may follow a key in a tag, and [v] is
    the value it denotes: nothing (a bare key, denoting [*]), an equals
    sign and an unquoted value (denoting its lowercase form), or an equals
    sign and a quoted, escaped value (denoting the text between the
    quotes). *)
Inductive value_text : str -> str -> Prop :=
| vt_bare : value_text [] (lit "*")
| vt_plain v :
    v <> [] ->
    forallb TaggedUrn._is_valid_unquoted_value_char v = true ->
    value_text ("="%char :: v) (lower v)
| vt_quoted v :
    value_text ("="%char :: dquote :: Spec.escaped v ++ [dquote]) v.

(** What may come after a tag: the end of the input or a semicolon. *)
Definition follow_text (f : str) : Prop :=
  f = [] \/ exists rest, f = ";"%char :: rest.

(** A text [p:body] that passes the checks made before any tag is read. *)
Definition header (p body : str) : Prop :=
  p <> [] /\ ~ In ":"%char p
  /\ strip (p ++ ":"%char :: body) = p ++ ":"%char :: body.

(** The parser has read [pre] without error and expects a key, having
    collected [tags]. *)
Definition accepted (pre : str) (tags : dict) : Prop :=
  TaggedUrn.scan TaggedUrn.start pre
  = Ok (TaggedUrn.Cursor EXPECTING_KEY tags [] []).

(** The classes of malformed input and the error each one fails with. *)
Inductive malformed : str -> TaggedUrnError -> Prop :=
| mal_whitespace s :
    strip s <> s -> malformed s WhitespaceInInputError
| mal_empty : malformed [] EmptyError
| mal_no_colon s :
    strip s = s -> s <> [] -> ~ In ":"%char s ->
    malformed s MissingPrefixError
| mal_colon_first s :
    strip (":"%char :: s) = ":"%char :: s ->
    malformed (":"%char :: s) EmptyPrefixError
| mal_numeric_key p pre tags k val v follow :
    header p (pre ++ k ++ val ++ follow) ->
    accepted pre tags ->
    key_text k -> isdigit k = true ->
    value_text val v -> v <> [] -> follow_text follow ->
    malformed (p ++ ":"%char :: pre ++ k ++ val ++ follow) NumericKeyError
| mal_duplicate_key p pre1 tags1 k1 val1 v1 mid tags k val v follow :
    header p ((pre1 ++ k1 ++ val1 ++ ";"%char :: mid) ++ k ++ val ++ follow) ->
    accepted pre1 tags1 ->
    key_text k1 -> value_text val1 v1 ->
    accepted (pre1 ++ k1 ++ val1 ++ ";"%char :: mid) tags ->
    key_text k -> lower k = lower k1 ->
    value_text val v -> v <> [] -> follow_text follow ->
    malformed
      (p ++ ":"%char :: (pre1 ++ k1 ++ val1 ++ ";"%char :: mid)
         ++ k ++ val ++ follow)
      DuplicateKeyError
| mal_unterminated_quote p pre tags k w tail :
    header p (pre ++ k ++ "="%char :: dquote :: Spec.escaped w ++ tail) ->
    accepted pre tags ->
    key_text k ->
    tail = [] \/ tail = [backslash] ->
    malformed
      (p ++ ":"%char :: pre ++ k ++ "="%char :: dquote :: Spec.escaped w
         ++ tail)
      UnterminatedQuoteError
| mal_invalid_escape p pre tags k w c rest :
    header p (pre ++ k ++ "="%char :: dquote :: Spec.escaped w
                ++ backslash :: c :: rest) ->
    accepted pre tags ->
    key_text k ->
    c <> dquote -> c <> backslash ->
    malformed
      (p ++ ":"%char :: pre ++ k ++ "="%char :: dquote :: Spec.escaped w
         ++ backslash :: c :: rest)
      InvalidEscapeSequenceError.

End Wire.

(** ** Well-formed URNs *)

(** A prefix that can be read back: not empty, without colon, lowercase,
    not starting with whitespace. *)
Definition wf_prefix (p : str) : bool :=
  match p with
  | [] => false
  | c :: _ =>
      negb (isspace c) && negb (char_in ":" p) && negb (existsb isupper p)
  end.

(** A key the parser would have produced. *)
Definition wf_key (k : str) : bool :=
  negb (is_empty k) && forallb TaggedUrn._is_valid_key_char k
  && negb (existsb isupper k) && negb (TaggedUrn._is_purely_numeric k).

(** A value that is not empty and that either is quoted by the serializer
    or can be read back unquoted. *)
Definition wf_value (v : str) : bool :=
  negb (is_empty v)
  && (TaggedUrn._needs_quoting v
      || forallb TaggedUrn._is_valid_unquoted_value_char v).

Fixpoint distinct (l : list str) : bool :=
  match l with
  | [] => true
  | x :: l' => negb (existsb (str_eqb x) l') && distinct l'
  end.

Definition well_formed (u : TaggedUrn.t) : bool :=
  wf_prefix (TaggedUrn.prefix u)
  && forallb wf_key (keys (TaggedUrn.tags u))
  && forallb wf_value (values (TaggedUrn.tags u))
  && distinct (keys (TaggedUrn.tags u)).

(** ** URNs whose text reads back

    The conditions under which the parser returns what the serializer was
    given.  Case is stated through [lower] itself: a character counts as
    lowercase when [c.lower() == c], which is what the parser relies on
    when it lowercases keys and unquoted values. *)

(** [c.lower() == c] for every character [c] of [s]. *)
Definition unchanged_by_lower (s : str) : bool :=
  forallb (fun c => Ascii.eqb (lower_char c) c) s.

(** A prefix the parser gives back: not empty, without colon, not starting
    with whitespace, equal to its lowercase form. *)
Definition stable_prefix (p : str) : bool :=
  match p with
  | [] => false
  | c :: _ =>
      negb (isspace c) && negb (char_in ":" p) && str_eqb (lower p) p
  end.

(** A key the parser gives back: not empty, made of key characters that
    [lower] leaves unchanged, not purely numeric. *)
Definition stable_key (k : str) : bool :=
  negb (is_empty k) && forallb TaggedUrn._is_valid_key_char k
  && unchanged_by_lower k && negb (TaggedUrn._is_purely_numeric k).

(** A value the parser gives back: not empty, and either quoted by the
    serializer or made of unquoted-value characters that [lower] leaves
    unchanged. *)
Definition stable_value (v : str) : bool :=
  negb (is_empty v)
  && (TaggedUrn._needs_quoting v
      || (forallb TaggedUrn._is_valid_unquoted_value_char v
          && unchanged_by_lower v)).

Definition reads_back (u : TaggedUrn.t) : bool :=
  stable_prefix (TaggedUrn.prefix u)
  && forallb stable_key (keys (TaggedUrn.tags u))
  && forallb stable_value (values (TaggedUrn.tags u))
  && distinct (keys (TaggedUrn.tags u)).

Definition stable_item (kv : str * str) : Prop :=
  stable_key (fst kv) = true /\ stable_value (snd kv) = true.

(** ** Invariants of the parser's loop *)

(** A key that holds neither of the delimiters the loop looks for while
    it reads a key. *)
Definition no_delimiter (k : str) : bool :=
  forallb (fun c => negb (char_in c [";"; "="]%char)) k.

Definition lowered_key (k : str) : Prop :=
  lower k = k /\ no_delimiter k = true.

(** The tags collected so far: distinct keys, each non-empty, equal to its
    lowercase form, free of delimiters and not purely numeric, each with a
    non-empty value. *)
Definition lowered_tags (tags : dict) : Prop :=
  NoDup (keys tags)
  /\ Forall (fun kv => fst kv <> [] /\ lowered_key (fst kv)
                       /\ TaggedUrn._is_purely_numeric (fst kv) = false
                       /\ snd kv <> []) tags.

Definition lowered_cursor (cu : TaggedUrn.cursor) : Prop :=
  lowered_tags (TaggedUrn.cur_tags cu)
  /\ lowered_key (TaggedUrn.current_key cu).

(** The value the parser stores for what the serializer writes for [v]:
    [v] itself when it is written in quotes, its lowercase form when it is
    written bare. *)
Definition read_value (v : str) : str :=
  if TaggedUrn._needs_quoting v then v else lower v.

(** ** A wider alphabet

    The operations that look a key up, over the alphabet extended with one
    character outside Latin-1: U+2102, DOUBLE-STRUCK CAPITAL C, a letter
    for which [str.isupper] holds and which [str.lower] leaves unchanged
    (it has no lowercase form).  On the other characters everything is as
    in [Py] and [TaggedUrn]. *)

Module Wide.

Inductive char : Type :=
| Latin1 (c : ascii)
| U2102.

Definition str := list char.

Definition lit (s : string) : str := map Latin1 (list_ascii_of_string s).

(** [c.isupper()] *)
Definition isupper (c : char) : bool :=
  match c with
  | Latin1 a => Py.isupper a
  | U2102 => true
  end.

(** [c.lower()] *)
Definition lower_char (c : char) : char :=
  match c with
  | Latin1 a => Latin1 (Py.lower_char a)
  | U2102 => U2102
  end.

(** [s.lower()] *)
Definition lower (s : str) : str := map lower_char s.

Definition char_eqb (x y : char) : bool :=
  match x, y with
  | Latin1 a, Latin1 b => Ascii.eqb a b
  | U2102, U2102 => true
  | _, _ => false
  end.

(** [a == b] on strings *)
Fixpoint str_eqb (a b : str) : bool :=
  match a, b with
  | [], [] => true
  | x :: a', y :: b' => char_eqb x y && str_eqb a' b'
  | _, _ => false
  end.

Definition dict := list (str * str).

(** [d.get(k)] *)
Fixpoint get (d : dict) (k : str) : option str :=
  match d with
  | [] => None
  | (k', v) :: d' => if str_eqb k' k then Some v else get d' k
  end.

(** [k in d] *)
Definition mem (k : str) (d : dict) : bool :=
  match get d k with Some _ => true | None => false end.

(** [d[k] = v] *)
Fixpoint set (d : dict) (k v : str) : dict :=
  match d with
  | [] => [(k, v)]
  | (k', v') :: d' =>
      if str_eqb k' k then (k', v) :: d' else (k', v') :: set d' k v
  end.

Record t : Type := mk { prefix : str; tags : dict }.

Definition __init__ (prefix : str) (tags : dict) : t :=
  mk (lower prefix)
     (fold_left (fun acc kv => set acc (lower (fst kv)) (snd kv)) tags []).

Definition _with_tag_unchecked (self : t) (key value : str) : t :=
  __init__ (prefix self) (set (tags self) (lower key) value).

Definition with_wildcard_tag (self : t) (key : str) : t :=
  if mem key (tags self) then _with_tag_unchecked self key (lit "*")
  else self.

Definition subset (self : t) (keys : list str) : t :=
  __init__ (prefix self)
    (fold_left (fun new_tags key =>
                  match get (tags self) key with
                  | Some v => set new_tags key v
                  | None => new_tags
                  end) keys []).

End Wide.

(** ** Vocabulary of the further properties *)

(** The points one tag contributes to [specificity]. *)
Definition score (v : str) : nat :=
  match Spec.tag_value v with
  | Spec.Unspecified => 0
  | Spec.MustNotHave => 1
  | Spec.MustHaveAny => 2
  | Spec.Exact _ => 3
  end.

(** A client chaining [tag] calls on a builder, in the order of [items]. *)
Fixpoint tag_all (b : TaggedUrnBuilder.t) (items : list (str * str))
  : result TaggedUrnBuilder.t :=
  match items with
  | [] => Ok b
  | (k, v) :: rest => b' <- TaggedUrnBuilder.tag b k v ;; tag_all b' rest
  end.

(** What the constructor establishes: a lowercase prefix and distinct,
    lowercase keys. *)
Definition normal_tags (d : dict) : Prop :=
  NoDup (keys d) /\ Forall (fun k => lower k = k) (keys d).

Definition constructed (u : TaggedUrn.t) : Prop :=
  lower (TaggedUrn.prefix u) = TaggedUrn.prefix u
  /\ normal_tags (TaggedUrn.tags u).

(** The parser states in which the current character is not inside
    quotes. *)
Definition outside_quotes (st : ParseState) : bool :=
  match st with
  | IN_QUOTED_VALUE | IN_QUOTED_VALUE_ESCAPE => false
  | _ => true
  end.

(** Sorted by descending specificity. *)
Definition descending (l : list TaggedUrn.t) : Prop :=
  StronglySorted
    (fun a b => TaggedUrn.specificity b <= TaggedUrn.specificity a) l.

(** The candidates of [l] scoring [n], in the order of [l]. *)
Definition scoring (n : nat) (l : list TaggedUrn.t) : list TaggedUrn.t :=
  filter (fun u => TaggedUrn.specificity u =? n) l.

(** * Properties *)

(** ** Strings *)

Lemma str_eqb_eq (a b : str) : str_eqb a b = true <-> a = b.
Proof.
  revert b; induction a as [|x a IH]; intros [|y b]; simpl;
    try (split; [discriminate | congruence]); try tauto.
  rewrite andb_true_iff, Ascii.eqb_eq, IH.
  split; [intros [-> ->]; reflexivity | intros E; inversion E; auto].
Qed.

Lemma str_eqb_refl (a : str) : str_eqb a a = true.
Proof. apply str_eqb_eq; reflexivity. Qed.

Lemma str_eqb_spec (a b : str) : reflect (a = b) (str_eqb a b).
Proof. apply iff_reflect; symmetry; apply str_eqb_eq. Qed.

Lemma str_eqb_neq (a b : str) : str_eqb a b = false <-> a <> b.
Proof. destruct (str_eqb_spec a b); split; congruence. Qed.

Lemma str_eqb_sym (a b : str) : str_eqb a b = str_eqb b a.
Proof.
  destruct (str_eqb_spec a b) as [->|N].
  - symmetry; apply str_eqb_refl.
  - symmetry; apply str_eqb_neq; congruence.
Qed.

(** Case analysis on every string comparison in the goal. *)
Ltac str_cases :=
  repeat match goal with
         | |- context [str_eqb ?a ?b] =>
             destruct (str_eqb_spec a b); subst; simpl in *;
             try congruence; try discriminate
         end.

(** ** The key set of a comparison *)

Lemma existsb_str_eqb_In (x : str) (l : list str) :
  existsb (str_eqb x) l = true <-> In x l.
Proof.
  rewrite existsb_exists; split.
  - intros [y [Hy E]]; apply str_eqb_eq in E; subst; assumption.
  - intros H; exists x; split; [assumption | apply str_eqb_refl].
Qed.

Lemma set_of_In (l : list str) (k : str) : In k (set_of l) <-> In k l.
Proof.
  induction l as [|x l IH]; simpl; [tauto|].
  destruct (existsb (str_eqb x) l) eqn:E; simpl; rewrite IH.
  - apply existsb_str_eqb_In in E.
    split; [tauto | intros [<-|H]; assumption].
  - tauto.
Qed.

Lemma set_of_NoDup (l : list str) : NoDup (set_of l).
Proof.
  induction l as [|x l IH]; simpl; [constructor|].
  destruct (existsb (str_eqb x) l) eqn:E; [assumption|].
  constructor; [|assumption].
  rewrite set_of_In, <- existsb_str_eqb_In, E; discriminate.
Qed.

Lemma union_In (a b : list str) (k : str) :
  In k (union a b) <-> In k a \/ In k b.
Proof. unfold union; rewrite set_of_In; apply in_app_iff. Qed.

Lemma get_In_keys (d : dict) (k : str) :
  get d k <> None <-> In k (keys d).
Proof.
  induction d as [|[k' v] d IH]; simpl; [tauto|].
  destruct (str_eqb_spec k' k) as [->|N].
  - split; [auto | discriminate].
  - rewrite IH; split; [auto | intros [E|H]; [contradiction | assumption]].
Qed.

Lemma get_None_keys (d : dict) (k : str) :
  get d k = None <-> ~ In k (keys d).
Proof.
  rewrite <- get_In_keys; destruct (get d k); split; try congruence.
  intros H; exfalso; apply H; discriminate.
Qed.

Lemma mem_In_keys (d : dict) (k : str) : mem k d = true <-> In k (keys d).
Proof.
  unfold mem; rewrite <- get_In_keys.
  destruct (get d k); split; congruence.
Qed.

(** ** Matching *)

Lemma values_match_table (inst patt : option str) :
  TaggedUrn._values_match inst patt
  = Spec.matches (Spec.side inst) (Spec.side patt).
Proof.
  unfold TaggedUrn._values_match, Spec.side, Spec.tag_value,
    TaggedUrn.is_lit, TaggedUrn.is_none, TaggedUrn.opt_eqb.
  destruct inst as [i|], patt as [p|]; simpl; str_cases; try reflexivity.
Qed.

Lemma check_match_loop_forallb (ks : list str) (i p : dict) :
  TaggedUrn._check_match_loop ks i p = forallb (Spec.cell i p) ks.
Proof.
  induction ks as [|k ks IH]; simpl; [reflexivity|].
  unfold Spec.cell at 1; rewrite <- values_match_table.
  destruct (TaggedUrn._values_match (get i k) (get p k)); simpl; auto.
Qed.

Lemma forallb_same_elements (A : Type) (f : A -> bool) (l1 l2 : list A) :
  (forall x, In x l1 <-> In x l2) -> forallb f l1 = forallb f l2.
Proof.
  intros H.
  destruct (forallb f l1) eqn:E1, (forallb f l2) eqn:E2; try reflexivity.
  - rewrite forallb_forall in E1.
    assert (forallb f l2 = true) by (apply forallb_forall; intros; apply E1, H; assumption).
    congruence.
  - rewrite forallb_forall in E2.
    assert (forallb f l1 = true) by (apply forallb_forall; intros; apply E2, H; assumption).
    congruence.
Qed.

(** C2. For two URNs with equal prefixes, [conforms_to] (and [accepts]
    from the pattern's side) returns the conjunction of the cells of the
    5x5 matching table over the keys present in either mapping, whatever
    the order in which the key set is enumerated. *)
Theorem C2_conforms_to_is_table_conjunction
    (instance pattern : TaggedUrn.t)
    (Hprefix : TaggedUrn.prefix instance = TaggedUrn.prefix pattern) :
  let i := TaggedUrn.tags instance in
  let p := TaggedUrn.tags pattern in
  let all_keys := union (keys i) (keys p) in
  (forall k, In k all_keys <-> In k (keys i) \/ In k (keys p))
  /\ TaggedUrn.conforms_to instance pattern
     = Ok (forallb (Spec.cell i p) all_keys)
  /\ TaggedUrn.accepts pattern instance
     = TaggedUrn.conforms_to instance pattern
  /\ (forall ks, (forall k, In k ks <-> In k (keys i) \/ In k (keys p)) ->
        TaggedUrn._check_match_loop ks i p
        = forallb (Spec.cell i p) all_keys)
  /\ (TaggedUrn.conforms_to instance pattern = Ok true <->
      forall k, In k (keys i) \/ In k (keys p) -> Spec.cell i p k = true).
Proof.
  intros i p all_keys.
  assert (Hu : forall k, In k all_keys <-> In k (keys i) \/ In k (keys p))
    by (intros k; apply union_In).
  assert (Hc : TaggedUrn.conforms_to instance pattern
               = Ok (forallb (Spec.cell i p) all_keys)).
  { unfold TaggedUrn.conforms_to, TaggedUrn._check_match.
    rewrite Hprefix, str_eqb_refl; simpl.
    rewrite check_match_loop_forallb; reflexivity. }
  repeat split; try assumption; try apply Hu.
  - intros ks Hks; rewrite check_match_loop_forallb.
    apply forallb_same_elements; intros k; rewrite Hks, Hu; tauto.
  - rewrite Hc; intros E k Hk; inversion E as [E'].
    rewrite E'; rewrite forallb_forall in E'; apply E', Hu, Hk.
  - intros H; rewrite Hc; f_equal; apply forallb_forall.
    intros k Hk; apply H, Hu, Hk.
Qed.

Lemma C2_conforms_to_is_table_conjunction_witness :
  let instance := TaggedUrn.mk (lit "cap")
                    [(lit "op", lit "generate"); (lit "ext", lit "pdf")] in
  let pattern := TaggedUrn.mk (lit "cap")
                   [(lit "op", lit "*"); (lit "mode", lit "!")] in
  TaggedUrn.conforms_to instance pattern = Ok true.
Proof.
  intros instance pattern.
  destruct (@C2_conforms_to_is_table_conjunction instance pattern eq_refl)
    as [_ [H _]].
  rewrite H; reflexivity.
Defined.

(** C7. With different prefixes, [conforms_to], [accepts],
    [is_compatible_with], [is_more_specific_than] and [merge] raise
    [PrefixMismatchError] with both prefixes and return nothing;
    [conforms_to] carries the instance prefix as expected and the pattern
    prefix as actual. *)
Theorem C7_prefix_mismatch_raises (a b : TaggedUrn.t)
    (Hdiff : TaggedUrn.prefix a <> TaggedUrn.prefix b) :
  let pa := TaggedUrn.prefix a in
  let pb := TaggedUrn.prefix b in
  TaggedUrn.conforms_to a b = Raise (PrefixMismatchError pa pb)
  /\ TaggedUrn.accepts b a = Raise (PrefixMismatchError pa pb)
  /\ TaggedUrn.is_compatible_with a b = Raise (PrefixMismatchError pa pb)
  /\ TaggedUrn.is_more_specific_than a b = Raise (PrefixMismatchError pa pb)
  /\ TaggedUrn.merge a b = Raise (PrefixMismatchError pa pb).
Proof.
  apply str_eqb_neq in Hdiff.
  unfold TaggedUrn.conforms_to, TaggedUrn.accepts, TaggedUrn._check_match,
    TaggedUrn.is_compatible_with, TaggedUrn.is_more_specific_than,
    TaggedUrn.merge.
  simpl; rewrite Hdiff; simpl; repeat split.
Qed.

Lemma C7_prefix_mismatch_raises_witness :
  exists a b,
    TaggedUrn.from_string (lit "cap:op=x") = Ok a
    /\ TaggedUrn.from_string (lit "other:op=x") = Ok b
    /\ TaggedUrn.conforms_to a b
       = Raise (PrefixMismatchError (lit "cap") (lit "other")).
Proof.
  exists (TaggedUrn.mk (lit "cap") [(lit "op", lit "x")]).
  exists (TaggedUrn.mk (lit "other") [(lit "op", lit "x")]).
  split; [reflexivity | split; [reflexivity|]].
  apply (@C7_prefix_mismatch_raises
           (TaggedUrn.mk (lit "cap") [(lit "op", lit "x")])
           (TaggedUrn.mk (lit "other") [(lit "op", lit "x")])).
  simpl; discriminate.
Defined.

(** ** Best match *)

Section BestMatch.

Variable request : TaggedUrn.t.

Lemma conforms_same_prefix (u : TaggedUrn.t) :
  TaggedUrn.prefix u = TaggedUrn.prefix request ->
  TaggedUrn.conforms_to u request = Ok (conforming request u).
Proof.
  intros E; unfold TaggedUrn.conforms_to, TaggedUrn._check_match.
  rewrite E, str_eqb_refl; reflexivity.
Qed.

(** The loop keeps [best] unless a later conforming candidate scores
    strictly higher; what it returns is described relative to the
    [best]/[best_specificity] it was entered with. *)
Lemma find_best_loop_inv (urns : list TaggedUrn.t) :
  forall (best : option TaggedUrn.t) (bs : nat),
    (forall u, In u urns -> TaggedUrn.prefix u = TaggedUrn.prefix request) ->
    exists r,
      UrnMatcher.find_best_loop urns request best bs = Ok r
      /\ ((r = best
           /\ forall u, In u urns -> conforming request u = true ->
                        best <> None /\ TaggedUrn.specificity u <= bs)
          \/ exists before x after,
               urns = before ++ x :: after
               /\ r = Some x
               /\ conforming request x = true
               /\ (best = None \/ bs < TaggedUrn.specificity x)
               /\ (forall u, In u before -> conforming request u = true ->
                     TaggedUrn.specificity u < TaggedUrn.specificity x)
               /\ (forall u, In u after -> conforming request u = true ->
                     TaggedUrn.specificity u <= TaggedUrn.specificity x)).
Proof.
  induction urns as [|u rest IH]; intros best bs Hp.
  - exists best; split; [reflexivity | left; split; [reflexivity|]].
    intros u [].
  - simpl. rewrite (conforms_same_prefix u) by (apply Hp; left; reflexivity).
    assert (Hp' : forall x, In x rest ->
                    TaggedUrn.prefix x = TaggedUrn.prefix request)
      by (intros x Hx; apply Hp; right; assumption).
    simpl. destruct (conforming request u) eqn:Cu.
    + destruct (TaggedUrn.is_none best || (bs <? TaggedUrn.specificity u))
        eqn:Upd.
      * assert (Hnew : best = None \/ bs < TaggedUrn.specificity u).
        { apply orb_true_iff in Upd; destruct Upd as [N|L].
          - left; destruct best; [discriminate | reflexivity].
          - right; apply Nat.ltb_lt; assumption. }
        destruct (IH (Some u) (TaggedUrn.specificity u) Hp')
          as [r [Er [[-> Hall]
                    |[before [x [after [-> [-> [Cx [Hx [Hb Ha]]]]]]]]]]];
          (eexists; split; [exact Er|]); right.
        -- exists [], u, rest; repeat split; auto.
           ++ intros y [].
           ++ intros y Hy Cy; apply (Hall y Hy Cy).
        -- exists (u :: before), x, after; repeat split; auto.
           ++ destruct Hx as [Hx|Hx]; [discriminate|].
              destruct Hnew as [N|L]; [left; assumption | right].
              lia.
           ++ intros y [<-|Hy] Cy; [|apply Hb; assumption].
              destruct Hx as [Hx|Hx]; [discriminate | exact Hx].
      * apply orb_false_iff in Upd; destruct Upd as [N L].
        apply Nat.ltb_ge in L.
        assert (Hb0 : best <> None) by (destruct best; [discriminate | discriminate]).
        destruct (IH best bs Hp')
          as [r [Er [[-> Hall]
                    |[before [x [after [-> [-> [Cx [Hx [Hb Ha]]]]]]]]]]];
          (eexists; split; [exact Er|]).
        -- left; split; [reflexivity|].
           intros y [<-|Hy] Cy; [split; assumption | apply Hall; assumption].
        -- right; exists (u :: before), x, after; repeat split; auto.
           intros y [<-|Hy] Cy; [|apply Hb; assumption].
           destruct Hx as [Hx|Hx]; [contradiction | lia].
    + destruct (IH best bs Hp')
        as [r [Er [[-> Hall]
                  |[before [x [after [-> [-> [Cx [Hx [Hb Ha]]]]]]]]]]];
        (eexists; split; [exact Er|]).
      * left; split; [reflexivity|].
        intros y [<-|Hy] Cy; [congruence | apply Hall; assumption].
      * right; exists (u :: before), x, after; repeat split; auto.
        intros y [<-|Hy] Cy; [congruence | apply Hb; assumption].
Qed.

End BestMatch.

(** C5. With every candidate sharing the request's prefix,
    [find_best_match] returns [None] when no candidate conforms, and
    otherwise the first candidate, in input order, whose specificity is
    maximal among the conforming ones: every conforming candidate before it
    scores strictly less, every conforming candidate after it scores at
    most as much. *)
Theorem C5_find_best_match_first_maximum
    (urns : list TaggedUrn.t) (request : TaggedUrn.t)
    (Hprefix : forall u, In u urns ->
                 TaggedUrn.prefix u = TaggedUrn.prefix request) :
  ((forall u, In u urns -> TaggedUrn.conforms_to u request <> Ok true) ->
   UrnMatcher.find_best_match urns request = Ok None)
  /\ ((exists u, In u urns /\ TaggedUrn.conforms_to u request = Ok true) ->
      exists before best after,
        urns = before ++ best :: after
        /\ UrnMatcher.find_best_match urns request = Ok (Some best)
        /\ TaggedUrn.conforms_to best request = Ok true
        /\ (forall u, In u before ->
              TaggedUrn.conforms_to u request = Ok true ->
              TaggedUrn.specificity u < TaggedUrn.specificity best)
        /\ (forall u, In u after ->
              TaggedUrn.conforms_to u request = Ok true ->
              TaggedUrn.specificity u <= TaggedUrn.specificity best)).
Proof.
  unfold UrnMatcher.find_best_match.
  destruct (find_best_loop_inv request urns None 0 Hprefix)
    as [r [Er [[-> Hall]|[before [x [after [E [-> [Cx [_ [Hb Ha]]]]]]]]]]].
  - split; [intros _; exact Er|].
    intros [u [Hu Cu]]; exfalso.
    rewrite conforms_same_prefix in Cu by (apply Hprefix; assumption).
    inversion Cu as [Cu'].
    destruct (Hall u Hu Cu') as [N _]; apply N; reflexivity.
  - assert (Hx : In x urns) by (rewrite E; apply in_elt).
    split.
    + intros Hnone; exfalso; apply (Hnone x Hx).
      rewrite conforms_same_prefix by (apply Hprefix; assumption).
      rewrite Cx; reflexivity.
    + intros _; exists before, x, after; repeat split; auto.
      * rewrite conforms_same_prefix by (apply Hprefix; assumption).
        rewrite Cx; reflexivity.
      * intros u Hu Cu; apply Hb; [assumption|].
        rewrite conforms_same_prefix in Cu
          by (apply Hprefix; rewrite E; apply in_or_app; left; assumption).
        inversion Cu; reflexivity.
      * intros u Hu Cu; apply Ha; [assumption|].
        rewrite conforms_same_prefix in Cu
          by (apply Hprefix; rewrite E; apply in_or_app; right; right;
              assumption).
        inversion Cu; reflexivity.
Qed.

Lemma C5_find_best_match_first_maximum_witness :
  let u1 := TaggedUrn.mk (lit "cap") [(lit "op", lit "*")] in
  let u2 := TaggedUrn.mk (lit "cap")
              [(lit "op", lit "generate"); (lit "ext", lit "pdf")] in
  let u3 := TaggedUrn.mk (lit "cap")
              [(lit "op", lit "generate"); (lit "fmt", lit "a4")] in
  let request := TaggedUrn.mk (lit "cap") [(lit "op", lit "generate")] in
  UrnMatcher.find_best_match [u1; u2; u3] request = Ok (Some u2)
  /\ exists before best after,
       [u1; u2; u3] = before ++ best :: after
       /\ UrnMatcher.find_best_match [u1; u2; u3] request = Ok (Some best)
       /\ TaggedUrn.conforms_to best request = Ok true
       /\ (forall u, In u before ->
             TaggedUrn.conforms_to u request = Ok true ->
             TaggedUrn.specificity u < TaggedUrn.specificity best)
       /\ (forall u, In u after ->
             TaggedUrn.conforms_to u request = Ok true ->
             TaggedUrn.specificity u <= TaggedUrn.specificity best).
Proof.
  intros u1 u2 u3 request; split; [reflexivity|].
  apply (@C5_find_best_match_first_maximum [u1; u2; u3] request).
  - intros u [<-|[<-|[<-|[]]]]; reflexivity.
  - exists u2; split; [right; left; reflexivity | reflexivity].
Defined.

(** ** Characters *)

Ltac char_fact :=
  let c := fresh "c" in
  intros c; destruct c as [[] [] [] [] [] [] [] []]; vm_compute;
  try reflexivity; try discriminate; intuition congruence.

Lemma lower_char_idem : forall c, lower_char (lower_char c) = lower_char c.
Proof. char_fact. Qed.

Lemma lower_char_fixed : forall c, isupper c = false -> lower_char c = c.
Proof. intros c H; unfold lower_char; rewrite H; reflexivity. Qed.

Lemma lower_idem (s : str) : lower (lower s) = lower s.
Proof.
  unfold lower; rewrite map_map; apply map_ext; apply lower_char_idem.
Qed.

Lemma lower_fixed (s : str) : existsb isupper s = false -> lower s = s.
Proof.
  induction s as [|c s IH]; simpl; [reflexivity|].
  intros H; apply orb_false_iff in H; destruct H as [Hc Hs].
  rewrite lower_char_fixed, IH by assumption; reflexivity.
Qed.

(** ** dict *)

Lemma get_set (d : dict) (k v k' : str) :
  get (set d k v) k' = if str_eqb k k' then Some v else get d k'.
Proof.
  induction d as [|[k0 v0] d IH]; simpl; [reflexivity|].
  destruct (str_eqb_spec k0 k) as [->|N]; simpl.
  - destruct (str_eqb k k'); reflexivity.
  - rewrite IH. destruct (str_eqb_spec k0 k') as [->|N'].
    + apply str_eqb_neq in N; rewrite str_eqb_sym, N; reflexivity.
    + reflexivity.
Qed.

Lemma keys_set_In (d : dict) (k v k' : str) :
  In k' (keys (set d k v)) <-> k' = k \/ In k' (keys d).
Proof.
  rewrite <- !get_In_keys, get_set.
  destruct (str_eqb_spec k k') as [->|N].
  - split; [auto | discriminate].
  - split; [auto | intros [E|H]; [congruence | assumption]].
Qed.

Lemma set_fresh (d : dict) (k v : str) :
  ~ In k (keys d) -> set d k v = d ++ [(k, v)].
Proof.
  induction d as [|[k0 v0] d IH]; simpl; intros H; [reflexivity|].
  destruct (str_eqb_spec k0 k) as [->|N]; [exfalso; auto|].
  rewrite IH by tauto; reflexivity.
Qed.

Lemma keys_set_present (d : dict) (k v : str) :
  In k (keys d) -> keys (set d k v) = keys d.
Proof.
  induction d as [|[k0 v0] d IH]; simpl; intros H; [contradiction|].
  destruct (str_eqb_spec k0 k) as [->|N]; simpl; [reflexivity|].
  rewrite IH; [reflexivity | destruct H; [contradiction | assumption]].
Qed.

Lemma NoDup_keys_set (d : dict) (k v : str) :
  NoDup (keys d) -> NoDup (keys (set d k v)).
Proof.
  intros H. destruct (in_dec (list_eq_dec ascii_dec) k (keys d)) as [I|I].
  - rewrite keys_set_present; assumption.
  - rewrite set_fresh by assumption. unfold keys; rewrite map_app; simpl.
    apply NoDup_app; [assumption | repeat constructor; auto | ].
    intros x Hx [<-|[]]; contradiction.
Qed.

Lemma get_app (d1 d2 : dict) (k : str) :
  get (d1 ++ d2) k
  = match get d1 k with Some v => Some v | None => get d2 k end.
Proof.
  induction d1 as [|[k0 v0] d1 IH]; simpl; [reflexivity|].
  destruct (str_eqb k0 k); [reflexivity | apply IH].
Qed.

Lemma get_In_NoDup (d : dict) (k v : str) :
  NoDup (keys d) -> In (k, v) d -> get d k = Some v.
Proof.
  induction d as [|[k0 v0] d IH]; simpl; [intros _ []|].
  intros ND [E|I].
  - inversion E; subst; rewrite str_eqb_refl; reflexivity.
  - inversion ND as [|? ? Hn Hd]; subst.
    destruct (str_eqb_spec k0 k) as [->|N].
    + exfalso; apply Hn. apply (in_map fst) in I; exact I.
    + apply IH; assumption.
Qed.

(** ** The constructor *)

Lemma init_tags_get (d : dict) : forall acc k,
  get (init_tags d acc) k
  = match get (rev (lower_keys d)) k with
    | Some v => Some v
    | None => get acc k
    end.
Proof.
  unfold init_tags, lower_keys.
  induction d as [|[k0 v0] d IH]; intros acc k; simpl; [reflexivity|].
  rewrite IH, get_app, get_set; simpl.
  destruct (get (rev (map (fun kv => (lower (fst kv), snd kv)) d)) k);
    [reflexivity|].
  destruct (str_eqb (lower k0) k); reflexivity.
Qed.

Lemma init_tags_NoDup (d : dict) : forall acc,
  NoDup (keys acc) -> NoDup (keys (init_tags d acc)).
Proof.
  unfold init_tags.
  induction d as [|[k0 v0] d IH]; intros acc H; simpl; [assumption|].
  apply IH, NoDup_keys_set, H.
Qed.

Lemma init_tags_keys (d : dict) : forall acc k,
  In k (keys (init_tags d acc))
  <-> In k (keys acc) \/ exists k0, In k0 (keys d) /\ k = lower k0.
Proof.
  unfold init_tags.
  induction d as [|[k0 v0] d IH]; intros acc k; simpl.
  - split; [auto | intros [H|[k0 [[] _]]]; assumption].
  - rewrite IH, keys_set_In; split.
    + intros [[->|H]|[k1 [H1 ->]]]; eauto.
    + intros [H|[k1 [[<-|H1] ->]]]; eauto.
Qed.

(** A dict whose keys are already lowercase and distinct is stored as it
    is. *)
Lemma init_tags_fixed (d : dict) : forall acc,
  NoDup (keys acc ++ keys d) ->
  Forall (fun k => lower k = k) (keys d) ->
  init_tags d acc = acc ++ d.
Proof.
  unfold init_tags.
  induction d as [|[k0 v0] d IH]; intros acc ND HL; simpl.
  - rewrite app_nil_r; reflexivity.
  - inversion HL as [|? ? E HL']; subst; simpl in *.
    rewrite E, set_fresh.
    + rewrite IH; [rewrite <- app_assoc; reflexivity | | assumption].
      unfold keys in *; rewrite map_app, <- app_assoc; exact ND.
    + apply NoDup_remove_2 in ND; intros I; apply ND, in_or_app; auto.
Qed.

Lemma init_stores_lowercase (p : str) (d : dict) :
  Forall (fun k => lower k = k) (keys (TaggedUrn.tags (TaggedUrn.__init__ p d))).
Proof.
  apply Forall_forall; intros k Hk.
  apply (init_tags_keys d []) in Hk; destruct Hk as [[]|[k0 [_ ->]]].
  apply lower_idem.
Qed.

Lemma init_stores_distinct (p : str) (d : dict) :
  NoDup (keys (TaggedUrn.tags (TaggedUrn.__init__ p d))).
Proof. apply (init_tags_NoDup d []); constructor. Qed.

(** C9. The constructor (and [empty]) is a total function that validates
    nothing: it stores the lowercased prefix and re-inserts every item
    under its lowercased key, so that the value kept for a key is that of
    the last input item whose key lowercases to it.  An empty prefix, a
    purely numeric key and an empty value are stored as given, and two keys
    that differ only in case collapse to one entry holding the later
    value. *)
Theorem C9_constructor_total_unvalidated :
  (forall (p : str) (d : dict),
     let u := TaggedUrn.__init__ p d in
     TaggedUrn.prefix u = lower p
     /\ NoDup (keys (TaggedUrn.tags u))
     /\ (forall k, In k (keys (TaggedUrn.tags u))
                   <-> exists k0, In k0 (keys d) /\ k = lower k0)
     /\ (forall k, get (TaggedUrn.tags u) k = get (rev (lower_keys d)) k))
  /\ (forall p, TaggedUrn.empty p = TaggedUrn.mk (lower p) [])
  /\ TaggedUrn.__init__ [] [] = TaggedUrn.mk [] []
  /\ TaggedUrn.__init__ (lit "cap") [(lit "123", lit "v")]
     = TaggedUrn.mk (lit "cap") [(lit "123", lit "v")]
  /\ TaggedUrn.__init__ (lit "cap") [(lit "k", [])]
     = TaggedUrn.mk (lit "cap") [(lit "k", [])]
  /\ TaggedUrn.__init__ (lit "Cap") [(lit "Key", lit "a"); (lit "KEY", lit "b")]
     = TaggedUrn.mk (lit "cap") [(lit "key", lit "b")].
Proof.
  split; [|repeat split].
  intros p d u; repeat split.
  - apply init_stores_distinct.
  - intros H; apply (init_tags_keys d []) in H.
    destruct H as [[]|H]; exact H.
  - intros H; apply (init_tags_keys d []); right; exact H.
  - intros k; unfold u; simpl.
    change (get (init_tags d []) k = get (rev (lower_keys d)) k).
    rewrite init_tags_get; simpl.
    destruct (get (rev (lower_keys d)) k); reflexivity.
Qed.

(** ** Removing a key *)

Lemma pop_keys_In (d : dict) (k k' : str) :
  In k' (keys (pop d k)) -> In k' (keys d).
Proof.
  induction d as [|[k0 v0] d IH]; simpl; [tauto|].
  destruct (str_eqb k0 k); simpl; [auto | intros [E|H]; auto].
Qed.

Lemma pop_NoDup (d : dict) (k : str) :
  NoDup (keys d) -> NoDup (keys (pop d k)).
Proof.
  induction d as [|[k0 v0] d IH]; simpl; intros H; [constructor|].
  inversion H as [|? ? Hn Hd]; subst.
  destruct (str_eqb k0 k); simpl; [assumption|].
  constructor; [intros I; apply Hn, (pop_keys_In _ _ _ I) | apply IH, Hd].
Qed.

Lemma pop_get_same (d : dict) (k : str) :
  NoDup (keys d) -> get (pop d k) k = None.
Proof.
  induction d as [|[k0 v0] d IH]; simpl; intros H; [reflexivity|].
  inversion H as [|? ? Hn Hd]; subst.
  destruct (str_eqb_spec k0 k) as [->|N]; simpl.
  - apply get_None_keys; assumption.
  - apply str_eqb_neq in N; rewrite N; apply IH, Hd.
Qed.

(** ** Constructed URNs *)

Lemma init_constructed (p : str) (d : dict) :
  constructed (TaggedUrn.__init__ p d).
Proof.
  split; [apply lower_idem|].
  split; [apply init_stores_distinct | apply init_stores_lowercase].
Qed.

Lemma init_of_normal (p : str) (d : dict) :
  normal_tags d -> TaggedUrn.__init__ p d = TaggedUrn.mk (lower p) d.
Proof.
  intros [ND HL]; unfold TaggedUrn.__init__; f_equal.
  apply (init_tags_fixed d []); assumption.
Qed.

Lemma rebuild_constructed (u : TaggedUrn.t) (d : dict) :
  constructed u -> normal_tags d ->
  TaggedUrn.__init__ (TaggedUrn.prefix u) d = TaggedUrn.mk (TaggedUrn.prefix u) d.
Proof.
  intros [Hp _] Hd; rewrite init_of_normal by assumption.
  rewrite Hp; reflexivity.
Qed.

Lemma set_normal (d : dict) (k v : str) :
  normal_tags d -> lower k = k -> normal_tags (set d k v).
Proof.
  intros [ND HL] Hk; split; [apply NoDup_keys_set, ND|].
  apply Forall_forall; intros x Hx; apply keys_set_In in Hx.
  destruct Hx as [->|Hx]; [assumption|].
  rewrite Forall_forall in HL; apply HL, Hx.
Qed.

Lemma pop_normal (d : dict) (k : str) :
  normal_tags d -> normal_tags (pop d k).
Proof.
  intros [ND HL]; split; [apply pop_NoDup, ND|].
  apply Forall_forall; intros x Hx; apply pop_keys_In in Hx.
  rewrite Forall_forall in HL; apply HL, Hx.
Qed.

Lemma pop_get_other (d : dict) (k k' : str) :
  k' <> k -> get (pop d k) k' = get d k'.
Proof.
  intros N; induction d as [|[k0 v0] d IH]; simpl; [reflexivity|].
  destruct (str_eqb_spec k0 k) as [->|N0]; simpl.
  - destruct (str_eqb_spec k k'); [congruence | reflexivity].
  - rewrite IH; reflexivity.
Qed.

Lemma pop_absent (d : dict) (k : str) : get d k = None -> pop d k = d.
Proof.
  induction d as [|[k0 v0] d IH]; simpl; [reflexivity|].
  destruct (str_eqb k0 k); [discriminate|].
  intros H; rewrite IH by assumption; reflexivity.
Qed.

Lemma normal_empty : normal_tags [].
Proof. split; constructor. Qed.

Lemma constructed_self (u : TaggedUrn.t) :
  constructed u ->
  TaggedUrn.__init__ (TaggedUrn.prefix u) (TaggedUrn.tags u) = u.
Proof.
  intros H; rewrite rebuild_constructed by (assumption || apply H).
  destruct u; reflexivity.
Qed.

(** ** Raw-key operations *)

(** A stored key is its own lowercase form, so a key that [lower] changes
    is not among the stored keys. *)
Lemma changed_key_not_stored (p : str) (d : dict) (key : str) :
  lower key <> key ->
  get (TaggedUrn.tags (TaggedUrn.__init__ p d)) key = None.
Proof.
  intros H; apply get_None_keys; intros I.
  apply (init_tags_keys d []) in I; destruct I as [[]|[k0 [_ E]]].
  apply H; rewrite E; apply lower_idem.
Qed.

Lemma subset_loop_skips_changed (tags : dict) (ks : list str) :
  (forall k, lower k <> k -> get tags k = None) ->
  forall acc,
    fold_left (fun new_tags key =>
                 match get tags key with
                 | Some v => set new_tags key v
                 | None => new_tags
                 end) ks acc
    = fold_left (fun new_tags key =>
                   match get tags key with
                   | Some v => set new_tags key v
                   | None => new_tags
                   end)
        (filter (fun k => str_eqb (lower k) k) ks) acc.
Proof.
  intros H; induction ks as [|k ks IH]; intros acc; simpl; [reflexivity|].
  destruct (str_eqb_spec (lower k) k) as [E|N]; simpl.
  - apply IH.
  - rewrite (H k N); apply IH.
Qed.

(** C10, as the claim states it, fails outside Latin-1: U+2102 is an
    uppercase letter that [lower] leaves unchanged, so the constructor
    stores a key made of it as it is; [with_wildcard_tag] then finds the
    raw key and rewrites the tag, and [subset] keeps it. *)
Lemma C10_counterexample :
  let key := [Wide.U2102] in
  let u := Wide.__init__ (Wide.lit "cap") [(key, Wide.lit "x")] in
  existsb Wide.isupper key = true
  /\ Wide.with_wildcard_tag u key
     = Wide.mk (Wide.lit "cap") [(key, Wide.lit "*")]
  /\ Wide.with_wildcard_tag u key <> u
  /\ Wide.tags (Wide.subset u [key]) = [(key, Wide.lit "x")].
Proof.
  split; [reflexivity|]; split; [reflexivity|]; split; [|reflexivity].
  discriminate.
Qed.

(** C10 (amended). On a constructed URN, a key argument that differs from
    its lowercase form is never found by [with_wildcard_tag] and [subset],
    which look the raw argument up among the stored keys: the first
    returns the URN unchanged and the second drops the key, also when the
    lowercase form is stored.  [get_tag], [has_tag] and [without_tag]
    lowercase the argument first: when the lowercase form is stored with
    value [v], the first reads [v], the second holds of [v] and of no other
    value, and the third removes that tag and no other. *)
Theorem C10_raw_key_lookup (p : str) (d : dict) (key : str)
    (Hcase : lower key <> key) :
  let u := TaggedUrn.__init__ p d in
  TaggedUrn.with_wildcard_tag u key = u
  /\ TaggedUrn.tags (TaggedUrn.subset u [key]) = []
  /\ (forall ks,
        TaggedUrn.subset u ks
        = TaggedUrn.subset u (filter (fun k => str_eqb (lower k) k) ks))
  /\ (forall v, In (lower key, v) (TaggedUrn.tags u) ->
        TaggedUrn.get_tag u key = Some v
        /\ (forall w, TaggedUrn.has_tag u key w = str_eqb v w)
        /\ TaggedUrn.get_tag (TaggedUrn.with_wildcard_tag u key) key = Some v
        /\ TaggedUrn.get_tag (TaggedUrn.subset u [key]) key = None)
  /\ (~ In (lower key) (keys (TaggedUrn.tags u)) ->
        TaggedUrn.get_tag u key = None
        /\ forall w, TaggedUrn.has_tag u key w = false)
  /\ TaggedUrn.without_tag u key
     = TaggedUrn.mk (TaggedUrn.prefix u)
         (pop (TaggedUrn.tags u) (lower key))
  /\ TaggedUrn.get_tag (TaggedUrn.without_tag u key) key = None
  /\ (forall k', lower k' <> lower key ->
        TaggedUrn.get_tag (TaggedUrn.without_tag u key) k'
        = TaggedUrn.get_tag u k').
Proof.
  intros u.
  pose proof (@changed_key_not_stored p d key Hcase) as Hget.
  pose proof (init_constructed p d) as Hc.
  fold u in Hget, Hc.
  assert (Hw : TaggedUrn.with_wildcard_tag u key = u)
    by (unfold TaggedUrn.with_wildcard_tag, mem; rewrite Hget; reflexivity).
  assert (Hs : TaggedUrn.tags (TaggedUrn.subset u [key]) = [])
    by (unfold TaggedUrn.subset; cbn [fold_left]; rewrite Hget; reflexivity).
  assert (Hr : TaggedUrn.without_tag u key
               = TaggedUrn.mk (TaggedUrn.prefix u)
                   (pop (TaggedUrn.tags u) (lower key))).
  { unfold TaggedUrn.without_tag.
    apply rebuild_constructed; [assumption | apply pop_normal, Hc]. }
  split; [exact Hw|]; split; [exact Hs|].
  split; [|split; [|split; [|split; [exact Hr|split]]]].
  - intros ks; unfold TaggedUrn.subset; f_equal.
    apply subset_loop_skips_changed.
    intros k Hk; apply changed_key_not_stored; assumption.
  - intros v I.
    assert (G : get (TaggedUrn.tags u) (lower key) = Some v)
      by (apply get_In_NoDup; [apply Hc | exact I]).
    split; [exact G|]; split; [|split].
    + intros w; unfold TaggedUrn.has_tag; rewrite G; reflexivity.
    + rewrite Hw; exact G.
    + unfold TaggedUrn.get_tag; rewrite Hs; reflexivity.
  - intros N; apply get_None_keys in N.
    split; [exact N|].
    intros w; unfold TaggedUrn.has_tag; rewrite N; reflexivity.
  - rewrite Hr; unfold TaggedUrn.get_tag; simpl.
    apply pop_get_same, Hc.
  - intros k' Hk; rewrite Hr; unfold TaggedUrn.get_tag; simpl.
    apply pop_get_other; assumption.
Qed.

Lemma C10_raw_key_lookup_witness :
  let u := TaggedUrn.__init__ (lit "cap")
             [(lit "ext", lit "pdf"); (lit "op", lit "x")] in
  lower (lit "Ext") <> lit "Ext"
  /\ TaggedUrn.with_wildcard_tag u (lit "Ext") = u
  /\ TaggedUrn.tags (TaggedUrn.subset u [lit "Ext"]) = []
  /\ TaggedUrn.get_tag u (lit "Ext") = Some (lit "pdf")
  /\ TaggedUrn.has_tag u (lit "Ext") (lit "pdf") = true
  /\ TaggedUrn.get_tag (TaggedUrn.without_tag u (lit "Ext")) (lit "op")
     = Some (lit "x").
Proof.
  intros u.
  assert (Hcase : lower (lit "Ext") <> lit "Ext") by discriminate.
  destruct (@C10_raw_key_lookup (lit "cap")
              [(lit "ext", lit "pdf"); (lit "op", lit "x")]
              (lit "Ext") Hcase) as [H1 [H2 [_ [H4 [_ [_ [_ H8]]]]]]].
  destruct (H4 (lit "pdf")) as [G [Hh _]]; [left; reflexivity|].
  split; [exact Hcase|]; split; [exact H1|]; split; [exact H2|].
  split; [exact G|]; split; [rewrite Hh; reflexivity|].
  rewrite H8; [reflexivity | discriminate].
Defined.

(** ** Compatibility *)

Lemma compatible_loop_forallb (ks : list str) (t1 t2 : dict) :
  TaggedUrn._compatible_loop ks t1 t2
  = forallb (fun k => TaggedUrn._values_compatible (get t1 k) (get t2 k)) ks.
Proof.
  induction ks as [|k ks IH]; simpl; [reflexivity|].
  destruct (TaggedUrn._values_compatible (get t1 k) (get t2 k)); simpl; auto.
Qed.

Ltac unfold_values :=
  unfold TaggedUrn._values_compatible, TaggedUrn._values_match,
    TaggedUrn.is_lit, TaggedUrn.is_none, TaggedUrn.opt_eqb in *.

Lemma values_compatible_sym (v1 v2 : option str) :
  TaggedUrn._values_compatible v1 v2 = TaggedUrn._values_compatible v2 v1.
Proof.
  unfold_values; destruct v1 as [x|], v2 as [y|]; simpl; try reflexivity.
  str_cases; reflexivity.
Qed.

Lemma common_accepted (v1 v2 : option str) :
  TaggedUrn._values_compatible v1 v2 = true ->
  TaggedUrn._values_match (common v1 v2) v1 = true
  /\ TaggedUrn._values_match (common v1 v2) v2 = true.
Proof.
  unfold common, exact_of; unfold_values.
  destruct v1 as [x|], v2 as [y|]; simpl; str_cases; auto.
Qed.

Lemma common_concrete (v1 v2 : option str) (w : str) :
  common v1 v2 = Some w -> w <> lit "?" /\ w <> lit "*".
Proof.
  unfold common, exact_of, TaggedUrn.is_lit.
  destruct v1 as [x|], v2 as [y|]; simpl; str_cases;
    intros E; inversion E; subst; split; congruence.
Qed.

Lemma accepted_by_both_compatible (w v1 v2 : option str) :
  (forall x, w = Some x -> x <> lit "?" /\ x <> lit "*") ->
  TaggedUrn._values_match w v1 = true ->
  TaggedUrn._values_match w v2 = true ->
  TaggedUrn._values_compatible v1 v2 = true.
Proof.
  intros Hw. unfold_values.
  destruct w as [x|].
  - destruct (Hw x eq_refl) as [N1 N2].
    apply str_eqb_neq in N1, N2.
    destruct v1 as [y|], v2 as [z|]; simpl; rewrite ?N1, ?N2; simpl;
      str_cases; auto.
  - destruct v1 as [y|], v2 as [z|]; simpl; str_cases; auto.
Qed.

Lemma common_tags_get (t1 t2 : dict) (ks : list str) (k : str) :
  get (common_tags t1 t2 ks) k
  = if existsb (str_eqb k) ks then common (get t1 k) (get t2 k) else None.
Proof.
  induction ks as [|k0 ks IH]; simpl; [reflexivity|].
  rewrite get_app, IH.
  destruct (str_eqb_spec k k0) as [->|N]; simpl.
  - destruct (common (get t1 k0) (get t2 k0)) eqn:E; simpl.
    + rewrite str_eqb_refl; reflexivity.
    + destruct (existsb (str_eqb k0) ks); reflexivity.
  - destruct (common (get t1 k0) (get t2 k0)); simpl; [|reflexivity].
    destruct (str_eqb_spec k0 k); [congruence | reflexivity].
Qed.

Lemma common_tags_keys (t1 t2 : dict) (ks : list str) (k : str) :
  In k (keys (common_tags t1 t2 ks)) -> In k ks.
Proof.
  induction ks as [|k0 ks IH]; simpl; [tauto|].
  unfold keys in *; rewrite map_app, in_app_iff.
  destruct (common (get t1 k0) (get t2 k0)); simpl; tauto.
Qed.

Lemma common_tags_NoDup (t1 t2 : dict) (ks : list str) :
  NoDup ks -> NoDup (keys (common_tags t1 t2 ks)).
Proof.
  induction ks as [|k0 ks IH]; simpl; intros H; [constructor|].
  inversion H as [|? ? Hn Hd]; subst.
  unfold keys in *; rewrite map_app.
  destruct (common (get t1 k0) (get t2 k0)); simpl; [|apply IH, Hd].
  constructor; [|apply IH, Hd].
  intros I; apply Hn, (common_tags_keys t1 t2 ks), I.
Qed.

Lemma common_tags_concrete (t1 t2 : dict) (ks : list str) :
  Spec.concrete (common_tags t1 t2 ks).
Proof.
  unfold Spec.concrete, values; induction ks as [|k0 ks IH]; simpl;
    [intros v []|].
  intros v; rewrite map_app, in_app_iff; intros [H|H]; [|apply IH, H].
  destruct (common (get t1 k0) (get t2 k0)) eqn:E; simpl in H;
    [|contradiction].
  destruct H as [<-|[]]; apply (common_concrete _ _ E).
Qed.

Lemma get_In_values (d : dict) (k v : str) :
  get d k = Some v -> In v (values d).
Proof.
  induction d as [|[k0 v0] d IH]; simpl; [discriminate|].
  destruct (str_eqb k0 k); [intros E; inversion E; auto | auto].
Qed.

Lemma absent_outside_keys (d : dict) (k : str) (ks : list str) :
  ~ In k ks -> (forall x, In x (keys d) -> In x ks) -> get d k = None.
Proof. intros N H; apply get_None_keys; intros I; apply N, H, I. Qed.

(** The two loops decide their per-key relation at every key, not only on
    the enumerated ones: a key outside both mappings is absent on both
    sides. *)
Lemma check_match_all_keys (i p : dict) :
  TaggedUrn._check_match_loop (union (keys i) (keys p)) i p = true
  <-> forall k, TaggedUrn._values_match (get i k) (get p k) = true.
Proof.
  rewrite check_match_loop_forallb, forallb_forall; split.
  - intros H k.
    destruct (in_dec (list_eq_dec ascii_dec) k (union (keys i) (keys p)))
      as [I|N].
    + rewrite values_match_table; apply H, I.
    + rewrite union_In in N.
      assert (Ei : get i k = None) by (apply get_None_keys; tauto).
      assert (Ep : get p k = None) by (apply get_None_keys; tauto).
      rewrite Ei, Ep; reflexivity.
  - intros H k _; unfold Spec.cell; rewrite <- values_match_table; apply H.
Qed.

Lemma compatible_all_keys (t1 t2 : dict) :
  TaggedUrn._compatible_loop (union (keys t1) (keys t2)) t1 t2 = true
  <-> forall k, TaggedUrn._values_compatible (get t1 k) (get t2 k) = true.
Proof.
  rewrite compatible_loop_forallb, forallb_forall; split.
  - intros H k.
    destruct (in_dec (list_eq_dec ascii_dec) k (union (keys t1) (keys t2)))
      as [I|N].
    + apply H, I.
    + rewrite union_In in N.
      assert (E1 : get t1 k = None) by (apply get_None_keys; tauto).
      rewrite E1; reflexivity.
  - intros H k _; apply H.
Qed.

Lemma accepts_same_prefix (pattern instance : TaggedUrn.t) :
  TaggedUrn.prefix instance = TaggedUrn.prefix pattern ->
  TaggedUrn.accepts pattern instance
  = Ok (TaggedUrn._check_match_loop
          (union (keys (TaggedUrn.tags instance))
                 (keys (TaggedUrn.tags pattern)))
          (TaggedUrn.tags instance) (TaggedUrn.tags pattern)).
Proof.
  intros E; unfold TaggedUrn.accepts, TaggedUrn._check_match.
  rewrite E, str_eqb_refl; reflexivity.
Qed.

Lemma compatible_same_prefix (a b : TaggedUrn.t) :
  TaggedUrn.prefix a = TaggedUrn.prefix b ->
  TaggedUrn.is_compatible_with a b
  = Ok (TaggedUrn._compatible_loop
          (union (keys (TaggedUrn.tags a)) (keys (TaggedUrn.tags b)))
          (TaggedUrn.tags a) (TaggedUrn.tags b)).
Proof.
  intros E; unfold TaggedUrn.is_compatible_with.
  rewrite E, str_eqb_refl; reflexivity.
Qed.

Lemma forallb_pointwise (A : Type) (f g : A -> bool) (l : list A) :
  (forall x, f x = g x) -> forallb f l = forallb g l.
Proof.
  intros H; induction l as [|x l IH]; simpl; [reflexivity|].
  rewrite H, IH; reflexivity.
Qed.

Lemma Ok_true_inv (b : bool) : @Ok bool b = Ok true <-> b = true.
Proof. split; [intros E; inversion E; reflexivity | intros ->; reflexivity]. Qed.

(** C3, as the claim states it, fails: two patterns asking for different
    exact values of a key are not compatible, yet both accept the instance
    that leaves that key unspecified. *)
Lemma C3_counterexample :
  let a := TaggedUrn.mk (lit "cap") [(lit "k", lit "x")] in
  let b := TaggedUrn.mk (lit "cap") [(lit "k", lit "y")] in
  let i := TaggedUrn.mk (lit "cap") [(lit "k", lit "?")] in
  TaggedUrn.prefix a = TaggedUrn.prefix b
  /\ TaggedUrn.prefix i = TaggedUrn.prefix a
  /\ TaggedUrn.accepts a i = Ok true
  /\ TaggedUrn.accepts b i = Ok true
  /\ TaggedUrn.is_compatible_with a b = Ok false.
Proof. repeat split. Qed.

(** C3 (amended). For two URNs with the same prefix,
    [is_compatible_with] is symmetric, and it is true iff some instance
    with that prefix, none of whose tags is [?] or [*], is accepted by
    both; such an instance can be taken with distinct keys drawn from the
    two patterns. *)
Theorem C3_compatible_iff_common_concrete_instance (a b : TaggedUrn.t)
    (Hprefix : TaggedUrn.prefix a = TaggedUrn.prefix b) :
  TaggedUrn.is_compatible_with a b = TaggedUrn.is_compatible_with b a
  /\ (TaggedUrn.is_compatible_with a b = Ok true ->
      exists i,
        TaggedUrn.prefix i = TaggedUrn.prefix a
        /\ NoDup (keys (TaggedUrn.tags i))
        /\ incl (keys (TaggedUrn.tags i))
                (keys (TaggedUrn.tags a) ++ keys (TaggedUrn.tags b))
        /\ Spec.concrete (TaggedUrn.tags i)
        /\ TaggedUrn.accepts a i = Ok true
        /\ TaggedUrn.accepts b i = Ok true)
  /\ (forall i,
        TaggedUrn.prefix i = TaggedUrn.prefix a ->
        Spec.concrete (TaggedUrn.tags i) ->
        TaggedUrn.accepts a i = Ok true ->
        TaggedUrn.accepts b i = Ok true ->
        TaggedUrn.is_compatible_with a b = Ok true).
Proof.
  destruct a as [pa ta], b as [pb tb]; simpl in *; subst pb.
  split; [|split].
  - rewrite !compatible_same_prefix by reflexivity; simpl; f_equal.
    rewrite !compatible_loop_forallb.
    erewrite forallb_same_elements with (l2 := union (keys tb) (keys ta)).
    + apply forallb_pointwise; intros k; apply values_compatible_sym.
    + intros k; rewrite !union_In; tauto.
  - rewrite compatible_same_prefix by reflexivity; simpl.
    rewrite Ok_true_inv, compatible_all_keys; intros Hc.
    exists (TaggedUrn.mk pa (common_tags ta tb (union (keys ta) (keys tb)))).
    simpl; split; [reflexivity|].
    split; [apply common_tags_NoDup, set_of_NoDup|].
    split; [intros k Hk; apply common_tags_keys in Hk;
            apply union_In in Hk; apply in_or_app; exact Hk|].
    split; [apply common_tags_concrete|].
    assert (Hg : forall k,
               get (common_tags ta tb (union (keys ta) (keys tb))) k
               = common (get ta k) (get tb k)).
    { intros k; rewrite common_tags_get.
      destruct (existsb (str_eqb k) (union (keys ta) (keys tb))) eqn:E;
        [reflexivity|].
      assert (N : ~ In k (union (keys ta) (keys tb)))
        by (rewrite <- existsb_str_eqb_In, E; discriminate).
      rewrite union_In in N.
      assert (E1 : get ta k = None) by (apply get_None_keys; tauto).
      assert (E2 : get tb k = None) by (apply get_None_keys; tauto).
      rewrite E1, E2; reflexivity. }
    rewrite !accepts_same_prefix by reflexivity; simpl.
    rewrite !Ok_true_inv, !check_match_all_keys.
    split; intros k; rewrite Hg; apply common_accepted, Hc.
  - intros [pi ti]; simpl; intros -> Hcon.
    rewrite !accepts_same_prefix, compatible_same_prefix by reflexivity.
    simpl; rewrite !Ok_true_inv, !check_match_all_keys, compatible_all_keys.
    intros Ha Hb k.
    apply (@accepted_by_both_compatible (get ti k)); auto.
    intros x Hx; apply Hcon, (get_In_values _ _ Hx).
Qed.

Lemma C3_compatible_iff_common_concrete_instance_witness :
  let a := TaggedUrn.mk (lit "cap")
             [(lit "op", lit "generate"); (lit "ext", lit "*")] in
  let b := TaggedUrn.mk (lit "cap")
             [(lit "ext", lit "pdf"); (lit "dry", lit "!")] in
  TaggedUrn.is_compatible_with b a = Ok true
  /\ exists i,
       Spec.concrete (TaggedUrn.tags i)
       /\ TaggedUrn.accepts a i = Ok true
       /\ TaggedUrn.accepts b i = Ok true.
Proof.
  intros a b.
  destruct (@C3_compatible_iff_common_concrete_instance a b eq_refl)
    as [Hsym [Hex _]].
  split; [rewrite <- Hsym; reflexivity|].
  destruct (Hex eq_refl) as [i [_ [_ [_ [Hc [Ha Hb]]]]]].
  exists i; auto.
Defined.

(** ** Ordering of strings and sorting *)

Lemma code_inj (x y : ascii) : code x = code y -> x = y.
Proof.
  unfold code; intros E.
  rewrite <- (ascii_N_embedding x), <- (ascii_N_embedding y), E; reflexivity.
Qed.

Lemma str_ltb_irrefl (a : str) : str_ltb a a = false.
Proof.
  induction a as [|x a IH]; simpl; [reflexivity|].
  rewrite N.ltb_irrefl, N.eqb_refl, IH; reflexivity.
Qed.

Lemma str_ltb_trans (a b c : str) :
  str_ltb a b = true -> str_ltb b c = true -> str_ltb a c = true.
Proof.
  revert b c; induction a as [|x a IH]; intros [|y b] [|z c]; simpl;
    try discriminate; try reflexivity.
  rewrite !orb_true_iff, !andb_true_iff, !N.ltb_lt, !N.eqb_eq.
  intros [L1|[E1 H1]] [L2|[E2 H2]].
  - left; lia.
  - left; lia.
  - left; lia.
  - right; split; [lia | eapply IH; eassumption].
Qed.

Lemma str_ltb_trichotomy (a b : str) :
  str_ltb a b = true \/ a = b \/ str_ltb b a = true.
Proof.
  revert b; induction a as [|x a IH]; intros [|y b]; simpl; auto.
  rewrite !orb_true_iff, !andb_true_iff, !N.ltb_lt, !N.eqb_eq.
  destruct (N.lt_trichotomy (code x) (code y)) as [L|[E|L]]; auto.
  apply code_inj in E; subst.
  destruct (IH b) as [H|[->|H]]; auto.
Qed.

Lemma str_leb_iff (a b : str) :
  str_leb a b = true <-> str_ltb a b = true \/ a = b.
Proof. unfold str_leb; rewrite orb_true_iff, str_eqb_eq; tauto. Qed.

Lemma str_leb_trans (a b c : str) :
  str_leb a b = true -> str_leb b c = true -> str_leb a c = true.
Proof.
  rewrite !str_leb_iff; intros [H1| ->] [H2| ->]; auto.
  left; eapply str_ltb_trans; eassumption.
Qed.

Lemma str_leb_antisym (a b : str) :
  str_leb a b = true -> str_leb b a = true -> a = b.
Proof.
  rewrite !str_leb_iff; intros [H1| ->] [H2|E]; auto.
  pose proof (str_ltb_trans _ _ _ H1 H2) as C.
  rewrite str_ltb_irrefl in C; discriminate.
Qed.

Lemma str_leb_total (a b : str) : str_leb a b = true \/ str_leb b a = true.
Proof.
  rewrite !str_leb_iff; destruct (str_ltb_trichotomy a b) as [H|[->|H]]; auto.
Qed.

Lemma item_leb_iff (a b : str * str) :
  item_leb a b = true
  <-> str_ltb (fst a) (fst b) = true
      \/ (fst a = fst b /\ str_leb (snd a) (snd b) = true).
Proof.
  unfold item_leb; rewrite orb_true_iff, andb_true_iff, str_eqb_eq; tauto.
Qed.

Lemma item_leb_total (a b : str * str) :
  item_leb a b = true \/ item_leb b a = true.
Proof.
  rewrite !item_leb_iff.
  destruct (str_ltb_trichotomy (fst a) (fst b)) as [H|[E|H]]; auto.
  destruct (str_leb_total (snd a) (snd b)); auto.
Qed.

Lemma item_leb_trans (a b c : str * str) :
  item_leb a b = true -> item_leb b c = true -> item_leb a c = true.
Proof.
  rewrite !item_leb_iff; intros [H1|[E1 L1]] [H2|[E2 L2]].
  - left; eapply str_ltb_trans; eassumption.
  - left; rewrite <- E2; assumption.
  - left; rewrite E1; assumption.
  - right; split; [congruence | eapply str_leb_trans; eassumption].
Qed.

Lemma item_leb_antisym (a b : str * str) :
  item_leb a b = true -> item_leb b a = true -> a = b.
Proof.
  rewrite !item_leb_iff; destruct a as [k1 v1], b as [k2 v2]; simpl.
  intros [H1|[E1 L1]] [H2|[E2 L2]].
  - pose proof (str_ltb_trans _ _ _ H1 H2) as C.
    rewrite str_ltb_irrefl in C; discriminate.
  - subst; rewrite str_ltb_irrefl in H1; discriminate.
  - subst; rewrite str_ltb_irrefl in H2; discriminate.
  - subst; f_equal; apply str_leb_antisym; assumption.
Qed.

Lemma item_leb_key (a b : str * str) :
  item_leb a b = true -> str_leb (fst a) (fst b) = true.
Proof.
  intros H; apply item_leb_iff in H; apply str_leb_iff.
  destruct H as [H|[E _]]; auto.
Qed.

Lemma insert_sorted_perm (x : str * str) (l : list (str * str)) :
  Permutation (insert_sorted x l) (x :: l).
Proof.
  induction l as [|y l IH]; simpl; [reflexivity|].
  destruct (item_leb x y); [reflexivity|].
  rewrite IH; apply perm_swap.
Qed.

Lemma sorted_perm (l : list (str * str)) : Permutation (sorted l) l.
Proof.
  induction l as [|x l IH]; simpl; [reflexivity|].
  rewrite insert_sorted_perm, IH; reflexivity.
Qed.

Lemma insert_sorted_sorted (x : str * str) (l : list (str * str)) :
  items_sorted l -> items_sorted (insert_sorted x l).
Proof.
  unfold items_sorted; induction l as [|y l IH]; simpl; intros H.
  - repeat constructor.
  - inversion H as [|? ? Hs Hf]; subst.
    destruct (item_leb x y) eqn:E.
    + constructor; [assumption|]. constructor; [assumption|].
      eapply Forall_impl; [|exact Hf]; intros z Hz.
      eapply item_leb_trans; eassumption.
    + constructor; [apply IH, Hs|].
      eapply Permutation_Forall;
        [symmetry; apply insert_sorted_perm|].
      constructor; [|assumption].
      destruct (item_leb_total x y); congruence.
Qed.

Lemma sorted_sorted (l : list (str * str)) : items_sorted (sorted l).
Proof.
  induction l as [|x l IH]; simpl;
    [constructor | apply insert_sorted_sorted, IH].
Qed.

(** A sorted arrangement of given items is unique. *)
Lemma items_sorted_unique (l1 : list (str * str)) : forall l2,
  items_sorted l1 -> items_sorted l2 -> Permutation l1 l2 -> l1 = l2.
Proof.
  unfold items_sorted; induction l1 as [|x l1 IH]; intros l2 S1 S2 P.
  - apply Permutation_nil in P; subst; reflexivity.
  - destruct l2 as [|y l2];
      [symmetry in P; apply Permutation_nil in P; discriminate|].
    inversion S1 as [|? ? S1' F1]; inversion S2 as [|? ? S2' F2]; subst.
    assert (E : x = y).
    { assert (I1 : In y (x :: l1))
        by (eapply Permutation_in; [symmetry; exact P | left; reflexivity]).
      assert (I2 : In x (y :: l2))
        by (eapply Permutation_in; [exact P | left; reflexivity]).
      rewrite Forall_forall in F1, F2.
      destruct I1 as [E|I1]; [assumption|].
      destruct I2 as [E|I2]; [congruence|].
      apply item_leb_antisym; [apply F1, I1 | apply F2, I2]. }
    subst y; f_equal; apply IH; auto.
    eapply Permutation_cons_inv; exact P.
Qed.

Lemma sorted_of_perm (l1 l2 : list (str * str)) :
  Permutation l1 l2 -> sorted l1 = sorted l2.
Proof.
  intros P; apply items_sorted_unique; try apply sorted_sorted.
  rewrite !sorted_perm; exact P.
Qed.

Lemma perm_of_sorted_eq (l1 l2 : list (str * str)) :
  sorted l1 = sorted l2 -> Permutation l1 l2.
Proof.
  intros E; rewrite <- (sorted_perm l1), E; apply sorted_perm.
Qed.

Lemma sorted_fixed (l : list (str * str)) : items_sorted l -> sorted l = l.
Proof.
  intros H; apply items_sorted_unique;
    [apply sorted_sorted | exact H | apply sorted_perm].
Qed.

Lemma items_sorted_ascending (l : list (str * str)) :
  items_sorted l -> Spec.ascending_keys l.
Proof.
  unfold items_sorted, Spec.ascending_keys; induction 1 as [|x l S IH F];
    simpl; constructor; [assumption|].
  rewrite Forall_map; eapply Forall_impl; [|exact F].
  intros y; apply item_leb_key.
Qed.

(** ** The serializer *)

Lemma char_in_In (c : ascii) (l : list ascii) :
  char_in c l = true <-> In c l.
Proof.
  unfold char_in; rewrite existsb_exists; split.
  - intros [x [Hx E]]; apply Ascii.eqb_eq in E; subst; assumption.
  - intros H; exists c; split; [assumption | apply Ascii.eqb_refl].
Qed.

Lemma needs_quoting_iff (v : str) :
  TaggedUrn._needs_quoting v = true <-> Spec.needs_quoting v.
Proof.
  unfold TaggedUrn._needs_quoting, Spec.needs_quoting.
  rewrite existsb_exists; split; intros [c [Hc H]]; exists c;
    (split; [assumption|]).
  - apply orb_true_iff in H; destruct H as [H|H]; [|tauto].
    apply char_in_In in H; simpl in H; intuition (subst; auto).
  - apply orb_true_iff; rewrite char_in_In; simpl; intuition (subst; auto).
Qed.

Lemma quote_value_escaped (v : str) :
  TaggedUrn._quote_value v = [dquote] ++ Spec.escaped v ++ [dquote].
Proof.
  unfold TaggedUrn._quote_value; do 2 f_equal.
  induction v as [|c v IH]; [reflexivity|].
  cbn [flat_map Spec.escaped]; rewrite IH; unfold char_in; cbn [existsb].
  destruct (Ascii.eqb_spec c dquote) as [->|N1]; [reflexivity|].
  destruct (Ascii.eqb_spec c backslash) as [->|N2]; reflexivity.
Qed.

Lemma tag_to_string_emitted (k v : str) :
  Spec.emitted k v (TaggedUrn.tag_to_string (k, v)).
Proof.
  unfold TaggedUrn.tag_to_string.
  destruct (str_eqb_spec v (lit "*")) as [->|N1]; [constructor|].
  destruct (str_eqb_spec v (lit "?")) as [->|N2]; [constructor|].
  destruct (str_eqb_spec v (lit "!")) as [->|N3]; [constructor|].
  assert (E : Spec.tag_value v = Spec.Exact v).
  { unfold Spec.tag_value. apply str_eqb_neq in N1, N2, N3.
    rewrite N1, N2, N3; reflexivity. }
  destruct (TaggedUrn._needs_quoting v) eqn:Q.
  - rewrite quote_value_escaped; apply Spec.emit_quoted;
      [assumption | apply needs_quoting_iff, Q].
  - apply Spec.emit_plain; [assumption|].
    rewrite <- needs_quoting_iff, Q; discriminate.
Qed.

Lemma join_ends_with_last (sep : str) (parts : list str) (p : str) :
  exists front, join sep (parts ++ [p]) = front ++ p.
Proof.
  induction parts as [|q parts [front IH]].
  - exists []; reflexivity.
  - destruct parts as [|q' parts]; simpl in *.
    + exists (q ++ sep); rewrite <- app_assoc; reflexivity.
    + exists (q ++ sep ++ front); rewrite IH, <- !app_assoc; reflexivity.
Qed.

(** C6. [to_string] emits the prefix, a colon, and the tags in ascending
    order of key joined by semicolons, the text ending with the last tag;
    each tag is emitted as the specification prescribes for its value, with
    quoting exactly when the value needs it; two URNs with the same prefix
    whose tags are stored in different orders serialize to the same
    text. *)
Theorem C6_to_string_canonical (u : TaggedUrn.t) :
  (exists items texts,
     Permutation items (TaggedUrn.tags u)
     /\ Spec.ascending_keys items
     /\ Forall2 (fun kv text => Spec.emitted (fst kv) (snd kv) text)
                items texts
     /\ TaggedUrn.to_string u
        = TaggedUrn.prefix u ++ lit ":" ++ join (lit ";") texts
     /\ (forall front last, texts = front ++ [last] ->
           exists head, TaggedUrn.to_string u = head ++ last))
  /\ (forall u',
        TaggedUrn.prefix u' = TaggedUrn.prefix u ->
        Permutation (TaggedUrn.tags u') (TaggedUrn.tags u) ->
        TaggedUrn.to_string u' = TaggedUrn.to_string u).
Proof.
  split.
  - exists (sorted (TaggedUrn.tags u)),
      (map TaggedUrn.tag_to_string (sorted (TaggedUrn.tags u))).
    split; [apply sorted_perm|].
    split; [apply items_sorted_ascending, sorted_sorted|].
    split; [|split; [reflexivity|]].
    + induction (sorted (TaggedUrn.tags u)) as [|[k v] l IH]; simpl;
        constructor; [apply tag_to_string_emitted | exact IH].
    + intros front last E.
      unfold TaggedUrn.to_string, TaggedUrn.tags_to_string; rewrite E.
      destruct (join_ends_with_last (lit ";") front last) as [h Hh].
      exists (TaggedUrn.prefix u ++ lit ":" ++ h).
      rewrite Hh, <- !app_assoc; reflexivity.
  - intros u' Ep P.
    unfold TaggedUrn.to_string, TaggedUrn.tags_to_string.
    rewrite Ep, (sorted_of_perm P); reflexivity.
Qed.

Lemma C6_to_string_canonical_witness :
  let u := TaggedUrn.mk (lit "cap")
             [(lit "op", lit "Generate"); (lit "ext", lit "*");
              (lit "dry", lit "!"); (lit "any", lit "?");
              (lit "fmt", lit "a4")] in
  let u' := TaggedUrn.mk (lit "cap")
              [(lit "fmt", lit "a4"); (lit "any", lit "?");
               (lit "op", lit "Generate"); (lit "dry", lit "!");
               (lit "ext", lit "*")] in
  TaggedUrn.to_string u
  = lit "cap:any=?;dry=!;ext;fmt=a4;op=" ++ [dquote] ++ lit "Generate"
    ++ [dquote]
  /\ TaggedUrn.to_string u' = TaggedUrn.to_string u.
Proof.
  intros u u'; split; [reflexivity|].
  destruct (C6_to_string_canonical u) as [_ H].
  apply H; [reflexivity|].
  apply perm_of_sorted_eq; reflexivity.
Defined.

(** ** The parser's loop *)

Lemma scan_app (l1 l2 : list ascii) : forall cu,
  TaggedUrn.scan cu (l1 ++ l2)
  = (cu' <- TaggedUrn.scan cu l1 ;; TaggedUrn.scan cu' l2).
Proof.
  induction l1 as [|c l1 IH]; intros cu; simpl; [reflexivity|].
  destruct (TaggedUrn.step cu c); simpl; [apply IH | reflexivity].
Qed.

Lemma finish_tag_Ok (tags : dict) (key value : str) (tags' : dict) :
  TaggedUrn._finish_tag tags key value = Ok tags' ->
  key <> [] /\ value <> [] /\ mem key tags = false
  /\ TaggedUrn._is_purely_numeric key = false
  /\ tags' = set tags key value.
Proof.
  unfold TaggedUrn._finish_tag.
  destruct key; simpl; [discriminate|].
  destruct value; simpl; [discriminate|].
  destruct (mem _ tags); [discriminate|].
  destruct (TaggedUrn._is_purely_numeric _); [discriminate|].
  intros E; inversion E; repeat split; discriminate.
Qed.

Lemma finish_tag_fresh (tags : dict) (key value : str) :
  key <> [] -> value <> [] -> mem key tags = false ->
  TaggedUrn._is_purely_numeric key = false ->
  TaggedUrn._finish_tag tags key value = Ok (tags ++ [(key, value)]).
Proof.
  intros Hk Hv Hm Hn; unfold TaggedUrn._finish_tag.
  destruct key; [congruence|]; destruct value; [congruence|]; simpl.
  rewrite Hm, Hn, set_fresh; [reflexivity|].
  rewrite <- mem_In_keys, Hm; discriminate.
Qed.

(** A key character is neither a delimiter nor whitespace. *)
Lemma valid_key_char_plain : forall c,
  TaggedUrn._is_valid_key_char c = true ->
  Ascii.eqb c ";" = false /\ Ascii.eqb c "=" = false /\ isspace c = false.
Proof. char_fact. Qed.

(** Nor is a character of an unquoted value. *)
Lemma valid_value_char_plain : forall c,
  TaggedUrn._is_valid_unquoted_value_char c = true ->
  Ascii.eqb c ";" = false /\ Ascii.eqb c dquote = false
  /\ isspace c = false.
Proof. char_fact. Qed.

(** Reading the rest of a key. *)
Lemma scan_in_key (k : str) : forall tags acc value rest,
  forallb TaggedUrn._is_valid_key_char k = true ->
  TaggedUrn.scan (TaggedUrn.Cursor IN_KEY tags acc value) (k ++ rest)
  = TaggedUrn.scan (TaggedUrn.Cursor IN_KEY tags (acc ++ lower k) value) rest.
Proof.
  induction k as [|c k IH]; intros tags acc value rest H; simpl.
  - rewrite app_nil_r; reflexivity.
  - simpl in H; apply andb_true_iff in H; destruct H as [Hc Hk].
    destruct (valid_key_char_plain c Hc) as [E1 [E2 _]].
    rewrite E1, E2, Hc; simpl.
    rewrite IH by assumption; rewrite <- app_assoc; reflexivity.
Qed.

(** Reading a key from its first character. *)
Lemma scan_key (k : str) (tags : dict) (rest : str) :
  k <> [] -> forallb TaggedUrn._is_valid_key_char k = true ->
  TaggedUrn.scan (TaggedUrn.Cursor EXPECTING_KEY tags [] []) (k ++ rest)
  = TaggedUrn.scan (TaggedUrn.Cursor IN_KEY tags (lower k) []) rest.
Proof.
  destruct k as [|c k]; [congruence|]; intros _ H; simpl.
  simpl in H; apply andb_true_iff in H; destruct H as [Hc Hk].
  destruct (valid_key_char_plain c Hc) as [E1 _].
  rewrite E1, Hc; simpl. apply (scan_in_key k tags [lower_char c] [] rest Hk).
Qed.

(** Reading the rest of an unquoted value. *)
Lemma scan_unquoted (v : str) : forall tags key acc rest,
  forallb TaggedUrn._is_valid_unquoted_value_char v = true ->
  TaggedUrn.scan (TaggedUrn.Cursor IN_UNQUOTED_VALUE tags key acc) (v ++ rest)
  = TaggedUrn.scan
      (TaggedUrn.Cursor IN_UNQUOTED_VALUE tags key (acc ++ lower v)) rest.
Proof.
  induction v as [|c v IH]; intros tags key acc rest H; simpl.
  - rewrite app_nil_r; reflexivity.
  - simpl in H; apply andb_true_iff in H; destruct H as [Hc Hv].
    destruct (valid_value_char_plain c Hc) as [E1 _].
    rewrite E1, Hc; simpl.
    rewrite IH by assumption; rewrite <- app_assoc; reflexivity.
Qed.

(** Reading escaped text inside quotes gives the text back. *)
Lemma scan_quoted (v : str) : forall tags key acc rest,
  TaggedUrn.scan (TaggedUrn.Cursor IN_QUOTED_VALUE tags key acc)
    (Spec.escaped v ++ rest)
  = TaggedUrn.scan (TaggedUrn.Cursor IN_QUOTED_VALUE tags key (acc ++ v)) rest.
Proof.
  induction v as [|c v IH]; intros tags key acc rest; simpl.
  - rewrite app_nil_r; reflexivity.
  - destruct (Ascii.eqb_spec c dquote) as [->|N1]; simpl.
    + rewrite IH, <- app_assoc; reflexivity.
    + destruct (Ascii.eqb_spec c backslash) as [->|N2]; simpl.
      * rewrite IH, <- app_assoc; reflexivity.
      * apply Ascii.eqb_neq in N1, N2; rewrite N1, N2; simpl.
        rewrite IH, <- app_assoc; reflexivity.
Qed.

(** ** Reading one tag *)


#[local] Arguments TaggedUrn._finish_tag : simpl never.

Ltac finish_cases :=
  match goal with
  | |- context [TaggedUrn._finish_tag ?a ?b ?c] =>
      destruct (TaggedUrn._finish_tag a b c); try reflexivity
  end.

Lemma step_in_key_equals (tags : dict) (k value : str) :
  k <> [] ->
  TaggedUrn.step (TaggedUrn.Cursor IN_KEY tags k value) "="
  = Ok (TaggedUrn.Cursor EXPECTING_VALUE tags k value).
Proof. destruct k; [congruence | reflexivity]. Qed.

(** Reading what follows a key, up to the semicolon or the end of input,
    finishes the tag with the value denoted. *)
Lemma scan_value_text (val v : str) :
  Wire.value_text val v ->
  forall tags k, k <> [] ->
    (forall rest,
        TaggedUrn.scan (TaggedUrn.Cursor IN_KEY tags k [])
          (val ++ ";"%char :: rest)
        = (tags' <- TaggedUrn._finish_tag tags k v ;;
           TaggedUrn.scan (TaggedUrn.Cursor EXPECTING_KEY tags' [] []) rest))
    /\ (cu <- TaggedUrn.scan (TaggedUrn.Cursor IN_KEY tags k []) val ;;
        TaggedUrn.at_end cu)
       = TaggedUrn._finish_tag tags k v.
Proof.
  intros [ | u Hne Hu | u ] tags k Hk.
  - destruct k as [|c k]; [congruence|]; split.
    + intros rest; simpl; finish_cases.
    + simpl; finish_cases.
  - destruct u as [|c u]; [congruence|].
    simpl in Hu; apply andb_true_iff in Hu; destruct Hu as [Hc Hu].
    destruct (valid_value_char_plain c Hc) as [E1 [E2 _]].
    split; [intros rest|].
    + cbn [app TaggedUrn.scan]; rewrite step_in_key_equals by assumption.
      cbn [bind TaggedUrn.scan TaggedUrn.step].
      rewrite E1, E2, Hc; cbn [bind app].
      rewrite (scan_unquoted u tags k [lower_char c] (";"%char :: rest) Hu).
      simpl; finish_cases.
    + cbn [TaggedUrn.scan]; rewrite step_in_key_equals by assumption.
      cbn [bind TaggedUrn.scan TaggedUrn.step].
      rewrite E1, E2, Hc; cbn [bind app].
      rewrite <- (app_nil_r u).
      rewrite (scan_unquoted u tags k [lower_char c] [] Hu).
      rewrite app_nil_r; reflexivity.
  - split; [intros rest|].
    + cbn [app TaggedUrn.scan]; rewrite step_in_key_equals by assumption.
      cbn [bind TaggedUrn.scan TaggedUrn.step].
      rewrite Ascii.eqb_refl; cbn [bind].
      rewrite <- app_assoc, scan_quoted; simpl; finish_cases.
    + cbn [TaggedUrn.scan]; rewrite step_in_key_equals by assumption.
      cbn [bind TaggedUrn.scan TaggedUrn.step].
      rewrite Ascii.eqb_refl; cbn [bind].
      rewrite scan_quoted; reflexivity.
Qed.

(** Reading one whole tag. *)
Lemma scan_tag (k val v : str) (tags : dict) :
  Wire.key_text k -> Wire.value_text val v ->
  (forall rest,
      TaggedUrn.scan (TaggedUrn.Cursor EXPECTING_KEY tags [] [])
        (k ++ val ++ ";"%char :: rest)
      = (tags' <- TaggedUrn._finish_tag tags (lower k) v ;;
         TaggedUrn.scan (TaggedUrn.Cursor EXPECTING_KEY tags' [] []) rest))
  /\ (cu <- TaggedUrn.scan (TaggedUrn.Cursor EXPECTING_KEY tags [] [])
              (k ++ val) ;;
      TaggedUrn.at_end cu)
     = TaggedUrn._finish_tag tags (lower k) v.
Proof.
  intros [Hne Hk] Hv.
  assert (Hl : lower k <> []) by (destruct k; [congruence | discriminate]).
  destruct (scan_value_text Hv tags Hl) as [H1 H2].
  split; [intros rest|]; rewrite scan_key by assumption; auto.
Qed.

(** ** The checks before the loop *)

Lemma find_colon (p body : str) :
  ~ In ":"%char p -> find ":" (p ++ ":"%char :: body) = Some (List.length p).
Proof.
  induction p as [|c p IH]; simpl; intros H; [reflexivity|].
  destruct (Ascii.eqb_spec c ":") as [->|N]; [exfalso; auto|].
  rewrite IH by tauto; reflexivity.
Qed.

Lemma find_absent (s : str) : ~ In ":"%char s -> find ":" s = None.
Proof.
  induction s as [|c s IH]; simpl; intros H; [reflexivity|].
  destruct (Ascii.eqb_spec c ":") as [->|N]; [exfalso; auto|].
  rewrite IH by tauto; reflexivity.
Qed.

Lemma firstn_prefix (A : Type) (p rest : list A) :
  firstn (List.length p) (p ++ rest) = p.
Proof. induction p; simpl; [destruct rest|]; congruence. Qed.

Lemma skipn_prefix (A : Type) (p rest : list A) (x : A) :
  skipn (List.length p + 1) (p ++ x :: rest) = rest.
Proof. induction p; simpl; auto. Qed.

(** Past the header checks, [from_string] is the loop, the end-of-input
    block and the constructor. *)
Lemma from_string_body (p body : str) :
  Wire.header p body -> body <> [] -> body <> lit ";" ->
  TaggedUrn.from_string (p ++ ":"%char :: body)
  = (cu <- TaggedUrn.scan TaggedUrn.start body ;;
     tags <- TaggedUrn.at_end cu ;;
     Ok (TaggedUrn.__init__ (lower p) tags)).
Proof.
  intros [Hp [Hc Hs]] Hb1 Hb2; unfold TaggedUrn.from_string.
  rewrite Hs, str_eqb_refl; simpl negb; cbv iota.
  rewrite find_colon by assumption.
  destruct p as [|c p]; [congruence|].
  change (is_empty ((c :: p) ++ ":"%char :: body)) with false; cbv iota.
  change (List.length (c :: p)) with (S (List.length p)).
  cbv iota beta.
  change (S (List.length p)) with (List.length (c :: p)).
  rewrite firstn_prefix, skipn_prefix.
  destruct body as [|b body]; [congruence|].
  apply str_eqb_neq in Hb2; rewrite Hb2; reflexivity.
Qed.

Lemma from_string_no_tags (p : str) :
  Wire.header p [] ->
  TaggedUrn.from_string (p ++ [":"%char]) = Ok (TaggedUrn.__init__ (lower p) []).
Proof.
  intros [Hp [Hc Hs]]; unfold TaggedUrn.from_string.
  rewrite Hs, str_eqb_refl; simpl negb; cbv iota.
  rewrite find_colon by assumption.
  destruct p as [|c p]; [congruence|].
  change (is_empty ((c :: p) ++ [":"%char])) with false; cbv iota.
  change (List.length (c :: p)) with (S (List.length p)).
  cbv iota beta.
  change (S (List.length p)) with (List.length (c :: p)).
  rewrite firstn_prefix, skipn_prefix; reflexivity.
Qed.

(** ** What the loop keeps true of the tags read so far *)

Lemma step_tags (cu cu' : TaggedUrn.cursor) (c : ascii) :
  TaggedUrn.step cu c = Ok cu' ->
  TaggedUrn.cur_tags cu' = TaggedUrn.cur_tags cu
  \/ exists key value,
       TaggedUrn._finish_tag (TaggedUrn.cur_tags cu) key value
       = Ok (TaggedUrn.cur_tags cu').
Proof.
  destruct cu as [st tags key value]; destruct st; simpl;
    repeat match goal with
           | |- context [if ?b then _ else _] => destruct b
           end;
    try discriminate;
    try (intros E; inversion E; subst; simpl; left; reflexivity);
    match goal with
    | |- context [TaggedUrn._finish_tag ?a ?b ?c] =>
        destruct (TaggedUrn._finish_tag a b c) eqn:F; simpl;
        [intros E; inversion E; subst; simpl; right; eauto | discriminate]
    end.
Qed.

Lemma scan_keeps (P : dict -> Prop) :
  (forall tags key value tags',
      P tags -> TaggedUrn._finish_tag tags key value = Ok tags' -> P tags') ->
  forall l cu cu',
    P (TaggedUrn.cur_tags cu) -> TaggedUrn.scan cu l = Ok cu' ->
    P (TaggedUrn.cur_tags cu').
Proof.
  intros HP; induction l as [|c l IH]; intros cu cu' H0 E; simpl in E.
  - inversion E; subst; assumption.
  - destruct (TaggedUrn.step cu c) as [cu1|] eqn:S; simpl in E;
      [|discriminate].
    apply (IH cu1 cu'); [|assumption].
    destruct (step_tags _ _ S) as [->|[key [value F]]];
      [assumption | eapply HP; eassumption].
Qed.

Lemma accepted_no_numeric_key (pre : str) (tags : dict) (k : str) :
  Wire.accepted pre tags -> TaggedUrn._is_purely_numeric k = true ->
  mem k tags = false.
Proof.
  intros A N.
  assert (H : forall x, In x (keys tags) ->
                        TaggedUrn._is_purely_numeric x = false).
  { apply (scan_keeps
             (fun t => forall x, In x (keys t) ->
                                 TaggedUrn._is_purely_numeric x = false))
      with (l := pre) (cu := TaggedUrn.start)
           (cu' := TaggedUrn.Cursor EXPECTING_KEY tags [] []);
      [| intros x [] | exact A].
    intros t key value t' Ht F x Hx.
    apply finish_tag_Ok in F; destruct F as [_ [_ [_ [Hn ->]]]].
    apply keys_set_In in Hx; destruct Hx as [->|Hx]; auto. }
  destruct (mem k tags) eqn:M; [|reflexivity].
  apply mem_In_keys in M; rewrite (H k M) in N; discriminate.
Qed.

Lemma scan_keeps_key (l : str) (cu cu' : TaggedUrn.cursor) (k : str) :
  mem k (TaggedUrn.cur_tags cu) = true -> TaggedUrn.scan cu l = Ok cu' ->
  mem k (TaggedUrn.cur_tags cu') = true.
Proof.
  apply (scan_keeps (fun t => mem k t = true)).
  intros t key value t' Ht F.
  apply finish_tag_Ok in F; destruct F as [_ [_ [_ [_ ->]]]].
  apply mem_In_keys, keys_set_In; right; apply mem_In_keys, Ht.
Qed.

(** ** Malformed input *)

Lemma bind_assoc (A B C : Type) (m : result A) (f : A -> result B)
    (g : B -> result C) :
  (y <- (x <- m ;; f x) ;; g y) = (x <- m ;; y <- f x ;; g y).
Proof. destruct m; reflexivity. Qed.

Lemma body_with_key (pre k rest : str) :
  Wire.key_text k -> pre ++ k ++ rest <> [] /\ pre ++ k ++ rest <> lit ";".
Proof.
  intros [Hne Hk]; destruct k as [|c k]; [congruence|].
  simpl in Hk; apply andb_true_iff in Hk; destruct Hk as [Hc _].
  destruct (valid_key_char_plain c Hc) as [E _].
  apply Ascii.eqb_neq in E.
  split; destruct pre as [|x [|y pre]]; simpl; try discriminate.
  intros H; inversion H; congruence.
Qed.

Lemma from_string_after (p pre rest : str) (tags : dict) :
  Wire.header p (pre ++ rest) -> Wire.accepted pre tags ->
  pre ++ rest <> [] -> pre ++ rest <> lit ";" ->
  TaggedUrn.from_string (p ++ ":"%char :: pre ++ rest)
  = (cu <- TaggedUrn.scan (TaggedUrn.Cursor EXPECTING_KEY tags [] []) rest ;;
     tags' <- TaggedUrn.at_end cu ;;
     Ok (TaggedUrn.__init__ (lower p) tags')).
Proof.
  intros H A N1 N2; rewrite from_string_body by assumption.
  rewrite scan_app; unfold Wire.accepted in A; rewrite A; reflexivity.
Qed.

(** A tag on which [_finish_tag] raises makes the parse raise the same
    error. *)
Lemma from_string_tag_raises (p pre k val v follow : str) (tags : dict)
    (e : TaggedUrnError) :
  Wire.header p (pre ++ k ++ val ++ follow) -> Wire.accepted pre tags ->
  Wire.key_text k -> Wire.value_text val v -> Wire.follow_text follow ->
  TaggedUrn._finish_tag tags (lower k) v = Raise e ->
  TaggedUrn.from_string (p ++ ":"%char :: pre ++ k ++ val ++ follow) = Raise e.
Proof.
  intros H A Hk Hv Hf F.
  destruct (body_with_key pre (val ++ follow) Hk) as [N1 N2].
  rewrite from_string_after with (tags := tags) by assumption.
  destruct (scan_tag tags Hk Hv) as [S1 S2].
  destruct Hf as [->|[rest ->]].
  - rewrite app_nil_r, <- bind_assoc, S2, F; reflexivity.
  - rewrite S1, F; reflexivity.
Qed.

Lemma digits_numeric (k : str) :
  isdigit k = true ->
  lower k = k /\ TaggedUrn._is_purely_numeric k = true.
Proof.
  intros H; split.
  - apply lower_fixed. destruct k as [|c k]; [reflexivity|].
    unfold isdigit in H. revert H; generalize (c :: k); intros l.
    induction l as [|x l IH]; simpl; [reflexivity|].
    intros H; apply andb_true_iff in H; destruct H as [Hx Hl].
    rewrite IH by assumption.
    assert (D : forall c, isdigit_char c = true -> isupper c = false)
      by char_fact.
    rewrite (D x Hx); reflexivity.
  - unfold TaggedUrn._is_purely_numeric; rewrite H.
    destruct k; [discriminate | reflexivity].
Qed.

Lemma finish_tag_numeric (tags : dict) (k v : str) :
  k <> [] -> v <> [] -> mem k tags = false ->
  TaggedUrn._is_purely_numeric k = true ->
  TaggedUrn._finish_tag tags k v = Raise NumericKeyError.
Proof.
  intros Hk Hv Hm Hn; unfold TaggedUrn._finish_tag.
  destruct k; [congruence|]; destruct v; [congruence|]; simpl.
  rewrite Hm, Hn; reflexivity.
Qed.

Lemma finish_tag_duplicate (tags : dict) (k v : str) :
  k <> [] -> v <> [] -> mem k tags = true ->
  TaggedUrn._finish_tag tags k v = Raise DuplicateKeyError.
Proof.
  intros Hk Hv Hm; unfold TaggedUrn._finish_tag.
  destruct k; [congruence|]; destruct v; [congruence|]; simpl.
  rewrite Hm; reflexivity.
Qed.

Lemma lower_nonempty (k : str) : k <> [] -> lower k <> [].
Proof. destruct k; [congruence | discriminate]. Qed.

(** Once a tag has been read, its key stays in the tags collected. *)
Lemma accepted_has_key (pre1 k1 val1 v1 mid : str) (tags1 tags : dict) :
  Wire.accepted pre1 tags1 -> Wire.key_text k1 -> Wire.value_text val1 v1 ->
  Wire.accepted (pre1 ++ k1 ++ val1 ++ ";"%char :: mid) tags ->
  mem (lower k1) tags = true.
Proof.
  unfold Wire.accepted; intros A1 Hk Hv A.
  rewrite scan_app, A1 in A; simpl in A.
  destruct (scan_tag tags1 Hk Hv) as [S1 _]; rewrite S1 in A.
  destruct (TaggedUrn._finish_tag tags1 (lower k1) v1) as [t|] eqn:F;
    simpl in A; [|discriminate].
  apply finish_tag_Ok in F; destruct F as [_ [_ [_ [_ ->]]]].
  apply (scan_keeps_key _ _ (lower k1)) in A; [exact A|].
  simpl; apply mem_In_keys, keys_set_In; left; reflexivity.
Qed.

(** Reading a key, the equals sign, the opening quote and escaped text
    leaves the parser inside the quotes. *)
Lemma scan_open_quote (k w rest : str) (tags : dict) :
  Wire.key_text k ->
  TaggedUrn.scan (TaggedUrn.Cursor EXPECTING_KEY tags [] [])
    (k ++ "="%char :: dquote :: Spec.escaped w ++ rest)
  = TaggedUrn.scan (TaggedUrn.Cursor IN_QUOTED_VALUE tags (lower k) w) rest.
Proof.
  intros [Hne Hk]; rewrite scan_key by assumption.
  cbn [TaggedUrn.scan].
  rewrite step_in_key_equals by (apply lower_nonempty; assumption).
  cbn [bind TaggedUrn.scan TaggedUrn.step]; rewrite Ascii.eqb_refl.
  cbn [bind]; apply scan_quoted.
Qed.

(** C8. Each class of malformed input fails with its own error, and a
    failed parse yields no URN: outer whitespace, the empty text, a text
    without colon, a colon in first position; then, the text before it
    having been accepted, a tag with a purely numeric key, a tag whose key
    repeats an earlier one, a quoted value left open at the end of input,
    and a backslash inside quotes followed by anything but a quote or a
    backslash. *)
Theorem C8_malformed_input_raises (s : str) (e : TaggedUrnError)
    (Hmal : Wire.malformed s e) :
  TaggedUrn.from_string s = Raise e
  /\ forall u, TaggedUrn.from_string s <> Ok u.
Proof.
  assert (H : TaggedUrn.from_string s = Raise e);
    [|split; [exact H | intros u; rewrite H; discriminate]].
  destruct Hmal as
    [ s Hs | | s Hs Hne Hc | s Hs
    | p pre tags k val v follow Hh A Hk Hd Hv Hv0 Hf
    | p pre1 tags1 k1 val1 v1 mid tags k val v follow Hh A1 Hk1 Hv1 A Hk
        Hl Hv Hv0 Hf
    | p pre tags k w tail Hh A Hk Ht
    | p pre tags k w c rest Hh A Hk Hc1 Hc2 ].
  - unfold TaggedUrn.from_string.
    assert (E : str_eqb s (strip s) = false)
      by (apply str_eqb_neq; congruence).
    rewrite E; reflexivity.
  - reflexivity.
  - unfold TaggedUrn.from_string.
    rewrite Hs, str_eqb_refl, find_absent by assumption.
    destruct s; [congruence | reflexivity].
  - unfold TaggedUrn.from_string.
    rewrite Hs, str_eqb_refl; reflexivity.
  - destruct (digits_numeric k Hd) as [El Hn].
    apply from_string_tag_raises with (tags := tags) (v := v); auto.
    rewrite El; apply finish_tag_numeric; auto.
    + apply Hk.
    + apply (accepted_no_numeric_key k A Hn).
  - apply from_string_tag_raises with (tags := tags) (v := v); auto.
    apply finish_tag_duplicate; auto.
    + apply lower_nonempty, Hk.
    + rewrite Hl; apply (accepted_has_key mid A1 Hk1 Hv1 A).
  - destruct (body_with_key pre
                ("="%char :: dquote :: Spec.escaped w ++ tail) Hk)
      as [N1 N2].
    rewrite from_string_after with (tags := tags) by assumption.
    rewrite scan_open_quote by assumption.
    destruct Ht as [->| ->]; reflexivity.
  - destruct (body_with_key pre
                ("="%char :: dquote :: Spec.escaped w
                   ++ backslash :: c :: rest) Hk) as [N1 N2].
    rewrite from_string_after with (tags := tags) by assumption.
    rewrite scan_open_quote by assumption.
    cbn [TaggedUrn.scan TaggedUrn.step].
    change (Ascii.eqb backslash dquote) with false.
    change (Ascii.eqb backslash backslash) with true.
    cbn [bind TaggedUrn.step].
    apply Ascii.eqb_neq in Hc1, Hc2; rewrite Hc1, Hc2; reflexivity.
Qed.

Lemma key_text_lit (k : str) :
  k <> [] -> forallb TaggedUrn._is_valid_key_char k = true -> Wire.key_text k.
Proof. intros H1 H2; split; assumption. Defined.

Lemma C8_malformed_input_raises_witness :
  TaggedUrn.from_string (lit "cap:123=value") = Raise NumericKeyError
  /\ TaggedUrn.from_string (lit "cap:key=value1;key=value2")
     = Raise DuplicateKeyError
  /\ TaggedUrn.from_string (lit " cap:op=test") = Raise WhitespaceInInputError
  /\ TaggedUrn.from_string
       (lit "cap:key=" ++ [dquote] ++ lit "bad\n" ++ [dquote])
     = Raise InvalidEscapeSequenceError
  /\ TaggedUrn.from_string (lit "cap:key=" ++ [dquote] ++ lit "open")
     = Raise UnterminatedQuoteError
  /\ TaggedUrn.from_string (lit "cap") = Raise MissingPrefixError
  /\ TaggedUrn.from_string (lit ":op=x") = Raise EmptyPrefixError
  /\ TaggedUrn.from_string [] = Raise EmptyError.
Proof.
  split; [|split; [|split; [|split; [|split; [|split; [|split]]]]]].
  - apply (@C8_malformed_input_raises (lit "cap:123=value") NumericKeyError).
    apply (@Wire.mal_numeric_key (lit "cap") [] [] (lit "123")
             (lit "=value") (lit "value") []).
    + repeat split; [discriminate | simpl; intuition discriminate].
    + reflexivity.
    + apply key_text_lit; [discriminate | reflexivity].
    + reflexivity.
    + apply (Wire.vt_plain (v := lit "value")); [discriminate | reflexivity].
    + discriminate.
    + left; reflexivity.
  - apply (@C8_malformed_input_raises (lit "cap:key=value1;key=value2")
             DuplicateKeyError).
    apply (@Wire.mal_duplicate_key (lit "cap") [] [] (lit "key")
             (lit "=value1") (lit "value1") []
             [(lit "key", lit "value1")] (lit "key")
             (lit "=value2") (lit "value2") []).
    + repeat split; [discriminate | simpl; intuition discriminate].
    + reflexivity.
    + apply key_text_lit; [discriminate | reflexivity].
    + apply (Wire.vt_plain (v := lit "value1")); [discriminate | reflexivity].
    + reflexivity.
    + apply key_text_lit; [discriminate | reflexivity].
    + reflexivity.
    + apply (Wire.vt_plain (v := lit "value2")); [discriminate | reflexivity].
    + discriminate.
    + left; reflexivity.
  - apply (@C8_malformed_input_raises (lit " cap:op=test")
             WhitespaceInInputError).
    apply Wire.mal_whitespace; discriminate.
  - apply (@C8_malformed_input_raises
             (lit "cap:key=" ++ [dquote] ++ lit "bad\n" ++ [dquote])
             InvalidEscapeSequenceError).
    apply (@Wire.mal_invalid_escape (lit "cap") [] [] (lit "key")
             (lit "bad") "n"%char [dquote]).
    + repeat split; [discriminate | simpl; intuition discriminate].
    + reflexivity.
    + apply key_text_lit; [discriminate | reflexivity].
    + discriminate.
    + discriminate.
  - apply (@C8_malformed_input_raises
             (lit "cap:key=" ++ [dquote] ++ lit "open")
             UnterminatedQuoteError).
    apply (@Wire.mal_unterminated_quote (lit "cap") [] [] (lit "key")
             (lit "open") []).
    + repeat split; [discriminate | simpl; intuition discriminate].
    + reflexivity.
    + apply key_text_lit; [discriminate | reflexivity].
    + left; reflexivity.
  - apply (@C8_malformed_input_raises (lit "cap") MissingPrefixError).
    apply Wire.mal_no_colon;
      [reflexivity | discriminate | simpl; intuition discriminate].
  - apply (@C8_malformed_input_raises (lit ":op=x") EmptyPrefixError).
    apply (@Wire.mal_colon_first (lit "op=x")); reflexivity.
  - apply (@C8_malformed_input_raises [] EmptyError).
    apply Wire.mal_empty.
Defined.

(** ** URNs whose text reads back *)

Lemma distinct_NoDup (l : list str) : distinct l = true <-> NoDup l.
Proof.
  induction l as [|x l IH]; simpl.
  - split; [constructor | reflexivity].
  - rewrite andb_true_iff, negb_true_iff, IH; split.
    + intros [E H]; constructor; [|assumption].
      rewrite <- existsb_str_eqb_In, E; discriminate.
    + intros H; inversion H as [|? ? Hn Hd]; subst; split; [|assumption].
      destruct (existsb (str_eqb x) l) eqn:E; [|reflexivity].
      apply existsb_str_eqb_In in E; contradiction.
Qed.

Lemma unchanged_lower (s : str) : unchanged_by_lower s = true -> lower s = s.
Proof.
  unfold unchanged_by_lower.
  induction s as [|c s IH]; simpl; [reflexivity|].
  rewrite andb_true_iff; intros [Hc Hs].
  apply Ascii.eqb_eq in Hc; rewrite Hc, IH by assumption; reflexivity.
Qed.

Lemma stable_key_inv (k : str) :
  stable_key k = true ->
  Wire.key_text k /\ lower k = k /\ TaggedUrn._is_purely_numeric k = false.
Proof.
  unfold stable_key; rewrite !andb_true_iff, !negb_true_iff.
  intros [[[H1 H2] H3] H4]; repeat split; auto.
  - destruct k; [discriminate | discriminate].
  - apply unchanged_lower, H3.
Qed.

(** The text the serializer writes after the key denotes the value. *)
Lemma tag_to_string_text (k v : str) :
  stable_value v = true ->
  exists val,
    TaggedUrn.tag_to_string (k, v) = k ++ val /\ Wire.value_text val v.
Proof.
  unfold stable_value; rewrite andb_true_iff, negb_true_iff.
  intros [Hne Hq]; unfold TaggedUrn.tag_to_string.
  destruct (str_eqb_spec v (lit "*")) as [->|N1].
  { exists []; split; [rewrite app_nil_r; reflexivity | constructor]. }
  destruct (str_eqb_spec v (lit "?")) as [->|N2].
  { exists (lit "=?"); split; [reflexivity|].
    apply (Wire.vt_plain (v := lit "?")); [discriminate | reflexivity]. }
  destruct (str_eqb_spec v (lit "!")) as [->|N3].
  { exists (lit "=!"); split; [reflexivity|].
    apply (Wire.vt_plain (v := lit "!")); [discriminate | reflexivity]. }
  destruct (TaggedUrn._needs_quoting v) eqn:Q.
  - exists ("="%char :: dquote :: Spec.escaped v ++ [dquote]); split.
    + rewrite quote_value_escaped; reflexivity.
    + constructor.
  - simpl in Hq; apply andb_true_iff in Hq; destruct Hq as [Hvalid Hlow].
    exists ("="%char :: v); split; [reflexivity|].
    rewrite <- (unchanged_lower v Hlow) at 2.
    constructor; [destruct v; [discriminate | discriminate] | assumption].
Qed.

Lemma last_char (P : ascii -> bool) (s : str) :
  s <> [] -> forallb P s = true ->
  exists front l, s = front ++ [l] /\ P l = true.
Proof.
  intros Hne H; destruct (exists_last Hne) as [front [l ->]].
  exists front, l; split; [reflexivity|].
  rewrite forallb_app in H; apply andb_true_iff in H; destruct H as [_ H].
  simpl in H; rewrite andb_true_r in H; exact H.
Qed.

(** A tag's text does not end with whitespace. *)
Lemma tag_text_ends_clean (k val v : str) :
  Wire.key_text k -> Wire.value_text val v ->
  exists front l, k ++ val = front ++ [l] /\ isspace l = false.
Proof.
  intros [Hne Hk] [ | u Hu1 Hu2 | u ].
  - destruct (last_char _ Hne Hk) as [front [l [-> Hl]]].
    exists front, l; split; [rewrite app_nil_r; reflexivity|].
    apply (valid_key_char_plain l Hl).
  - destruct (last_char _ Hu1 Hu2) as [front [l [-> Hl]]].
    exists (k ++ "="%char :: front), l; split.
    + rewrite <- app_assoc; reflexivity.
    + apply (valid_value_char_plain l Hl).
  - exists (k ++ "="%char :: dquote :: Spec.escaped u), dquote; split.
    + rewrite <- app_assoc; reflexivity.
    + reflexivity.
Qed.

Lemma lstrip_clean (c : ascii) (s : str) :
  isspace c = false -> lstrip (c :: s) = c :: s.
Proof. intros H; simpl; rewrite H; reflexivity. Qed.

Lemma strip_clean (c l : ascii) (s front : str) :
  isspace c = false -> isspace l = false -> c :: s = front ++ [l] ->
  strip (c :: s) = c :: s.
Proof.
  intros Hc Hl E; unfold strip, rstrip.
  rewrite lstrip_clean by assumption.
  rewrite E, rev_app_distr.
  change (rev [l] ++ rev front) with (l :: rev front).
  rewrite lstrip_clean by assumption.
  cbn [rev]; rewrite rev_involutive; reflexivity.
Qed.

Lemma dict_eqb_perm (d1 d2 : dict) :
  NoDup (keys d2) -> Permutation d1 d2 -> dict_eqb d1 d2 = true.
Proof.
  intros ND P; unfold dict_eqb; apply andb_true_iff; split.
  - apply Nat.eqb_eq, Permutation_length, P.
  - apply forallb_forall; intros [k v] I; simpl.
    rewrite (get_In_NoDup d2 k v ND (Permutation_in _ P I)).
    apply str_eqb_refl.
Qed.

(** ** Reading back what the serializer wrote *)

Lemma keys_app (d1 d2 : dict) : keys (d1 ++ d2) = keys d1 ++ keys d2.
Proof. apply map_app. Qed.

Lemma finish_tag_stable (acc : dict) (k v : str) :
  stable_key k = true -> stable_value v = true -> ~ In k (keys acc) ->
  TaggedUrn._finish_tag acc (lower k) v = Ok (acc ++ [(k, v)]).
Proof.
  intros Hk Hv Hn.
  destruct (stable_key_inv k Hk) as [[Hne _] [-> Hnum]].
  apply finish_tag_fresh; auto.
  - unfold stable_value in Hv; destruct v; [discriminate | discriminate].
  - destruct (mem k acc) eqn:M; [|reflexivity].
    apply mem_In_keys in M; contradiction.
Qed.

(** The loop and the end-of-input block, run on the serialized tags,
    collect the items in the order written. *)
Lemma scan_items (items : list (str * str)) : forall acc,
  Forall stable_item items ->
  NoDup (keys acc ++ keys items) ->
  (cu <- TaggedUrn.scan (TaggedUrn.Cursor EXPECTING_KEY acc [] [])
           (join (lit ";") (map TaggedUrn.tag_to_string items)) ;;
   TaggedUrn.at_end cu)
  = Ok (acc ++ items).
Proof.
  induction items as [|[k v] items IH]; intros acc Hwf ND.
  - simpl; rewrite app_nil_r; reflexivity.
  - inversion Hwf as [|? ? [Hk Hv] Hwf']; subst; simpl in Hk, Hv.
    destruct (tag_to_string_text k v Hv) as [val [Et Hval]].
    destruct (stable_key_inv k Hk) as [Hkt _].
    destruct (scan_tag acc Hkt Hval) as [S1 S2].
    assert (Hfresh : ~ In k (keys acc)).
    { intros I; apply NoDup_remove_2 in ND; apply ND.
      apply in_or_app; left; exact I. }
    pose proof (finish_tag_stable acc k v Hk Hv Hfresh) as F.
    destruct items as [|y items].
    + cbn [map join]; rewrite Et, S2; exact F.
    + change (join (lit ";") (map TaggedUrn.tag_to_string ((k, v) :: y :: items)))
        with (TaggedUrn.tag_to_string (k, v) ++ ";"%char
              :: join (lit ";") (map TaggedUrn.tag_to_string (y :: items))).
      rewrite Et, <- app_assoc, S1, F; cbn [bind].
      rewrite IH; [rewrite <- app_assoc; reflexivity | assumption |].
      rewrite keys_app, <- app_assoc; exact ND.
Qed.

Lemma serialized_tags_shape (items : list (str * str)) :
  Forall stable_item items -> items <> [] ->
  let body := join (lit ";") (map TaggedUrn.tag_to_string items) in
  body <> [] /\ body <> lit ";"
  /\ exists front l, body = front ++ [l] /\ isspace l = false.
Proof.
  intros Hwf Hne body.
  assert (Hfirst : body <> [] /\ body <> lit ";").
  { destruct items as [|[k v] items]; [congruence|].
    inversion Hwf as [|? ? [Hk Hv] _]; subst; simpl in Hk, Hv.
    destruct (tag_to_string_text k v Hv) as [val [Et _]].
    destruct (stable_key_inv k Hk) as [Hkt _].
    unfold body; destruct items as [|y items].
    - cbn [map join]; rewrite Et; apply (body_with_key [] val Hkt).
    - change (join (lit ";") (map TaggedUrn.tag_to_string ((k, v) :: y :: items)))
        with (TaggedUrn.tag_to_string (k, v) ++ ";"%char
              :: join (lit ";") (map TaggedUrn.tag_to_string (y :: items))).
      rewrite Et, <- app_assoc; apply (body_with_key [] _ Hkt). }
  destruct Hfirst as [B1 B2]; repeat split; try assumption.
  destruct (exists_last Hne) as [items' [[k v] E]].
  assert (Hlast : stable_item (k, v)).
  { rewrite Forall_forall in Hwf; apply Hwf; rewrite E.
    apply in_or_app; right; left; reflexivity. }
  destruct Hlast as [Hk Hv]; simpl in Hk, Hv.
  destruct (tag_to_string_text k v Hv) as [val [Et Hval]].
  destruct (stable_key_inv k Hk) as [Hkt _].
  destruct (tag_text_ends_clean Hkt Hval) as [front [l [El Hl]]].
  unfold body; rewrite E, map_app; cbn [map].
  destruct (join_ends_with_last (lit ";")
              (map TaggedUrn.tag_to_string items')
              (TaggedUrn.tag_to_string (k, v))) as [h Hh].
  exists (h ++ front), l; split; [|assumption].
  rewrite Hh, Et, El, app_assoc; reflexivity.
Qed.

Lemma stable_prefix_inv (p : str) :
  stable_prefix p = true ->
  exists c p', p = c :: p' /\ isspace c = false /\ ~ In ":"%char p
               /\ lower p = p.
Proof.
  unfold stable_prefix; destruct p as [|c p']; [discriminate|].
  rewrite !andb_true_iff, !negb_true_iff; intros [[H1 H2] H3].
  exists c, p'; repeat split; auto.
  - intros I; apply char_in_In in I; congruence.
  - apply str_eqb_eq, H3.
Qed.

Lemma bind_at_end (m : result TaggedUrn.cursor) (p : str) (tags : dict) :
  (cu <- m ;; TaggedUrn.at_end cu) = Ok tags ->
  (cu <- m ;; t <- TaggedUrn.at_end cu ;; Ok (TaggedUrn.__init__ p t))
  = Ok (TaggedUrn.__init__ p tags).
Proof.
  destruct m as [cu|e]; simpl; [intros ->; reflexivity | discriminate].
Qed.

(** The parser reads the text of a URN that meets [reads_back] as the
    same prefix with the items in sorted order. *)
Lemma reads_back_text (u : TaggedUrn.t) :
  reads_back u = true ->
  TaggedUrn.from_string (TaggedUrn.to_string u)
  = Ok (TaggedUrn.mk (TaggedUrn.prefix u) (sorted (TaggedUrn.tags u))).
Proof.
  destruct u as [p tags]; unfold reads_back; simpl.
  rewrite !andb_true_iff; intros [[[Hp Hk] Hv] Hd].
  apply distinct_NoDup in Hd.
  destruct (stable_prefix_inv p Hp) as [c [p' [Ep [Hc [Hcolon Hlow]]]]].
  assert (Hitems : Forall stable_item (sorted tags)).
  { eapply Permutation_Forall; [symmetry; apply sorted_perm|].
    apply Forall_forall; intros [k v] I; split; simpl.
    - rewrite forallb_forall in Hk; apply Hk, (in_map fst _ _ I).
    - rewrite forallb_forall in Hv; apply Hv, (in_map snd _ _ I). }
  assert (Hnd : NoDup (keys (sorted tags))).
  { eapply Permutation_NoDup; [|exact Hd].
    apply Permutation_map; symmetry; apply sorted_perm. }
  assert (Hinit : TaggedUrn.__init__ (lower p) (sorted tags)
                  = TaggedUrn.mk p (sorted tags)).
  { unfold TaggedUrn.__init__; rewrite !Hlow; f_equal.
    apply (init_tags_fixed (sorted tags) []); [exact Hnd|].
    apply Forall_forall; intros k I.
    apply in_map_iff in I; destruct I as [[k0 v0] [<- I]].
    rewrite Forall_forall in Hitems.
    destruct (Hitems _ I) as [Hk0 _].
    apply (stable_key_inv _ Hk0). }
  unfold TaggedUrn.to_string, TaggedUrn.tags_to_string.
  cbn [TaggedUrn.prefix TaggedUrn.tags].
  change (p ++ lit ":" ++ ?b) with (p ++ ":"%char :: b).
  destruct (sorted tags) as [|x items] eqn:Es.
  - cbn [map join]. rewrite from_string_no_tags; [rewrite Hinit; reflexivity|].
    repeat split; [congruence | assumption |].
    rewrite Ep; apply (@strip_clean c ":"%char _ (c :: p'));
      [assumption | reflexivity | reflexivity].
  - destruct (@serialized_tags_shape (x :: items) Hitems)
      as [B1 [B2 [front [l [El Hl]]]]]; [discriminate|].
    rewrite from_string_body; try assumption.
    + rewrite <- Hinit; apply bind_at_end.
      apply (@scan_items (x :: items) [] Hitems Hnd).
    + repeat split; [congruence | assumption |].
      rewrite El, Ep.
      apply (@strip_clean c l _ (c :: p' ++ ":"%char :: front));
        [assumption | assumption |].
      cbn [app]; rewrite <- app_assoc; reflexivity.
Qed.

(** Serializing what the parser read gives the text back. *)
Lemma to_string_sorted (p : str) (d : dict) :
  TaggedUrn.to_string (TaggedUrn.mk p (sorted d))
  = TaggedUrn.to_string (TaggedUrn.mk p d).
Proof.
  unfold TaggedUrn.to_string, TaggedUrn.tags_to_string; simpl.
  rewrite (sorted_fixed (sorted_sorted _)); reflexivity.
Qed.

(** On the characters of this alphabet a character that is not uppercase
    is unchanged by [lower], so a well-formed URN meets [reads_back]. *)
Lemma not_upper_unchanged (s : str) :
  existsb isupper s = false -> unchanged_by_lower s = true.
Proof.
  unfold unchanged_by_lower.
  induction s as [|c s IH]; simpl; [reflexivity|].
  intros H; apply orb_false_iff in H; destruct H as [Hc Hs].
  rewrite (lower_char_fixed c Hc), Ascii.eqb_refl; apply IH, Hs.
Qed.

Lemma not_needs_quoting_unchanged (v : str) :
  TaggedUrn._needs_quoting v = false -> unchanged_by_lower v = true.
Proof.
  intros H; apply not_upper_unchanged.
  unfold TaggedUrn._needs_quoting in H.
  induction v as [|c v IH]; simpl in *; [reflexivity|].
  apply orb_false_iff in H; destruct H as [Hc Hv].
  apply orb_false_iff in Hc; destruct Hc as [_ Hc].
  rewrite Hc, IH by assumption; reflexivity.
Qed.

Lemma well_formed_reads_back (u : TaggedUrn.t) :
  well_formed u = true -> reads_back u = true.
Proof.
  unfold well_formed, reads_back; rewrite !andb_true_iff.
  intros [[[Hp Hk] Hv] Hd]; repeat split; try assumption.
  - unfold wf_prefix in Hp; unfold stable_prefix.
    destruct (TaggedUrn.prefix u) as [|c p]; [discriminate|].
    rewrite !andb_true_iff, !negb_true_iff in Hp.
    destruct Hp as [[H1 H2] H3]; rewrite H1, H2; cbn [negb andb].
    apply str_eqb_eq, lower_fixed, H3.
  - apply forallb_forall; intros k I.
    rewrite forallb_forall in Hk; specialize (Hk k I).
    unfold wf_key in Hk; unfold stable_key.
    rewrite !andb_true_iff, !negb_true_iff in Hk.
    destruct Hk as [[[H1 H2] H3] H4].
    rewrite H1, H2, H4, (not_upper_unchanged k H3); reflexivity.
  - apply forallb_forall; intros v I.
    rewrite forallb_forall in Hv; specialize (Hv v I).
    unfold wf_value in Hv; unfold stable_value.
    rewrite andb_true_iff in Hv; destruct Hv as [H1 H2]; rewrite H1; simpl.
    destruct (TaggedUrn._needs_quoting v) eqn:Q; [reflexivity|].
    simpl in H2; rewrite H2, (not_needs_quoting_unchanged v Q); reflexivity.
Qed.

(** The parser reads a well-formed URN's text back as the same prefix
    with the items in sorted order. *)
Lemma from_string_to_string (u : TaggedUrn.t) :
  well_formed u = true ->
  TaggedUrn.from_string (TaggedUrn.to_string u)
  = Ok (TaggedUrn.mk (TaggedUrn.prefix u) (sorted (TaggedUrn.tags u))).
Proof. intros H; apply reads_back_text, well_formed_reads_back, H. Qed.

(** C4, as the claim states it, fails: the constructor accepts an empty
    prefix, and the text of the resulting URN does not parse. *)
Lemma C4_counterexample :
  let u := TaggedUrn.__init__ [] [] in
  TaggedUrn.to_string u = lit ":"
  /\ TaggedUrn.from_string (TaggedUrn.to_string u) = Raise EmptyPrefixError.
Proof. split; reflexivity. Qed.

(** C4 (amended). Let [w] be a URN that meets what the parser requires:
    a prefix that is non-empty, free of colons, does not start with
    whitespace and equals its lowercase form; distinct keys that are
    non-empty, made of key characters that [lower] leaves unchanged, and
    not purely numeric; values that are non-empty and either need quoting
    or consist of unquoted-value characters that [lower] leaves unchanged.
    Then for every URN [u] with the text of [w] (in particular [w]
    itself) the text parses, to a URN equal to [w], and serializing the
    parse gives the same text. *)
Theorem C4_canonicalization_idempotent (u w : TaggedUrn.t)
    (Hw : reads_back w = true)
    (Htext : TaggedUrn.to_string u = TaggedUrn.to_string w) :
  exists u',
    TaggedUrn.from_string (TaggedUrn.to_string u) = Ok u'
    /\ TaggedUrn.eqb u' w = true
    /\ TaggedUrn.to_string u' = TaggedUrn.to_string u
    /\ TaggedUrn.canonical (TaggedUrn.to_string u)
       = Ok (TaggedUrn.to_string u).
Proof.
  pose proof (reads_back_text w Hw) as E; rewrite <- Htext in E.
  exists (TaggedUrn.mk (TaggedUrn.prefix w) (sorted (TaggedUrn.tags w))).
  assert (Hs : TaggedUrn.to_string
                 (TaggedUrn.mk (TaggedUrn.prefix w)
                    (sorted (TaggedUrn.tags w)))
               = TaggedUrn.to_string u).
  { rewrite to_string_sorted, Htext; destruct w; reflexivity. }
  split; [exact E | split; [|split; [exact Hs|]]].
  - unfold TaggedUrn.eqb; simpl; rewrite str_eqb_refl; simpl.
    apply dict_eqb_perm; [|apply sorted_perm].
    unfold reads_back in Hw; rewrite !andb_true_iff in Hw.
    apply distinct_NoDup, Hw.
  - unfold TaggedUrn.canonical; rewrite E; simpl; rewrite Hs; reflexivity.
Qed.

Lemma C4_canonicalization_idempotent_witness :
  let u := TaggedUrn.__init__ (lit "Cap")
             [(lit "Op", lit "Generate Thumbnail"); (lit "ext", lit "pdf");
              (lit "dry", lit "!"); (lit "any", lit "*")] in
  let a := TaggedUrn.__init__ (lit "a:z") [] in
  let w := TaggedUrn.__init__ (lit "a") [(lit "z:", lit "*")] in
  (reads_back u = true
   /\ exists u',
        TaggedUrn.from_string (TaggedUrn.to_string u) = Ok u'
        /\ TaggedUrn.eqb u' u = true
        /\ TaggedUrn.to_string u' = TaggedUrn.to_string u
        /\ TaggedUrn.canonical (TaggedUrn.to_string u)
           = Ok (TaggedUrn.to_string u))
  /\ (reads_back w = true
      /\ TaggedUrn.to_string a = TaggedUrn.to_string w
      /\ exists a',
           TaggedUrn.from_string (TaggedUrn.to_string a) = Ok a'
           /\ TaggedUrn.eqb a' w = true
           /\ TaggedUrn.to_string a' = TaggedUrn.to_string a
           /\ TaggedUrn.canonical (TaggedUrn.to_string a)
              = Ok (TaggedUrn.to_string a)).
Proof.
  intros u a w; split.
  - split; [reflexivity|].
    apply (@C4_canonicalization_idempotent u u); reflexivity.
  - split; [reflexivity|]; split; [reflexivity|].
    apply (@C4_canonicalization_idempotent a w); reflexivity.
Defined.

(** ** What the parser guarantees of its result *)

(** The lowercase form of a key character is not a delimiter. *)
Lemma lower_key_char_plain : forall c,
  TaggedUrn._is_valid_key_char c = true ->
  negb (char_in (lower_char c) [";"; "="]%char) = true.
Proof. char_fact. Qed.

Lemma lowered_nil : lowered_key [].
Proof. split; reflexivity. Qed.

Lemma lowered_snoc (k : str) (c : ascii) :
  lowered_key k -> TaggedUrn._is_valid_key_char c = true ->
  lowered_key (k ++ [lower_char c]).
Proof.
  intros [H1 H2] Hc; split.
  - unfold lower in *; rewrite map_app, H1; simpl.
    rewrite lower_char_idem; reflexivity.
  - unfold no_delimiter in *; rewrite forallb_app, H2.
    cbn [forallb andb]; rewrite (lower_key_char_plain c Hc); reflexivity.
Qed.

Lemma finish_tag_lowered (tags : dict) (key value : str) (tags' : dict) :
  lowered_tags tags -> lowered_key key ->
  TaggedUrn._finish_tag tags key value = Ok tags' -> lowered_tags tags'.
Proof.
  intros [ND HF] Hl F.
  apply finish_tag_Ok in F; destruct F as [Hk [Hval [Hm [Hn ->]]]].
  assert (Hfresh : ~ In key (keys tags))
    by (rewrite <- mem_In_keys, Hm; discriminate).
  rewrite set_fresh by assumption; split.
  - rewrite keys_app; simpl. apply NoDup_app; [assumption | |].
    + repeat constructor; auto.
    + intros x Hx [<-|[]]; contradiction.
  - apply Forall_app; split; [assumption|].
    constructor; [|constructor]; simpl; auto.
Qed.

Lemma step_lowered (cu cu' : TaggedUrn.cursor) (c : ascii) :
  lowered_cursor cu -> TaggedUrn.step cu c = Ok cu' -> lowered_cursor cu'.
Proof.
  destruct cu as [st tags key value]; intros [Ht Hk]; simpl in Ht, Hk.
  destruct st; simpl;
    repeat match goal with
           | |- context [if ?b then _ else _] => destruct b eqn:?
           end;
    try discriminate;
    try (intros E; inversion E; subst; split; simpl;
         solve [assumption | apply lowered_snoc; assumption]);
    match goal with
    | |- context [TaggedUrn._finish_tag ?a ?b ?c] =>
        destruct (TaggedUrn._finish_tag a b c) eqn:F; simpl;
        [intros E; inversion E; subst; split; simpl;
         [eapply finish_tag_lowered; eassumption | apply lowered_nil]
        | discriminate]
    end.
Qed.

Lemma scan_lowered (l : str) : forall cu cu',
  lowered_cursor cu -> TaggedUrn.scan cu l = Ok cu' -> lowered_cursor cu'.
Proof.
  induction l as [|c l IH]; intros cu cu' H E; simpl in E.
  - inversion E; subst; assumption.
  - destruct (TaggedUrn.step cu c) as [cu1|] eqn:S; simpl in E;
      [|discriminate].
    apply (IH cu1 cu'); [eapply step_lowered; eassumption | assumption].
Qed.

Lemma at_end_lowered (cu : TaggedUrn.cursor) (tags : dict) :
  lowered_cursor cu -> TaggedUrn.at_end cu = Ok tags -> lowered_tags tags.
Proof.
  destruct cu as [st tgs key value]; intros [Ht Hk]; simpl in Ht, Hk.
  destruct st; simpl; try discriminate;
    try (intros E; inversion E; subst; assumption);
    try (apply finish_tag_lowered; assumption).
  destruct (is_empty key); [discriminate|].
  apply finish_tag_lowered; assumption.
Qed.

Lemma lstrip_length (s : str) : List.length (lstrip s) <= List.length s.
Proof.
  induction s as [|c s IH]; simpl; [lia|].
  destruct (isspace c); simpl; lia.
Qed.

Lemma strip_fixed_first (c : ascii) (s : str) :
  strip (c :: s) = c :: s -> isspace c = false.
Proof.
  intros E; destruct (isspace c) eqn:Hc; [|reflexivity].
  exfalso. apply (f_equal (@List.length ascii)) in E.
  unfold strip, rstrip in E; rewrite length_rev in E.
  pose proof (lstrip_length (rev (lstrip (c :: s)))) as L1.
  rewrite length_rev in L1.
  simpl lstrip in L1, E; rewrite Hc in L1, E.
  pose proof (lstrip_length s) as L2.
  simpl in E; lia.
Qed.

Lemma find_before (s : str) : forall n,
  find ":" s = Some n -> ~ In ":"%char (firstn n s).
Proof.
  induction s as [|c s IH]; intros n; simpl; [discriminate|].
  destruct (Ascii.eqb_spec c ":") as [->|N].
  - intros E; inversion E; simpl; tauto.
  - destruct (find ":" s) as [m|]; [|discriminate].
    intros E; inversion E; subst; simpl.
    intros [H|H]; [congruence | apply (IH m eq_refl H)].
Qed.

Lemma lower_char_space : forall c, isspace (lower_char c) = isspace c.
Proof. char_fact. Qed.

Lemma lower_char_colon : forall c, lower_char c = ":"%char -> c = ":"%char.
Proof. char_fact. Qed.

(** The prefix the parser stores: the lowercase form of the text before
    the first colon. *)
Lemma parsed_prefix (s : str) (n : nat) :
  find ":" s = Some (S n) ->
  lower (firstn (S n) s) <> []
  /\ ~ In ":"%char (lower (firstn (S n) s))
  /\ lower (lower (firstn (S n) s)) = lower (firstn (S n) s).
Proof.
  intros Hf; pose proof (find_before s Hf) as Hc.
  destruct s as [|c s]; [discriminate|].
  split; [discriminate|]; split; [|apply lower_idem].
  intros I; apply in_map_iff in I.
  destruct I as [x [E I]]; apply lower_char_colon in E; subst x.
  apply Hc; exact I.
Qed.

Lemma lowered_normal (tags : dict) : lowered_tags tags -> normal_tags tags.
Proof.
  intros [ND HF]; split; [exact ND|].
  apply Forall_forall; intros k I.
  apply in_map_iff in I; destruct I as [[k0 v0] [<- I]].
  rewrite Forall_forall in HF; apply (HF _ I).
Qed.

(** Every URN the parser returns has a non-empty prefix without colon that
    equals its lowercase form, and distinct keys, each non-empty, equal to
    its lowercase form and not purely numeric, with non-empty values. *)
Lemma parsed_lowered (s : str) (u : TaggedUrn.t) :
  TaggedUrn.from_string s = Ok u ->
  TaggedUrn.prefix u <> []
  /\ ~ In ":"%char (TaggedUrn.prefix u)
  /\ lower (TaggedUrn.prefix u) = TaggedUrn.prefix u
  /\ lowered_tags (TaggedUrn.tags u).
Proof.
  intros E; unfold TaggedUrn.from_string in E.
  destruct (str_eqb_spec s (strip s)) as [Hs|]; [|discriminate].
  cbn [negb] in E. destruct (is_empty s); [discriminate|].
  destruct (find ":" s) as [[|n]|] eqn:Hf; try discriminate.
  destruct (parsed_prefix s Hf) as [P1 [P2 P3]].
  set (p0 := lower (firstn (S n) s)) in *; clearbody p0.
  assert (Hnil : lowered_tags []) by (split; constructor).
  match type of E with
  | (if ?b then _ else _) = _ => destruct b
  end.
  - inversion E; subst; cbn [TaggedUrn.__init__ TaggedUrn.prefix
                              TaggedUrn.tags fold_left].
    rewrite !P3; auto.
  - match type of E with
    | context [TaggedUrn.scan ?a ?b] =>
        destruct (TaggedUrn.scan a b) as [cu|] eqn:Sc
    end; cbn [bind] in E; [|discriminate].
    destruct (TaggedUrn.at_end cu) as [tags|] eqn:Ae; cbn [bind] in E;
      [|discriminate].
    assert (Hok : lowered_tags tags).
    { apply (@at_end_lowered cu); [|exact Ae].
      apply (@scan_lowered (skipn (S n + 1) s) TaggedUrn.start cu);
        [|exact Sc].
      split; [exact Hnil | apply lowered_nil]. }
    rewrite (init_of_normal _ (lowered_normal Hok)) in E.
    inversion E; subst; cbn [TaggedUrn.prefix TaggedUrn.tags].
    rewrite !P3; auto.
Qed.

(** C1, at the input [cap:k="a,b"]: the text parses, its value holds a
    comma, which the serializer does not quote, and the serialized text
    is rejected by the parser. *)
Theorem C1_round_trip_breaks_on_unquoted_comma :
  let T := lit "cap:k=" ++ [dquote] ++ lit "a,b" ++ [dquote] in
  let u := TaggedUrn.mk (lit "cap") [(lit "k", lit "a,b")] in
  TaggedUrn.from_string T = Ok u
  /\ TaggedUrn._needs_quoting (lit "a,b") = false
  /\ TaggedUrn._is_valid_unquoted_value_char ","%char = false
  /\ TaggedUrn.to_string u = lit "cap:k=a,b"
  /\ TaggedUrn.from_string (TaggedUrn.to_string u)
     = Raise InvalidCharacterError.
Proof. repeat split. Qed.

(** * Further properties of the module *)

(** ** Adding, reading and removing a tag *)

(** X1. [with_tag] refuses an empty value and otherwise returns a URN with
    the same prefix in which the key, whatever its case, reads as the new
    value and every other key reads as before. *)
Theorem X1_with_tag_then_get_tag (p : str) (d : dict) (k v : str) :
  let u := TaggedUrn.__init__ p d in
  (v = [] -> TaggedUrn.with_tag u k v = Raise EmptyTagComponentError)
  /\ (v <> [] ->
      exists u',
        TaggedUrn.with_tag u k v = Ok u'
        /\ constructed u'
        /\ TaggedUrn.prefix u' = TaggedUrn.prefix u
        /\ TaggedUrn.get_tag u' k = Some v
        /\ TaggedUrn.has_tag u' k v = true
        /\ forall k', lower k' <> lower k ->
             TaggedUrn.get_tag u' k' = TaggedUrn.get_tag u k').
Proof.
  intros u; split; [intros ->; reflexivity|].
  intros Hv; pose proof (init_constructed p d) as Hc; fold u in Hc.
  assert (Hn : normal_tags (set (TaggedUrn.tags u) (lower k) v))
    by (apply set_normal; [apply Hc | apply lower_idem]).
  exists (TaggedUrn.mk (TaggedUrn.prefix u)
            (set (TaggedUrn.tags u) (lower k) v)).
  split; [|split; [|split; [|split; [|split]]]].
  - unfold TaggedUrn.with_tag; destruct v; [congruence|]; simpl is_empty.
    cbv iota; rewrite rebuild_constructed by assumption; reflexivity.
  - split; [apply Hc | exact Hn].
  - reflexivity.
  - unfold TaggedUrn.get_tag; simpl; rewrite get_set, str_eqb_refl.
    reflexivity.
  - unfold TaggedUrn.has_tag; simpl; rewrite get_set, str_eqb_refl.
    apply str_eqb_refl.
  - intros k' Hk; unfold TaggedUrn.get_tag; simpl; rewrite get_set.
    destruct (str_eqb_spec (lower k) (lower k')); [congruence | reflexivity].
Qed.

Lemma X1_with_tag_then_get_tag_witness :
  let u := TaggedUrn.__init__ (lit "cap") [(lit "op", lit "generate")] in
  TaggedUrn.with_tag u (lit "Ext") [] = Raise EmptyTagComponentError
  /\ exists u',
       TaggedUrn.with_tag u (lit "Ext") (lit "PDF") = Ok u'
       /\ TaggedUrn.get_tag u' (lit "ext") = Some (lit "PDF")
       /\ TaggedUrn.get_tag u' (lit "op") = Some (lit "generate").
Proof.
  intros u.
  destruct (X1_with_tag_then_get_tag (lit "cap")
              [(lit "op", lit "generate")] (lit "Ext") [])
    as [H0 _].
  split; [apply H0; reflexivity|].
  destruct (X1_with_tag_then_get_tag (lit "cap")
              [(lit "op", lit "generate")] (lit "ext") (lit "PDF"))
    as [_ H1].
  destruct H1 as [u' [E [_ [_ [G [_ O]]]]]]; [discriminate|].
  exists u'; split; [exact E | split; [exact G|]].
  rewrite O; [reflexivity | discriminate].
Defined.

(** X2. [without_tag] returns a URN in which the key, whatever its case,
    is absent and every other key reads as before; removing an absent key
    returns the URN unchanged. *)
Theorem X2_without_tag_removes (p : str) (d : dict) (k : str) :
  let u := TaggedUrn.__init__ p d in
  let u' := TaggedUrn.without_tag u k in
  constructed u'
  /\ TaggedUrn.prefix u' = TaggedUrn.prefix u
  /\ TaggedUrn.get_tag u' k = None
  /\ (forall k', lower k' <> lower k ->
        TaggedUrn.get_tag u' k' = TaggedUrn.get_tag u k')
  /\ (TaggedUrn.get_tag u k = None -> u' = u).
Proof.
  intros u u'; pose proof (init_constructed p d) as Hc; fold u in Hc.
  assert (E : u' = TaggedUrn.mk (TaggedUrn.prefix u)
                     (pop (TaggedUrn.tags u) (lower k))).
  { unfold u', TaggedUrn.without_tag.
    apply rebuild_constructed; [assumption | apply pop_normal, Hc]. }
  rewrite E; split; [|split; [|split; [|split]]].
  - split; [apply Hc | apply pop_normal, Hc].
  - reflexivity.
  - unfold TaggedUrn.get_tag; simpl; apply pop_get_same, Hc.
  - intros k' Hk; unfold TaggedUrn.get_tag; simpl.
    apply pop_get_other; assumption.
  - unfold TaggedUrn.get_tag; intros H; rewrite pop_absent by assumption.
    destruct u; reflexivity.
Qed.

Lemma X2_without_tag_removes_witness :
  let u := TaggedUrn.__init__ (lit "cap")
             [(lit "op", lit "generate"); (lit "ext", lit "pdf")] in
  TaggedUrn.get_tag (TaggedUrn.without_tag u (lit "EXT")) (lit "op")
  = Some (lit "generate")
  /\ TaggedUrn.without_tag u (lit "fmt") = u.
Proof.
  intros u.
  destruct (X2_without_tag_removes (lit "cap")
              [(lit "op", lit "generate"); (lit "ext", lit "pdf")]
              (lit "EXT")) as [_ [_ [_ [O _]]]].
  destruct (X2_without_tag_removes (lit "cap")
              [(lit "op", lit "generate"); (lit "ext", lit "pdf")]
              (lit "fmt")) as [_ [_ [_ [_ A]]]].
  split; [rewrite O; [reflexivity | discriminate] | apply A; reflexivity].
Defined.

(** ** Merge, subset and wildcard *)

Lemma get_Some_In (d : dict) (k v : str) : get d k = Some v -> In (k, v) d.
Proof.
  induction d as [|[k0 v0] d IH]; simpl; [discriminate|].
  destruct (str_eqb_spec k0 k) as [->|N]; [|auto].
  intros E; inversion E; auto.
Qed.

Lemma keys_rev (d : dict) : keys (rev d) = rev (keys d).
Proof. apply map_rev. Qed.

Lemma get_rev_NoDup (d : dict) (k : str) :
  NoDup (keys d) -> get (rev d) k = get d k.
Proof.
  intros ND. destruct (get d k) as [v|] eqn:E.
  - apply get_In_NoDup.
    + rewrite keys_rev; apply NoDup_rev, ND.
    + apply in_rev; rewrite rev_involutive; apply get_Some_In, E.
  - apply get_None_keys; rewrite keys_rev, <- in_rev.
    apply get_None_keys, E.
Qed.

Lemma update_get (other : dict) : forall d k,
  get (update d other) k
  = match get (rev other) k with Some v => Some v | None => get d k end.
Proof.
  unfold update; induction other as [|[k0 v0] other IH]; intros d k; simpl;
    [reflexivity|].
  rewrite IH, get_app, get_set; simpl.
  destruct (get (rev other) k); [reflexivity|].
  destruct (str_eqb k0 k); reflexivity.
Qed.

Lemma update_normal (other : dict) : forall d,
  normal_tags d -> Forall (fun k => lower k = k) (keys other) ->
  normal_tags (update d other).
Proof.
  unfold update; induction other as [|[k0 v0] other IH]; intros d Hd HL;
    simpl; [assumption|].
  inversion HL; subst; apply IH; [apply set_normal|]; assumption.
Qed.

(** X3. With equal prefixes [merge] returns a URN with that prefix whose
    tags are the union of both, the argument's value winning on a key both
    have. *)
Theorem X3_merge_other_wins (pa pb : str) (da db : dict)
    (Hprefix : lower pa = lower pb) :
  let a := TaggedUrn.__init__ pa da in
  let b := TaggedUrn.__init__ pb db in
  exists m,
    TaggedUrn.merge a b = Ok m
    /\ constructed m
    /\ TaggedUrn.prefix m = TaggedUrn.prefix a
    /\ forall k,
         TaggedUrn.get_tag m k
         = match TaggedUrn.get_tag b k with
           | Some v => Some v
           | None => TaggedUrn.get_tag a k
           end.
Proof.
  intros a b.
  pose proof (init_constructed pa da) as Ha; fold a in Ha.
  pose proof (init_constructed pb db) as Hb; fold b in Hb.
  assert (Hn : normal_tags (update (TaggedUrn.tags a) (TaggedUrn.tags b)))
    by (apply update_normal; [apply Ha | apply Hb]).
  exists (TaggedUrn.mk (TaggedUrn.prefix a)
            (update (TaggedUrn.tags a) (TaggedUrn.tags b))).
  split; [|split; [|split]].
  - unfold TaggedUrn.merge.
    assert (E : TaggedUrn.prefix a = TaggedUrn.prefix b) by exact Hprefix.
    rewrite E, str_eqb_refl; simpl negb; cbv iota.
    rewrite <- E, rebuild_constructed by assumption; reflexivity.
  - split; [apply Ha | exact Hn].
  - reflexivity.
  - intros k; unfold TaggedUrn.get_tag; simpl TaggedUrn.tags at 1.
    rewrite update_get, get_rev_NoDup by apply Hb; reflexivity.
Qed.

Lemma X3_merge_other_wins_witness :
  let a := TaggedUrn.__init__ (lit "cap")
             [(lit "op", lit "generate"); (lit "ext", lit "pdf")] in
  let b := TaggedUrn.__init__ (lit "CAP")
             [(lit "ext", lit "png"); (lit "out", lit "binary")] in
  exists m,
    TaggedUrn.merge a b = Ok m
    /\ TaggedUrn.get_tag m (lit "ext") = Some (lit "png")
    /\ TaggedUrn.get_tag m (lit "op") = Some (lit "generate").
Proof.
  intros a b.
  destruct (@X3_merge_other_wins (lit "cap") (lit "CAP")
              [(lit "op", lit "generate"); (lit "ext", lit "pdf")]
              [(lit "ext", lit "png"); (lit "out", lit "binary")] eq_refl)
    as [m [E [_ [_ G]]]].
  exists m; split; [exact E|]; split; rewrite G; reflexivity.
Defined.

Lemma subset_loop_get (tags : dict) (ks : list str) : forall acc k,
  get (fold_left (fun new_tags key =>
                    match get tags key with
                    | Some v => set new_tags key v
                    | None => new_tags
                    end) ks acc) k
  = if existsb (str_eqb k) ks
    then match get tags k with Some v => Some v | None => get acc k end
    else get acc k.
Proof.
  induction ks as [|k0 ks IH]; intros acc k; simpl; [reflexivity|].
  rewrite IH. destruct (str_eqb_spec k k0) as [->|N]; simpl.
  - destruct (get tags k0) as [v|] eqn:E.
    + rewrite get_set, str_eqb_refl.
      destruct (existsb (str_eqb k0) ks); reflexivity.
    + destruct (existsb (str_eqb k0) ks); reflexivity.
  - destruct (get tags k0) as [v|]; [|reflexivity].
    rewrite get_set.
    destruct (str_eqb_spec k0 k); [congruence | reflexivity].
Qed.

Lemma subset_loop_normal (tags : dict) (ks : list str) :
  Forall (fun k => lower k = k) (keys tags) ->
  forall acc, normal_tags acc ->
    normal_tags (fold_left (fun new_tags key =>
                              match get tags key with
                              | Some v => set new_tags key v
                              | None => new_tags
                              end) ks acc).
Proof.
  intros HL; induction ks as [|k0 ks IH]; intros acc Ha; simpl;
    [assumption|].
  apply IH. destruct (get tags k0) as [v|] eqn:E; [|assumption].
  apply set_normal; [assumption|].
  rewrite Forall_forall in HL; apply HL.
  apply get_In_keys; rewrite E; discriminate.
Qed.

(** X4. [subset] keeps the prefix and exactly the tags whose stored key is
    listed: a key reads as before when its lowercase form is in the list
    and is absent otherwise. *)
Theorem X4_subset_projects (p : str) (d : dict) (ks : list str) :
  let u := TaggedUrn.__init__ p d in
  let u' := TaggedUrn.subset u ks in
  constructed u'
  /\ TaggedUrn.prefix u' = TaggedUrn.prefix u
  /\ forall k,
       TaggedUrn.get_tag u' k
       = if existsb (str_eqb (lower k)) ks then TaggedUrn.get_tag u k
         else None.
Proof.
  intros u u'; pose proof (init_constructed p d) as Hc; fold u in Hc.
  set (loop := fold_left (fun new_tags key =>
                            match get (TaggedUrn.tags u) key with
                            | Some v => set new_tags key v
                            | None => new_tags
                            end) ks []).
  assert (Hn : normal_tags loop)
    by (apply subset_loop_normal; [apply Hc | apply normal_empty]).
  assert (E : u' = TaggedUrn.mk (TaggedUrn.prefix u) loop)
    by (apply rebuild_constructed; assumption).
  rewrite E; split; [|split].
  - split; [apply Hc | exact Hn].
  - reflexivity.
  - intros k; unfold TaggedUrn.get_tag; simpl TaggedUrn.tags at 1.
    unfold loop; rewrite subset_loop_get; cbn [get].
    destruct (existsb (str_eqb (lower k)) ks); [|reflexivity].
    destruct (get (TaggedUrn.tags u) (lower k)); reflexivity.
Qed.

(** X5. [with_wildcard_tag] on a stored key returns a URN in which that
    key reads [*] and every other key reads as before; on a key that is
    not stored it returns the URN itself. *)
Theorem X5_with_wildcard_tag (p : str) (d : dict) (key : str) :
  let u := TaggedUrn.__init__ p d in
  let u' := TaggedUrn.with_wildcard_tag u key in
  (get (TaggedUrn.tags u) key = None -> u' = u)
  /\ (get (TaggedUrn.tags u) key <> None ->
      constructed u'
      /\ TaggedUrn.prefix u' = TaggedUrn.prefix u
      /\ TaggedUrn.get_tag u' key = Some (lit "*")
      /\ keys (TaggedUrn.tags u') = keys (TaggedUrn.tags u)
      /\ forall k', lower k' <> key ->
           TaggedUrn.get_tag u' k' = TaggedUrn.get_tag u k').
Proof.
  intros u u'; pose proof (init_constructed p d) as Hc; fold u in Hc.
  unfold u', TaggedUrn.with_wildcard_tag, mem; split.
  - intros ->; reflexivity.
  - intros Hin. destruct (get (TaggedUrn.tags u) key) eqn:G; [|congruence].
    assert (Ik : In key (keys (TaggedUrn.tags u)))
      by (apply get_In_keys; rewrite G; discriminate).
    assert (Hl : lower key = key).
    { destruct Hc as [_ [_ HL]]; rewrite Forall_forall in HL; apply HL, Ik. }
    assert (Hn : normal_tags (set (TaggedUrn.tags u) key (lit "*")))
      by (apply set_normal; [apply Hc | exact Hl]).
    unfold TaggedUrn._with_tag_unchecked; rewrite Hl.
    rewrite rebuild_constructed by assumption.
    split; [split; [apply Hc | exact Hn]|].
    split; [reflexivity|].
    unfold TaggedUrn.get_tag; simpl TaggedUrn.tags.
    split; [rewrite Hl, get_set, str_eqb_refl; reflexivity|].
    split; [apply keys_set_present, Ik|].
    intros k' Hk; rewrite get_set.
    destruct (str_eqb_spec key (lower k')); [congruence | reflexivity].
Qed.

Lemma X5_with_wildcard_tag_witness :
  let u := TaggedUrn.__init__ (lit "cap")
             [(lit "op", lit "generate"); (lit "ext", lit "pdf")] in
  TaggedUrn.with_wildcard_tag u (lit "fmt") = u
  /\ TaggedUrn.get_tag (TaggedUrn.with_wildcard_tag u (lit "ext")) (lit "ext")
     = Some (lit "*").
Proof.
  intros u.
  destruct (X5_with_wildcard_tag (lit "cap")
              [(lit "op", lit "generate"); (lit "ext", lit "pdf")]
              (lit "fmt")) as [A _].
  destruct (X5_with_wildcard_tag (lit "cap")
              [(lit "op", lit "generate"); (lit "ext", lit "pdf")]
              (lit "ext")) as [_ B].
  split; [apply A; reflexivity|].
  destruct B as [_ [_ [G _]]]; [discriminate | exact G].
Defined.

(** ** Specificity *)

Lemma specificity_step (n : nat) (v : str) :
  (if str_eqb v (lit "?") then n + 0
   else if str_eqb v (lit "!") then n + 1
   else if str_eqb v (lit "*") then n + 2
   else n + 3)
  = n + score v.
Proof. unfold score, Spec.tag_value; str_cases; reflexivity. Qed.

Lemma specificity_fold (l : list str) : forall n,
  fold_left (fun score v =>
               if str_eqb v (lit "?") then score + 0
               else if str_eqb v (lit "!") then score + 1
               else if str_eqb v (lit "*") then score + 2
               else score + 3) l n
  = n + list_sum (map score l).
Proof.
  induction l as [|v l IH]; intros n; simpl; [lia|].
  rewrite specificity_step, IH; lia.
Qed.

Lemma specificity_sum (u : TaggedUrn.t) :
  TaggedUrn.specificity u = list_sum (map score (values (TaggedUrn.tags u))).
Proof. unfold TaggedUrn.specificity; rewrite specificity_fold; reflexivity. Qed.

Lemma score_le_3 (v : str) : score v <= 3.
Proof. unfold score; destruct (Spec.tag_value v); lia. Qed.

Lemma tuple_fold (l : list str) : forall e a n,
  exists e' a' n',
    fold_left (fun '(exact, must_have_any, must_not) v =>
                 if str_eqb v (lit "?") then (exact, must_have_any, must_not)
                 else if str_eqb v (lit "!")
                      then (exact, must_have_any, must_not + 1)
                 else if str_eqb v (lit "*")
                      then (exact, must_have_any + 1, must_not)
                 else (exact + 1, must_have_any, must_not))
              l (e, a, n)
    = (e', a', n')
    /\ 3 * e' + 2 * a' + n'
       = 3 * e + 2 * a + n + list_sum (map score l)
    /\ e' + a' + n' <= e + a + n + List.length l.
Proof.
  induction l as [|v l IH]; intros e a n.
  - exists e, a, n; simpl; repeat split; lia.
  - change (list_sum (map score (v :: l)))
      with (score v + list_sum (map score l)).
    cbn [fold_left List.length].
    destruct (str_eqb_spec v (lit "?")) as [->|N1].
    { destruct (IH e a n) as [e' [a' [n' [E [H1 H2]]]]].
      exists e', a', n'; split; [exact E|].
      replace (score (lit "?")) with 0 by reflexivity; lia. }
    destruct (str_eqb_spec v (lit "!")) as [->|N2].
    { destruct (IH e a (n + 1)) as [e' [a' [n' [E [H1 H2]]]]].
      exists e', a', n'; split; [exact E|].
      replace (score (lit "!")) with 1 by reflexivity; lia. }
    destruct (str_eqb_spec v (lit "*")) as [->|N3].
    { destruct (IH e (a + 1) n) as [e' [a' [n' [E [H1 H2]]]]].
      exists e', a', n'; split; [exact E|].
      replace (score (lit "*")) with 2 by reflexivity; lia. }
    destruct (IH (e + 1) a n) as [e' [a' [n' [E [H1 H2]]]]].
    exists e', a', n'; split; [exact E|].
    assert (S3 : score v = 3).
    { unfold score, Spec.tag_value. apply str_eqb_neq in N1, N2, N3.
      rewrite N1, N2, N3; reflexivity. }
    rewrite S3; lia.
Qed.

(** X6. [specificity] is the sum of the per-tag points; it equals three
    times the exact count plus twice the must-have-any count plus the
    must-not count of [specificity_tuple]; the three counts together do
    not exceed the number of tags, and the score is at most three per
    tag. *)
Theorem X6_specificity_of_tuple (u : TaggedUrn.t) :
  TaggedUrn.specificity u = list_sum (map score (values (TaggedUrn.tags u)))
  /\ (let '(exact, must_have_any, must_not) := TaggedUrn.specificity_tuple u in
      TaggedUrn.specificity u = 3 * exact + 2 * must_have_any + must_not
      /\ exact + must_have_any + must_not <= List.length (TaggedUrn.tags u))
  /\ TaggedUrn.specificity u <= 3 * List.length (TaggedUrn.tags u).
Proof.
  split; [apply specificity_sum|]; split.
  - unfold TaggedUrn.specificity_tuple.
    destruct (tuple_fold (values (TaggedUrn.tags u)) 0 0 0)
      as [e [a [n [E [H1 H2]]]]].
    rewrite E, specificity_sum; split; [lia|].
    unfold values in H2; rewrite length_map in H2; lia.
  - rewrite specificity_sum; unfold values.
    induction (TaggedUrn.tags u) as [|[k v] l IH]; simpl; [lia|].
    pose proof (score_le_3 v); lia.
Qed.

(** ** Laws of matching *)

Lemma values_match_refl (v : option str) : TaggedUrn._values_match v v = true.
Proof. unfold_values; destruct v as [x|]; simpl; str_cases; auto. Qed.

Lemma values_compatible_refl (v : option str) :
  TaggedUrn._values_compatible v v = true.
Proof. unfold_values; destruct v as [x|]; simpl; str_cases; auto. Qed.

Lemma values_match_compatible (i p : option str) :
  TaggedUrn._values_match i p = true ->
  TaggedUrn._values_compatible i p = true.
Proof.
  unfold_values; destruct i as [x|], p as [y|]; simpl; str_cases; auto.
Qed.

Lemma conforms_Ok_prefix (i p : TaggedUrn.t) (b : bool) :
  TaggedUrn.conforms_to i p = Ok b -> TaggedUrn.prefix i = TaggedUrn.prefix p.
Proof.
  unfold TaggedUrn.conforms_to, TaggedUrn._check_match.
  destruct (str_eqb_spec (TaggedUrn.prefix i) (TaggedUrn.prefix p));
    [auto | discriminate].
Qed.

(** X7. Every URN conforms to itself, accepts itself and is compatible
    with itself, and none is more specific than itself. *)
Theorem X7_matching_reflexive (u : TaggedUrn.t) :
  TaggedUrn.conforms_to u u = Ok true
  /\ TaggedUrn.accepts u u = Ok true
  /\ TaggedUrn.is_compatible_with u u = Ok true
  /\ TaggedUrn.is_more_specific_than u u = Ok false.
Proof.
  assert (Hc : TaggedUrn.is_compatible_with u u = Ok true).
  { rewrite compatible_same_prefix by reflexivity.
    apply Ok_true_inv, compatible_all_keys; intros k.
    apply values_compatible_refl. }
  assert (Hm : TaggedUrn.accepts u u = Ok true).
  { rewrite accepts_same_prefix by reflexivity.
    apply Ok_true_inv, check_match_all_keys; intros k.
    apply values_match_refl. }
  repeat split; try assumption.
  unfold TaggedUrn.is_more_specific_than.
  rewrite str_eqb_refl, Hc; simpl; rewrite Nat.ltb_irrefl; reflexivity.
Qed.

(** X8. An instance that conforms to a pattern is compatible with it, in
    both directions. *)
Theorem X8_conforming_is_compatible (i p : TaggedUrn.t)
    (Hconf : TaggedUrn.conforms_to i p = Ok true) :
  TaggedUrn.is_compatible_with i p = Ok true
  /\ TaggedUrn.is_compatible_with p i = Ok true.
Proof.
  pose proof (conforms_Ok_prefix _ _ Hconf) as Ep.
  change (TaggedUrn.conforms_to i p) with (TaggedUrn.accepts p i) in Hconf.
  rewrite accepts_same_prefix in Hconf by assumption.
  apply Ok_true_inv in Hconf; rewrite check_match_all_keys in Hconf.
  rewrite !compatible_same_prefix by congruence.
  split; apply Ok_true_inv, compatible_all_keys; intros k.
  - apply values_match_compatible, Hconf.
  - rewrite values_compatible_sym; apply values_match_compatible, Hconf.
Qed.

Lemma X8_conforming_is_compatible_witness :
  let i := TaggedUrn.mk (lit "cap")
             [(lit "op", lit "generate"); (lit "ext", lit "pdf")] in
  let p := TaggedUrn.mk (lit "cap")
             [(lit "op", lit "*"); (lit "dry", lit "!")] in
  TaggedUrn.conforms_to i p = Ok true
  /\ TaggedUrn.is_compatible_with i p = Ok true
  /\ TaggedUrn.is_compatible_with p i = Ok true.
Proof.
  intros i p; split; [reflexivity|].
  apply (@X8_conforming_is_compatible i p); reflexivity.
Defined.

(** X9. The empty URN of a prefix, as a pattern, accepts every URN of
    that prefix; as an instance, it conforms to a pattern of that prefix
    exactly when every tag of the pattern is [?] or [!]; its text is the
    prefix and a colon. *)
Theorem X9_empty_urn (p : str) :
  TaggedUrn.to_string (TaggedUrn.empty p) = lower p ++ lit ":"
  /\ (forall i, TaggedUrn.prefix i = lower p ->
        TaggedUrn.accepts (TaggedUrn.empty p) i = Ok true
        /\ TaggedUrn.conforms_to i (TaggedUrn.empty p) = Ok true)
  /\ (forall pattern, TaggedUrn.prefix pattern = lower p ->
        (TaggedUrn.conforms_to (TaggedUrn.empty p) pattern = Ok true
         <-> forall k v, get (TaggedUrn.tags pattern) k = Some v ->
                         v = lit "?" \/ v = lit "!")).
Proof.
  split; [reflexivity|]; split.
  - intros i Hi.
    assert (E : TaggedUrn.accepts (TaggedUrn.empty p) i = Ok true).
    { rewrite accepts_same_prefix by exact Hi.
      apply Ok_true_inv, check_match_all_keys; intros k; simpl.
      unfold_values; destruct (get (TaggedUrn.tags i) k); reflexivity. }
    split; exact E.
  - intros pattern Hp.
    change (TaggedUrn.conforms_to (TaggedUrn.empty p) pattern)
      with (TaggedUrn.accepts pattern (TaggedUrn.empty p)).
    rewrite accepts_same_prefix by (symmetry; exact Hp).
    rewrite Ok_true_inv, check_match_all_keys; simpl; split.
    + intros H k v G; specialize (H k); rewrite G in H.
      revert H; unfold_values; simpl; str_cases; auto.
    + intros H k; destruct (get (TaggedUrn.tags pattern) k) as [v|] eqn:G;
        [|reflexivity].
      destruct (H k v G) as [-> | ->]; reflexivity.
Qed.

Lemma X9_empty_urn_witness :
  TaggedUrn.accepts (TaggedUrn.empty (lit "Cap"))
    (TaggedUrn.mk (lit "cap") [(lit "op", lit "generate")]) = Ok true
  /\ TaggedUrn.conforms_to (TaggedUrn.empty (lit "Cap"))
       (TaggedUrn.mk (lit "cap") [(lit "dry", lit "!")]) = Ok true.
Proof.
  destruct (X9_empty_urn (lit "Cap")) as [_ [A B]].
  split.
  - destruct (A (TaggedUrn.mk (lit "cap") [(lit "op", lit "generate")])
                eq_refl) as [E _].
    exact E.
  - apply (B (TaggedUrn.mk (lit "cap") [(lit "dry", lit "!")]) eq_refl).
    intros k v; cbn [TaggedUrn.tags get].
    destruct (str_eqb (lit "dry") k); intros E; inversion E.
    right; reflexivity.
Defined.

(** X10. With equal prefixes, [is_more_specific_than] holds exactly when
    the two URNs are compatible and the first scores strictly higher; it
    never holds in both directions. *)
Theorem X10_more_specific_asymmetric (a b : TaggedUrn.t)
    (Hprefix : TaggedUrn.prefix a = TaggedUrn.prefix b) :
  (TaggedUrn.is_more_specific_than a b = Ok true
   <-> TaggedUrn.is_compatible_with a b = Ok true
       /\ TaggedUrn.specificity b < TaggedUrn.specificity a)
  /\ (TaggedUrn.is_more_specific_than a b = Ok true ->
      TaggedUrn.is_more_specific_than b a = Ok false).
Proof.
  assert (Hab : forall x y, TaggedUrn.prefix x = TaggedUrn.prefix y ->
            exists c,
              TaggedUrn.is_compatible_with x y = Ok c
              /\ TaggedUrn.is_more_specific_than x y
                 = Ok (c && (TaggedUrn.specificity y
                             <? TaggedUrn.specificity x))).
  { intros x y E; eexists; split; [apply compatible_same_prefix, E|].
    unfold TaggedUrn.is_more_specific_than.
    rewrite compatible_same_prefix by exact E.
    rewrite E, str_eqb_refl; simpl.
    destruct (TaggedUrn._compatible_loop _ _ _); reflexivity. }
  destruct (Hab a b Hprefix) as [c [Ec Em]].
  destruct (Hab b a (eq_sym Hprefix)) as [c' [Ec' Em']].
  rewrite Em, Em', Ec; split.
  - rewrite !Ok_true_inv, andb_true_iff, Nat.ltb_lt; tauto.
  - rewrite Ok_true_inv, andb_true_iff, Nat.ltb_lt; intros [_ L].
    f_equal; apply andb_false_iff; right; apply Nat.ltb_ge; lia.
Qed.

Lemma X10_more_specific_asymmetric_witness :
  let a := TaggedUrn.mk (lit "cap")
             [(lit "op", lit "generate"); (lit "ext", lit "pdf")] in
  let b := TaggedUrn.mk (lit "cap") [(lit "op", lit "*")] in
  TaggedUrn.is_more_specific_than a b = Ok true
  /\ TaggedUrn.is_more_specific_than b a = Ok false.
Proof.
  intros a b; split; [reflexivity|].
  destruct (@X10_more_specific_asymmetric a b eq_refl) as [_ H].
  apply H; reflexivity.
Defined.

(** ** All matches *)

Lemma collect_same_prefix (request : TaggedUrn.t) (urns : list TaggedUrn.t) :
  forall results,
    (forall u, In u urns -> TaggedUrn.prefix u = TaggedUrn.prefix request) ->
    UrnMatcher.collect_matches urns request results
    = Ok (results ++ filter (conforming request) urns).
Proof.
  induction urns as [|u rest IH]; intros results Hp; simpl.
  - rewrite app_nil_r; reflexivity.
  - rewrite (@conforms_same_prefix request u) by (apply Hp; left; reflexivity).
    simpl; destruct (conforming request u).
    + rewrite IH by (intros x Hx; apply Hp; right; exact Hx).
      rewrite <- app_assoc; reflexivity.
    + apply IH; intros x Hx; apply Hp; right; exact Hx.
Qed.

Lemma insert_by_specificity_perm (x : TaggedUrn.t) (l : list TaggedUrn.t) :
  Permutation (UrnMatcher.insert_by_specificity x l) (x :: l).
Proof.
  induction l as [|y l IH]; simpl; [reflexivity|].
  destruct (TaggedUrn.specificity x <? TaggedUrn.specificity y);
    [|reflexivity].
  rewrite IH; apply perm_swap.
Qed.

Lemma sort_by_specificity_perm (l : list TaggedUrn.t) :
  Permutation (UrnMatcher.sort_by_specificity l) l.
Proof.
  induction l as [|x l IH]; simpl; [reflexivity|].
  rewrite insert_by_specificity_perm, IH; reflexivity.
Qed.

Lemma insert_by_specificity_descending (x : TaggedUrn.t)
    (l : list TaggedUrn.t) :
  descending l -> descending (UrnMatcher.insert_by_specificity x l).
Proof.
  unfold descending; induction l as [|y l IH]; simpl; intros H.
  - repeat constructor.
  - inversion H as [|? ? Hs Hf]; subst.
    destruct (TaggedUrn.specificity x <? TaggedUrn.specificity y) eqn:E.
    + apply Nat.ltb_lt in E. constructor; [apply IH, Hs|].
      eapply Permutation_Forall;
        [symmetry; apply insert_by_specificity_perm|].
      constructor; [lia | assumption].
    + apply Nat.ltb_ge in E. constructor; [assumption|].
      constructor; [assumption|].
      eapply Forall_impl; [|exact Hf]; simpl; intros z Hz; lia.
Qed.

Lemma sort_by_specificity_descending (l : list TaggedUrn.t) :
  descending (UrnMatcher.sort_by_specificity l).
Proof.
  induction l as [|x l IH]; simpl;
    [constructor | apply insert_by_specificity_descending, IH].
Qed.

Lemma insert_by_specificity_stable (n : nat) (x : TaggedUrn.t)
    (l : list TaggedUrn.t) :
  scoring n (UrnMatcher.insert_by_specificity x l) = scoring n (x :: l).
Proof.
  unfold scoring; induction l as [|y l IH]; [reflexivity|].
  cbn [UrnMatcher.insert_by_specificity].
  destruct (TaggedUrn.specificity x <? TaggedUrn.specificity y) eqn:E;
    [|reflexivity].
  apply Nat.ltb_lt in E.
  cbn [filter] in *; rewrite IH.
  destruct (Nat.eqb_spec (TaggedUrn.specificity x) n),
           (Nat.eqb_spec (TaggedUrn.specificity y) n);
    try reflexivity; lia.
Qed.

Lemma sort_by_specificity_stable (n : nat) (l : list TaggedUrn.t) :
  scoring n (UrnMatcher.sort_by_specificity l) = scoring n l.
Proof.
  induction l as [|x l IH]; [reflexivity|].
  cbn [UrnMatcher.sort_by_specificity fold_right].
  rewrite insert_by_specificity_stable.
  unfold scoring in *; cbn [filter].
  fold (UrnMatcher.sort_by_specificity l); rewrite IH; reflexivity.
Qed.

(** X11. With every candidate sharing the request's prefix,
    [find_all_matches] returns exactly the conforming candidates, in
    descending order of specificity, candidates of equal specificity
    keeping the order they have in the input. *)
Theorem X11_find_all_matches_sorted_stable
    (urns : list TaggedUrn.t) (request : TaggedUrn.t)
    (Hprefix : forall u, In u urns ->
                 TaggedUrn.prefix u = TaggedUrn.prefix request) :
  exists l,
    UrnMatcher.find_all_matches urns request = Ok l
    /\ Permutation l (filter (conforming request) urns)
    /\ (forall u, In u l <->
          In u urns /\ TaggedUrn.conforms_to u request = Ok true)
    /\ descending l
    /\ forall n, scoring n l = scoring n (filter (conforming request) urns).
Proof.
  exists (UrnMatcher.sort_by_specificity (filter (conforming request) urns)).
  split; [|split; [|split; [|split]]].
  - unfold UrnMatcher.find_all_matches.
    rewrite collect_same_prefix by assumption; reflexivity.
  - apply sort_by_specificity_perm.
  - intros u; split.
    + intros I.
      apply (Permutation_in _ (sort_by_specificity_perm _)) in I.
      apply filter_In in I; destruct I as [I C]; split; [exact I|].
      rewrite (@conforms_same_prefix request u) by (apply Hprefix, I).
      rewrite C; reflexivity.
    + intros [I C].
      apply (Permutation_in _ (Permutation_sym (sort_by_specificity_perm _))).
      apply filter_In; split; [exact I|].
      rewrite (@conforms_same_prefix request u) in C by (apply Hprefix, I).
      inversion C; reflexivity.
  - apply sort_by_specificity_descending.
  - intros n; apply sort_by_specificity_stable.
Qed.

Lemma X11_find_all_matches_sorted_stable_witness :
  let u1 := TaggedUrn.mk (lit "cap") [(lit "op", lit "*")] in
  let u2 := TaggedUrn.mk (lit "cap")
              [(lit "op", lit "generate"); (lit "ext", lit "pdf")] in
  let u3 := TaggedUrn.mk (lit "cap") [(lit "op", lit "extract")] in
  let u4 := TaggedUrn.mk (lit "cap")
              [(lit "op", lit "generate"); (lit "fmt", lit "a4")] in
  let request := TaggedUrn.mk (lit "cap") [(lit "op", lit "generate")] in
  UrnMatcher.find_all_matches [u1; u2; u3; u4] request = Ok [u2; u4; u1]
  /\ exists l,
       UrnMatcher.find_all_matches [u1; u2; u3; u4] request = Ok l
       /\ descending l.
Proof.
  intros u1 u2 u3 u4 request; split; [reflexivity|].
  destruct (@X11_find_all_matches_sorted_stable [u1; u2; u3; u4] request)
    as [l [E [_ [_ [D _]]]]].
  - intros u [<-|[<-|[<-|[<-|[]]]]]; reflexivity.
  - exists l; split; assumption.
Defined.

Lemma sort_head (x : TaggedUrn.t) (after : list TaggedUrn.t) :
  forall before,
    (forall u, In u before ->
       TaggedUrn.specificity u < TaggedUrn.specificity x) ->
    (forall u, In u after ->
       TaggedUrn.specificity u <= TaggedUrn.specificity x) ->
    exists tl,
      UrnMatcher.sort_by_specificity (before ++ x :: after) = x :: tl.
Proof.
  intros before; induction before as [|b before IH]; intros Hb Ha.
  - cbn [app UrnMatcher.sort_by_specificity fold_right].
    fold (UrnMatcher.sort_by_specificity after).
    pose proof (sort_by_specificity_perm after) as P.
    destruct (UrnMatcher.sort_by_specificity after) as [|y tl];
      [exists []; reflexivity|].
    assert (L : TaggedUrn.specificity y <= TaggedUrn.specificity x).
    { apply Ha, (Permutation_in _ P); left; reflexivity. }
    cbn [UrnMatcher.insert_by_specificity].
    apply Nat.ltb_ge in L; rewrite L; eexists; reflexivity.
  - destruct IH as [tl E];
      [intros u Hu; apply Hb; right; exact Hu | exact Ha |].
    cbn [app UrnMatcher.sort_by_specificity fold_right].
    fold (UrnMatcher.sort_by_specificity (before ++ x :: after)).
    rewrite E; cbn [UrnMatcher.insert_by_specificity].
    assert (L : TaggedUrn.specificity b < TaggedUrn.specificity x)
      by (apply Hb; left; reflexivity).
    apply Nat.ltb_lt in L; rewrite L; eexists; reflexivity.
Qed.

(** X12. With every candidate sharing the request's prefix,
    [find_best_match] returns the first element of what
    [find_all_matches] returns, and nothing when that list is empty. *)
Theorem X12_best_match_heads_all_matches
    (urns : list TaggedUrn.t) (request : TaggedUrn.t)
    (Hprefix : forall u, In u urns ->
                 TaggedUrn.prefix u = TaggedUrn.prefix request) :
  UrnMatcher.find_best_match urns request
  = (l <- UrnMatcher.find_all_matches urns request ;; Ok (hd_error l)).
Proof.
  unfold UrnMatcher.find_all_matches, UrnMatcher.find_best_match.
  rewrite collect_same_prefix by assumption; cbn [bind app].
  destruct (find_best_loop_inv request urns None 0 Hprefix)
    as [r [Er [[-> Hall]|[before [x [after [E [-> [Cx [_ [Hb Ha]]]]]]]]]]];
    rewrite Er; f_equal.
  - assert (F : filter (conforming request) urns = []).
    { destruct (filter (conforming request) urns) as [|y l] eqn:F;
        [reflexivity|].
      assert (I : In y (filter (conforming request) urns))
        by (rewrite F; left; reflexivity).
      apply filter_In in I; destruct I as [I C].
      destruct (Hall y I C) as [N _]; exfalso; apply N; reflexivity. }
    rewrite F; reflexivity.
  - rewrite E, filter_app; cbn [filter]; rewrite Cx.
    destruct (@sort_head x (filter (conforming request) after)
                (filter (conforming request) before)) as [tl S].
    + intros u I; apply filter_In in I; destruct I as [I C]; auto.
    + intros u I; apply filter_In in I; destruct I as [I C]; auto.
    + rewrite S; reflexivity.
Qed.

Lemma X12_best_match_heads_all_matches_witness :
  let u1 := TaggedUrn.mk (lit "cap") [(lit "op", lit "*")] in
  let u2 := TaggedUrn.mk (lit "cap")
              [(lit "op", lit "generate"); (lit "ext", lit "pdf")] in
  let request := TaggedUrn.mk (lit "cap") [(lit "op", lit "generate")] in
  UrnMatcher.find_best_match [u1; u2] request = Ok (Some u2)
  /\ UrnMatcher.find_best_match [u1; u2] request
     = (l <- UrnMatcher.find_all_matches [u1; u2] request ;;
        Ok (hd_error l)).
Proof.
  intros u1 u2 request; split; [reflexivity|].
  apply (@X12_best_match_heads_all_matches [u1; u2] request).
  intros u [<-|[<-|[]]]; reflexivity.
Defined.

Lemma conforms_mismatch (u request : TaggedUrn.t) :
  TaggedUrn.prefix u <> TaggedUrn.prefix request ->
  TaggedUrn.conforms_to u request
  = Raise (PrefixMismatchError (TaggedUrn.prefix u)
             (TaggedUrn.prefix request)).
Proof.
  intros N; apply str_eqb_neq in N.
  unfold TaggedUrn.conforms_to, TaggedUrn._check_match; rewrite N.
  reflexivity.
Qed.

(** X13. When some candidate has a prefix other than the request's,
    [find_best_match] and [find_all_matches] raise [PrefixMismatchError]
    for the first such candidate, whatever the candidates before it. *)
Theorem X13_matcher_raises_on_foreign_prefix
    (before after : list TaggedUrn.t) (u request : TaggedUrn.t)
    (Hbefore : forall x, In x before ->
                 TaggedUrn.prefix x = TaggedUrn.prefix request)
    (Hforeign : TaggedUrn.prefix u <> TaggedUrn.prefix request) :
  let e := PrefixMismatchError (TaggedUrn.prefix u)
             (TaggedUrn.prefix request) in
  UrnMatcher.find_best_match (before ++ u :: after) request = Raise e
  /\ UrnMatcher.find_all_matches (before ++ u :: after) request = Raise e.
Proof.
  intros e; split.
  - unfold UrnMatcher.find_best_match.
    generalize (@None TaggedUrn.t) as best; generalize 0 as bs.
    induction before as [|b before IH]; intros bs best; cbn [app].
    + cbn [UrnMatcher.find_best_loop].
      rewrite conforms_mismatch by assumption; reflexivity.
    + cbn [UrnMatcher.find_best_loop].
      rewrite (@conforms_same_prefix request b)
        by (apply Hbefore; left; reflexivity).
      cbn [bind].
      assert (Hb' : forall x, In x before ->
                      TaggedUrn.prefix x = TaggedUrn.prefix request)
        by (intros x Hx; apply Hbefore; right; exact Hx).
      destruct (conforming request b); [|apply IH, Hb'].
      destruct (TaggedUrn.is_none best || (bs <? TaggedUrn.specificity b));
        apply IH, Hb'.
  - unfold UrnMatcher.find_all_matches.
    assert (H : forall results,
               UrnMatcher.collect_matches (before ++ u :: after) request
                 results = Raise e).
    { induction before as [|b before IH]; intros results; cbn [app].
      - cbn [UrnMatcher.collect_matches].
        rewrite conforms_mismatch by assumption; reflexivity.
      - cbn [UrnMatcher.collect_matches].
        rewrite (@conforms_same_prefix request b)
          by (apply Hbefore; left; reflexivity).
        cbn [bind].
        assert (Hb' : forall x, In x before ->
                        TaggedUrn.prefix x = TaggedUrn.prefix request)
          by (intros x Hx; apply Hbefore; right; exact Hx).
        destruct (conforming request b); apply IH, Hb'. }
    rewrite H; reflexivity.
Qed.

Lemma X13_matcher_raises_on_foreign_prefix_witness :
  let u1 := TaggedUrn.mk (lit "cap") [(lit "op", lit "generate")] in
  let u2 := TaggedUrn.mk (lit "other") [(lit "op", lit "generate")] in
  let request := TaggedUrn.mk (lit "cap") [(lit "op", lit "generate")] in
  UrnMatcher.find_best_match [u1; u2; u1] request
  = Raise (PrefixMismatchError (lit "other") (lit "cap"))
  /\ UrnMatcher.find_all_matches [u1; u2; u1] request
     = Raise (PrefixMismatchError (lit "other") (lit "cap")).
Proof.
  intros u1 u2 request.
  apply (@X13_matcher_raises_on_foreign_prefix [u1] [u1] u2 request).
  - intros x [<-|[]]; reflexivity.
  - discriminate.
Defined.

(** ** Compatibility of two collections *)

Lemma any_compatible_same_prefix (u1 : TaggedUrn.t)
    (urns2 : list TaggedUrn.t) :
  (forall u2, In u2 urns2 -> TaggedUrn.prefix u1 = TaggedUrn.prefix u2) ->
  exists b,
    UrnMatcher.any_compatible u1 urns2 = Ok b
    /\ (b = true <->
        exists u2, In u2 urns2
                   /\ TaggedUrn.is_compatible_with u1 u2 = Ok true).
Proof.
  induction urns2 as [|u2 rest IH]; intros Hp; simpl.
  - exists false; split; [reflexivity|].
    split; [discriminate | intros [u2 [[] _]]].
  - rewrite compatible_same_prefix by (apply Hp; left; reflexivity).
    simpl.
    destruct (TaggedUrn._compatible_loop _ (TaggedUrn.tags u1)
                (TaggedUrn.tags u2)) eqn:C.
    + exists true; split; [reflexivity|]; split; [|reflexivity].
      intros _; exists u2; split; [left; reflexivity|].
      rewrite compatible_same_prefix by (apply Hp; left; reflexivity).
      rewrite C; reflexivity.
    + destruct IH as [b [E H]];
        [intros x Hx; apply Hp; right; exact Hx|].
      exists b; split; [exact E|]; rewrite H; split.
      * intros [x [Hx Cx]]; exists x; split; [right; exact Hx | exact Cx].
      * intros [x [[<-|Hx] Cx]]; [|exists x; split; assumption].
        rewrite compatible_same_prefix in Cx
          by (apply Hp; left; reflexivity).
        rewrite C in Cx; discriminate.
Qed.

(** X14. When every URN of the first collection has the same prefix as
    every URN of the second, [are_compatible] returns a boolean, true
    exactly when some pair across the two collections is compatible; it is
    false as soon as either collection is empty. *)
Theorem X14_are_compatible_some_pair (urns1 urns2 : list TaggedUrn.t)
    (Hprefix : forall u1 u2, In u1 urns1 -> In u2 urns2 ->
                 TaggedUrn.prefix u1 = TaggedUrn.prefix u2) :
  exists b,
    UrnMatcher.are_compatible urns1 urns2 = Ok b
    /\ (b = true <->
        exists u1 u2,
          In u1 urns1 /\ In u2 urns2
          /\ TaggedUrn.is_compatible_with u1 u2 = Ok true)
    /\ (urns1 = [] \/ urns2 = [] -> b = false).
Proof.
  induction urns1 as [|u1 rest IH]; simpl.
  - exists false; split; [reflexivity|]; split; [|reflexivity].
    split; [discriminate | intros [u1 [u2 [[] _]]]].
  - destruct (@any_compatible_same_prefix u1 urns2) as [b1 [E1 H1]];
      [intros u2 Hu2; apply Hprefix; [left; reflexivity | exact Hu2]|].
    rewrite E1; simpl. destruct b1.
    + exists true; split; [reflexivity|]; split.
      * split; [|reflexivity]. intros _.
        destruct (proj1 H1 eq_refl) as [u2 [Hu2 C]].
        exists u1, u2; repeat split; auto.
      * intros [N| ->]; [discriminate|].
        destruct (proj1 H1 eq_refl) as [u2 [[] _]].
    + destruct IH as [b [E [H He]]];
        [intros x y Hx Hy; apply Hprefix; [right; exact Hx | exact Hy]|].
      exists b; split; [exact E|]; split.
      * rewrite H; split.
        -- intros [x [y [Hx [Hy C]]]]; exists x, y; repeat split; auto.
        -- intros [x [y [[<-|Hx] [Hy C]]]].
           ++ assert (F : false = true)
                by (apply H1; exists y; split; assumption).
              discriminate.
           ++ exists x, y; repeat split; auto.
      * intros [N| ->]; [discriminate|].
        destruct b; [|reflexivity].
        destruct (proj1 H eq_refl) as [x [y [_ [[] _]]]].
Qed.

Lemma X14_are_compatible_some_pair_witness :
  let a1 := TaggedUrn.mk (lit "cap") [(lit "ext", lit "pdf")] in
  let a2 := TaggedUrn.mk (lit "cap") [(lit "ext", lit "*")] in
  let b1 := TaggedUrn.mk (lit "cap") [(lit "ext", lit "png")] in
  UrnMatcher.are_compatible [a1; a2] [b1] = Ok true
  /\ exists b, UrnMatcher.are_compatible [a1; a2] [b1] = Ok b.
Proof.
  intros a1 a2 b1; split; [reflexivity|].
  destruct (@X14_are_compatible_some_pair [a1; a2] [b1]) as [b [E _]].
  - intros u1 u2 [<-|[<-|[]]] [<-|[]]; reflexivity.
  - exists b; exact E.
Defined.

(** ** Equality *)

Lemma NoDup_keys_items (d : dict) : NoDup (keys d) -> NoDup d.
Proof. apply NoDup_map_inv. Qed.

Lemma dict_eqb_to_perm (d1 d2 : dict) :
  NoDup (keys d1) -> dict_eqb d1 d2 = true -> Permutation d1 d2.
Proof.
  intros ND E; unfold dict_eqb in E.
  apply andb_true_iff in E; destruct E as [L F].
  apply Nat.eqb_eq in L; rewrite forallb_forall in F.
  apply NoDup_Permutation_bis; [apply NoDup_keys_items, ND | lia |].
  intros [k v] I; specialize (F _ I); simpl in F.
  destruct (get d2 k) as [v'|] eqn:G; [|discriminate].
  apply str_eqb_eq in F; subst v'; apply get_Some_In, G.
Qed.

Lemma perm_same_get (d1 d2 : dict) (k : str) :
  NoDup (keys d1) -> NoDup (keys d2) -> Permutation d1 d2 ->
  get d1 k = get d2 k.
Proof.
  intros N1 N2 P. destruct (get d1 k) as [v|] eqn:G.
  - symmetry; apply get_In_NoDup; [exact N2|].
    apply (Permutation_in _ P), get_Some_In, G.
  - symmetry; apply get_None_keys; intros I.
    apply get_None_keys in G; apply G.
    apply (Permutation_in _ (Permutation_sym (Permutation_map fst P))), I.
Qed.

Lemma same_get_perm (d1 d2 : dict) :
  NoDup (keys d1) -> NoDup (keys d2) ->
  (forall k, get d1 k = get d2 k) -> Permutation d1 d2.
Proof.
  intros N1 N2 H.
  apply NoDup_Permutation; try (apply NoDup_keys_items; assumption).
  intros [k v]; split; intros I.
  - apply get_Some_In; rewrite <- H; apply get_In_NoDup; assumption.
  - apply get_Some_In; rewrite H; apply get_In_NoDup; assumption.
Qed.

Lemma eqb_iff_perm (a b : TaggedUrn.t) :
  constructed a -> constructed b ->
  (TaggedUrn.eqb a b = true
   <-> TaggedUrn.prefix a = TaggedUrn.prefix b
       /\ Permutation (TaggedUrn.tags a) (TaggedUrn.tags b)).
Proof.
  intros [_ [Na _]] [_ [Nb _]]; unfold TaggedUrn.eqb.
  rewrite andb_true_iff, str_eqb_eq; split; intros [E H]; split; auto.
  - apply dict_eqb_to_perm; assumption.
  - apply dict_eqb_perm; assumption.
Qed.

Lemma get_nonlower_absent (d : dict) (k : str) :
  Forall (fun x => lower x = x) (keys d) -> lower k <> k -> get d k = None.
Proof.
  intros HL N; apply get_None_keys; intros I.
  rewrite Forall_forall in HL; apply N, HL, I.
Qed.

(** X15. Two constructed URNs are equal exactly when they have the same
    prefix and every key reads the same in both; equality is reflexive,
    symmetric and transitive. *)
Theorem X15_equality_is_extensional (pa pb pc : str) (da db dc : dict) :
  let a := TaggedUrn.__init__ pa da in
  let b := TaggedUrn.__init__ pb db in
  let c := TaggedUrn.__init__ pc dc in
  (TaggedUrn.eqb a b = true
   <-> TaggedUrn.prefix a = TaggedUrn.prefix b
       /\ forall k, TaggedUrn.get_tag a k = TaggedUrn.get_tag b k)
  /\ TaggedUrn.eqb a a = true
  /\ TaggedUrn.eqb a b = TaggedUrn.eqb b a
  /\ (TaggedUrn.eqb a b = true -> TaggedUrn.eqb b c = true ->
      TaggedUrn.eqb a c = true).
Proof.
  intros a b c.
  pose proof (init_constructed pa da) as Ha; fold a in Ha.
  pose proof (init_constructed pb db) as Hb; fold b in Hb.
  pose proof (init_constructed pc dc) as Hc; fold c in Hc.
  split; [|split; [|split]].
  - rewrite eqb_iff_perm by assumption.
    destruct Ha as [_ [Na La]], Hb as [_ [Nb Lb]].
    split; intros [E H]; (split; [exact E|]).
    + intros k; unfold TaggedUrn.get_tag; apply perm_same_get; assumption.
    + apply same_get_perm; try assumption; intros k.
      destruct (list_eq_dec ascii_dec (lower k) k) as [El|Nl].
      * specialize (H k); unfold TaggedUrn.get_tag in H.
        rewrite El in H; exact H.
      * rewrite !get_nonlower_absent by assumption; reflexivity.
  - apply eqb_iff_perm; auto.
  - destruct (TaggedUrn.eqb a b) eqn:E1, (TaggedUrn.eqb b a) eqn:E2;
      try reflexivity.
    + apply eqb_iff_perm in E1; try assumption.
      destruct E1 as [E P].
      assert (F : TaggedUrn.eqb b a = true)
        by (apply eqb_iff_perm; auto; split;
            [congruence | apply Permutation_sym, P]).
      congruence.
    + apply eqb_iff_perm in E2; try assumption.
      destruct E2 as [E P].
      assert (F : TaggedUrn.eqb a b = true)
        by (apply eqb_iff_perm; auto; split;
            [congruence | apply Permutation_sym, P]).
      congruence.
  - intros E1 E2.
    apply eqb_iff_perm in E1; try assumption.
    apply eqb_iff_perm in E2; try assumption.
    apply eqb_iff_perm; try assumption.
    destruct E1 as [P1 Q1], E2 as [P2 Q2]; split; [congruence|].
    eapply Permutation_trans; eassumption.
Qed.

Lemma X15_equality_is_extensional_witness :
  let a := TaggedUrn.__init__ (lit "cap")
             [(lit "op", lit "x"); (lit "ext", lit "pdf")] in
  let b := TaggedUrn.__init__ (lit "CAP")
             [(lit "EXT", lit "pdf"); (lit "Op", lit "x")] in
  TaggedUrn.eqb a b = true /\ TaggedUrn.eqb b a = true
  /\ TaggedUrn.eqb a a = true.
Proof.
  intros a b.
  destruct (X15_equality_is_extensional (lit "cap") (lit "CAP") (lit "cap")
              [(lit "op", lit "x"); (lit "ext", lit "pdf")]
              [(lit "EXT", lit "pdf"); (lit "Op", lit "x")]
              [(lit "op", lit "x"); (lit "ext", lit "pdf")])
    as [_ [R [S T]]].
  split; [reflexivity|]; split.
  - refine (eq_trans (eq_sym S) _); reflexivity.
  - apply T; [reflexivity | refine (eq_trans (eq_sym S) _); reflexivity].
Defined.

Lemma list_sum_perm (l1 l2 : list nat) :
  Permutation l1 l2 -> list_sum l1 = list_sum l2.
Proof. induction 1; simpl; lia. Qed.

(** X16. Equal constructed URNs have the same hash, whatever the built-in
    hash function is, the same canonical text and the same
    specificity. *)
Theorem X16_equal_urns_agree (H : Type)
    (hash : str * list (str * str) -> H)
    (pa pb : str) (da db : dict) :
  let a := TaggedUrn.__init__ pa da in
  let b := TaggedUrn.__init__ pb db in
  TaggedUrn.eqb a b = true ->
  TaggedUrn.__hash__ hash a = TaggedUrn.__hash__ hash b
  /\ TaggedUrn.to_string a = TaggedUrn.to_string b
  /\ TaggedUrn.specificity a = TaggedUrn.specificity b.
Proof.
  intros a b E.
  apply eqb_iff_perm in E; try apply init_constructed.
  destruct E as [Ep P].
  split; [|split].
  - unfold TaggedUrn.__hash__; rewrite Ep, (sorted_of_perm P); reflexivity.
  - unfold TaggedUrn.to_string, TaggedUrn.tags_to_string.
    rewrite Ep, (sorted_of_perm P); reflexivity.
  - rewrite !specificity_sum; apply list_sum_perm.
    unfold values; rewrite !map_map; apply Permutation_map, P.
Qed.

Lemma X16_equal_urns_agree_witness :
  let a := TaggedUrn.__init__ (lit "cap")
             [(lit "op", lit "x"); (lit "ext", lit "pdf")] in
  let b := TaggedUrn.__init__ (lit "CAP")
             [(lit "EXT", lit "pdf"); (lit "Op", lit "x")] in
  TaggedUrn.eqb a b = true
  /\ TaggedUrn.__hash__ (fun key => List.length (snd key)) a
     = TaggedUrn.__hash__ (fun key => List.length (snd key)) b
  /\ TaggedUrn.to_string a = TaggedUrn.to_string b
  /\ TaggedUrn.specificity a = TaggedUrn.specificity b.
Proof.
  intros a b; split; [reflexivity|].
  apply (@X16_equal_urns_agree nat (fun key => List.length (snd key))
           (lit "cap") (lit "CAP")
           [(lit "op", lit "x"); (lit "ext", lit "pdf")]
           [(lit "EXT", lit "pdf"); (lit "Op", lit "x")]).
  reflexivity.
Defined.

(** ** The builder *)

Lemma tag_all_Ok (items : list (str * str)) : forall b,
  Forall (fun kv => snd kv <> []) items ->
  tag_all b items
  = Ok (TaggedUrnBuilder.mk (TaggedUrnBuilder.prefix b)
          (init_tags items (TaggedUrnBuilder.tags b))).
Proof.
  induction items as [|[k v] items IH]; intros b H; simpl.
  - destruct b; reflexivity.
  - inversion H as [|? ? Hv H']; subst; simpl in Hv.
    unfold TaggedUrnBuilder.tag; destruct v as [|c v]; [congruence|].
    simpl; rewrite IH by assumption; reflexivity.
Qed.

Lemma tag_all_Raise (items : list (str * str)) : forall b,
  Exists (fun kv => snd kv = []) items ->
  tag_all b items = Raise EmptyTagComponentError.
Proof.
  induction items as [|[k v] items IH]; intros b H; simpl.
  - inversion H.
  - unfold TaggedUrnBuilder.tag; destruct v as [|c v]; [reflexivity|].
    simpl; apply IH. inversion H as [? ? E|]; [discriminate | assumption].
Qed.

Lemma init_tags_empty (items : list (str * str)) :
  is_empty (init_tags items []) = is_empty items.
Proof.
  destruct items as [|[k v] items]; [reflexivity|].
  destruct (init_tags ((k, v) :: items) []) eqn:E; [|reflexivity].
  exfalso.
  assert (I : In (lower k) (keys (init_tags ((k, v) :: items) []))).
  { apply init_tags_keys; right; exists k; split;
      [left; reflexivity | reflexivity]. }
  rewrite E in I; exact I.
Qed.

(** X17. A builder on which [tag] is called for each item of a list, in
    order, builds the URN the constructor makes from that list; [build]
    refuses to build when no tag was added; an empty value makes the
    chain of [tag] calls fail; [solo_tag] is [tag] with the value [*]. *)
Theorem X17_builder_agrees_with_constructor (p : str)
    (items : list (str * str)) :
  (Forall (fun kv => snd kv <> []) items ->
   exists b,
     tag_all (TaggedUrnBuilder.__init__ p) items = Ok b
     /\ TaggedUrnBuilder.build_allow_empty b = TaggedUrn.__init__ p items
     /\ TaggedUrnBuilder.build b
        = if is_empty items then Raise EmptyError
          else Ok (TaggedUrn.__init__ p items))
  /\ (Exists (fun kv => snd kv = []) items ->
      tag_all (TaggedUrnBuilder.__init__ p) items
      = Raise EmptyTagComponentError)
  /\ (forall b k,
        TaggedUrnBuilder.tag b k (lit "*")
        = Ok (TaggedUrnBuilder.solo_tag b k)).
Proof.
  split; [|split; [apply tag_all_Raise | reflexivity]].
  intros H; eexists; split; [apply tag_all_Ok, H|].
  assert (E : TaggedUrn.__init__ (lower p) (init_tags items [])
              = TaggedUrn.__init__ p items).
  { rewrite init_of_normal.
    - rewrite lower_idem; reflexivity.
    - split; [apply (init_stores_distinct p items)
             | apply (init_stores_lowercase p items)]. }
  split; [exact E|].
  unfold TaggedUrnBuilder.build; simpl.
  rewrite init_tags_empty, E; reflexivity.
Qed.

Lemma X17_builder_agrees_with_constructor_witness :
  exists b,
    tag_all (TaggedUrnBuilder.__init__ (lit "Cap"))
      [(lit "Op", lit "Generate"); (lit "op", lit "extract")] = Ok b
    /\ TaggedUrnBuilder.build b
       = Ok (TaggedUrn.mk (lit "cap") [(lit "op", lit "extract")]).
Proof.
  destruct (X17_builder_agrees_with_constructor (lit "Cap")
              [(lit "Op", lit "Generate"); (lit "op", lit "extract")])
    as [H _].
  destruct H as [b [E [_ B]]].
  - repeat constructor; discriminate.
  - exists b; split; [exact E | exact B].
Defined.

(** ** Optional trailing semicolon *)

Lemma at_end_semicolon (cu : TaggedUrn.cursor) (tags : dict) :
  TaggedUrn.at_end cu = Ok tags ->
  exists cu',
    TaggedUrn.step cu ";" = Ok cu' /\ TaggedUrn.at_end cu' = Ok tags.
Proof.
  destruct cu as [st tgs key value]; destruct st; simpl; try discriminate.
  - intros E; eexists; split; [reflexivity | exact E].
  - destruct (is_empty key); [discriminate|].
    intros E; rewrite E; simpl; eexists; split; reflexivity.
  - intros E; rewrite E; simpl; eexists; split; reflexivity.
  - intros E; rewrite E; simpl; eexists; split; reflexivity.
Qed.

Lemma find_lt (s : str) : forall n,
  find ":" s = Some n -> n < List.length s.
Proof.
  induction s as [|c s IH]; intros n; simpl; [discriminate|].
  destruct (Ascii.eqb c ":"); [intros E; inversion E; lia|].
  destruct (find ":" s) as [m|]; [|discriminate].
  intros E; inversion E; subst; specialize (IH m eq_refl); lia.
Qed.

Lemma find_app (s x : str) (n : nat) :
  find ":" s = Some n -> find ":" (s ++ x) = Some n.
Proof.
  revert n; induction s as [|c s IH]; intros n; simpl; [discriminate|].
  destruct (Ascii.eqb c ":"); [auto|].
  destruct (find ":" s) as [m|]; [|discriminate].
  rewrite (IH m eq_refl); auto.
Qed.

Lemma strip_semicolon (s : str) :
  strip s = s -> s <> [] -> strip (s ++ [";"%char]) = s ++ [";"%char].
Proof.
  intros Hs Hne; destruct s as [|c s]; [congruence|].
  apply (@strip_clean c ";"%char (s ++ [";"%char]) (c :: s));
    [apply (strip_fixed_first Hs) | reflexivity | reflexivity].
Qed.

(** X18. A text the parser accepts is accepted with one more semicolon at
    its end, and parses to the same URN. *)
Theorem X18_trailing_semicolon_ignored (T : str) (u : TaggedUrn.t)
    (Hparse : TaggedUrn.from_string T = Ok u) :
  TaggedUrn.from_string (T ++ [";"%char]) = Ok u.
Proof.
  unfold TaggedUrn.from_string in *.
  destruct (str_eqb_spec T (strip T)) as [Hs|]; [|discriminate].
  cbn [negb] in Hparse.
  destruct T as [|c0 T0] eqn:ET; [discriminate|]; rewrite <- ET in *.
  assert (Hne : T <> []) by (rewrite ET; discriminate).
  rewrite strip_semicolon, str_eqb_refl by (congruence || assumption).
  cbn [negb].
  replace (is_empty T) with false in Hparse by (rewrite ET; reflexivity).
  replace (is_empty (T ++ [";"%char])) with false
    by (rewrite ET; reflexivity).
  destruct (find ":" T) as [[|n]|] eqn:Hf; try discriminate.
  rewrite (@find_app T [";"%char] (S n) Hf).
  pose proof (@find_lt T (S n) Hf) as Hlt.
  rewrite firstn_app, skipn_app.
  replace (S n - List.length T) with 0 by lia.
  replace (S n + 1 - List.length T) with 0 by lia.
  cbn [firstn skipn]; rewrite app_nil_r.
  destruct (skipn (S n + 1) T) as [|b body] eqn:Eb.
  - simpl in Hparse; exact Hparse.
  - destruct (str_eqb_spec (b :: body) (lit ";")) as [E|N].
    + inversion E; subst; simpl in Hparse |- *; exact Hparse.
    + cbn [is_empty orb] in Hparse.
      assert (N2 : str_eqb ((b :: body) ++ [";"%char]) (lit ";") = false).
      { apply str_eqb_neq; destruct body; simpl; discriminate. }
      cbn [app is_empty orb]; cbn [app] in N2; rewrite N2.
      change (b :: body ++ [";"%char]) with ((b :: body) ++ [";"%char]).
      rewrite scan_app.
      destruct (TaggedUrn.scan TaggedUrn.start (b :: body)) as [cu|] eqn:Sc;
        [|discriminate].
      cbn [bind] in Hparse |- *.
      destruct (TaggedUrn.at_end cu) as [tags|] eqn:Ae; [|discriminate].
      destruct (at_end_semicolon _ Ae) as [cu' [St Ae']].
      cbn [TaggedUrn.scan]; rewrite St; cbn [bind]; rewrite Ae'.
      exact Hparse.
Qed.

Lemma X18_trailing_semicolon_ignored_witness :
  TaggedUrn.from_string (lit "cap:op=generate;ext")
  = Ok (TaggedUrn.mk (lit "cap")
          [(lit "op", lit "generate"); (lit "ext", lit "*")])
  /\ TaggedUrn.from_string (lit "cap:op=generate;ext" ++ [";"%char])
     = Ok (TaggedUrn.mk (lit "cap")
             [(lit "op", lit "generate"); (lit "ext", lit "*")]).
Proof.
  split; [reflexivity|].
  apply (@X18_trailing_semicolon_ignored (lit "cap:op=generate;ext")).
  reflexivity.
Defined.

(** ** Case outside quotes *)

Lemma lower_char_class : forall c,
  Ascii.eqb (lower_char c) ";" = Ascii.eqb c ";"
  /\ Ascii.eqb (lower_char c) "=" = Ascii.eqb c "="
  /\ Ascii.eqb (lower_char c) dquote = Ascii.eqb c dquote
  /\ Ascii.eqb (lower_char c) ":" = Ascii.eqb c ":"
  /\ TaggedUrn._is_valid_key_char (lower_char c)
     = TaggedUrn._is_valid_key_char c
  /\ TaggedUrn._is_valid_unquoted_value_char (lower_char c)
     = TaggedUrn._is_valid_unquoted_value_char c.
Proof. char_fact. Qed.

Lemma step_lower (cu : TaggedUrn.cursor) (c : ascii) :
  outside_quotes (TaggedUrn.state cu) = true ->
  Ascii.eqb c dquote = false ->
  TaggedUrn.step cu (lower_char c) = TaggedUrn.step cu c
  /\ forall cu', TaggedUrn.step cu c = Ok cu' ->
                 outside_quotes (TaggedUrn.state cu') = true.
Proof.
  destruct (lower_char_class c) as [E1 [E2 [E3 [_ [E5 E6]]]]].
  destruct cu as [st tags key value]; intros Ho Hq.
  destruct st; try discriminate; cbn [TaggedUrn.step];
    rewrite ?E1, ?E2, ?E3, ?E5, ?E6, ?Hq, ?lower_char_idem;
    (split; [reflexivity|]); intros cu';
    repeat match goal with
           | |- context [if ?b then _ else _] => destruct b
           end;
    try discriminate;
    try (intros E; inversion E; reflexivity);
    match goal with
    | |- context [TaggedUrn._finish_tag ?a ?b ?c] =>
        destruct (TaggedUrn._finish_tag a b c); simpl;
        [intros E; inversion E; reflexivity | discriminate]
    end.
Qed.

Lemma scan_lower (l : str) : forall cu,
  outside_quotes (TaggedUrn.state cu) = true ->
  ~ In dquote l ->
  TaggedUrn.scan cu (lower l) = TaggedUrn.scan cu l.
Proof.
  induction l as [|c l IH]; intros cu Ho Hq; [reflexivity|].
  assert (Hc : Ascii.eqb c dquote = false)
    by (apply Ascii.eqb_neq; intros ->; apply Hq; left; reflexivity).
  destruct (step_lower cu c Ho Hc) as [E Hnext].
  cbn [lower map TaggedUrn.scan]; rewrite E.
  destruct (TaggedUrn.step cu c) as [cu'|]; [|reflexivity].
  cbn [bind]; apply IH; [apply Hnext; reflexivity|].
  intros I; apply Hq; right; exact I.
Qed.

Lemma lstrip_lower (s : str) : lstrip (lower s) = lower (lstrip s).
Proof.
  induction s as [|c s IH]; [reflexivity|].
  cbn [lower map lstrip]; rewrite lower_char_space.
  destruct (isspace c); [exact IH | reflexivity].
Qed.

Lemma strip_lower (s : str) : strip (lower s) = lower (strip s).
Proof.
  unfold strip, rstrip, lower.
  rewrite lstrip_lower; unfold lower.
  rewrite <- map_rev, lstrip_lower; unfold lower.
  rewrite map_rev; reflexivity.
Qed.

Lemma strip_length (s : str) : List.length (strip s) <= List.length s.
Proof.
  unfold strip, rstrip; rewrite length_rev.
  pose proof (lstrip_length (rev (lstrip s))) as L1.
  rewrite length_rev in L1.
  pose proof (lstrip_length s); lia.
Qed.

Lemma lstrip_same_length (s : str) :
  List.length (lstrip s) = List.length s -> lstrip s = s.
Proof.
  destruct s as [|c s]; [reflexivity|]; simpl.
  destruct (isspace c); [|reflexivity].
  pose proof (lstrip_length s); simpl; lia.
Qed.

Lemma strip_same_length (s : str) :
  List.length (strip s) = List.length s -> strip s = s.
Proof.
  unfold strip, rstrip; rewrite length_rev; intros E.
  pose proof (lstrip_length (rev (lstrip s))) as L1.
  rewrite length_rev in L1.
  pose proof (lstrip_length s) as L2.
  assert (E1 : lstrip s = s) by (apply lstrip_same_length; lia).
  rewrite E1 in *.
  rewrite lstrip_same_length by (rewrite length_rev; lia).
  apply rev_involutive.
Qed.

Lemma stripped_lower (s : str) :
  str_eqb (lower s) (strip (lower s)) = str_eqb s (strip s).
Proof.
  rewrite strip_lower.
  destruct (str_eqb_spec s (strip s)) as [E|N].
  - rewrite <- E; apply str_eqb_refl.
  - apply str_eqb_neq; intros E; apply N; symmetry.
    apply strip_same_length.
    apply (f_equal (@List.length ascii)) in E.
    unfold lower in E; rewrite !length_map in E; lia.
Qed.

Lemma find_lower (s : str) : find ":" (lower s) = find ":" s.
Proof.
  induction s as [|c s IH]; [reflexivity|].
  cbn [lower map find].
  destruct (lower_char_class c) as [_ [_ [_ [E _]]]]; rewrite E.
  fold (lower s); rewrite IH; reflexivity.
Qed.

Lemma semicolon_lower (s : str) :
  str_eqb (lower s) (lit ";") = str_eqb s (lit ";").
Proof.
  destruct s as [|c [|d s]]; [reflexivity | |].
  - cbn [lower map lit list_ascii_of_string str_eqb].
    destruct (lower_char_class c) as [E _]; rewrite E; reflexivity.
  - cbn [lower map lit list_ascii_of_string str_eqb].
    rewrite !andb_false_r; reflexivity.
Qed.

Lemma firstn_lower (n : nat) (s : str) :
  firstn n (lower s) = lower (firstn n s).
Proof. apply firstn_map. Qed.

Lemma skipn_lower (n : nat) (s : str) :
  skipn n (lower s) = lower (skipn n s).
Proof. apply skipn_map. Qed.

(** X19. On texts of code points below 256 the parser ignores case
    outside quotes: such a text without a double quote and its lowercase
    form give the same result, the same URN or the same error.  (The
    statement is about this alphabet, where [lower] maps a character to
    one character of the same class.) *)
Theorem X19_parse_ignores_case_outside_quotes (T : str)
    (Hunquoted : ~ In dquote T) :
  TaggedUrn.from_string (lower T) = TaggedUrn.from_string T.
Proof.
  unfold TaggedUrn.from_string.
  rewrite stripped_lower, find_lower.
  replace (is_empty (lower T)) with (is_empty T)
    by (destruct T; reflexivity).
  destruct (negb (str_eqb T (strip T))); [reflexivity|].
  destruct (is_empty T); [reflexivity|].
  destruct (find ":" T) as [[|n]|]; try reflexivity.
  rewrite !firstn_lower, !skipn_lower, !lower_idem, semicolon_lower.
  replace (is_empty (lower (skipn (S n + 1) T)))
    with (is_empty (skipn (S n + 1) T))
    by (destruct (skipn (S n + 1) T); reflexivity).
  rewrite scan_lower; [reflexivity | reflexivity |].
  intros I; apply Hunquoted.
  rewrite <- (firstn_skipn (S n + 1) T); apply in_or_app; right; exact I.
Qed.

Lemma X19_parse_ignores_case_outside_quotes_witness :
  TaggedUrn.from_string (lit "CAP:Op=Generate;EXT")
  = TaggedUrn.from_string (lit "cap:op=generate;ext")
  /\ TaggedUrn.from_string (lit "cap:op=generate;ext")
     = Ok (TaggedUrn.mk (lit "cap")
             [(lit "op", lit "generate"); (lit "ext", lit "*")]).
Proof.
  split; [|reflexivity].
  symmetry.
  apply (@X19_parse_ignores_case_outside_quotes (lit "CAP:Op=Generate;EXT")).
  simpl; intuition discriminate.
Defined.

(** ** Canonical text *)

(** X20. When a text parses and the result meets [reads_back] (its keys
    and the values written unquoted are made of valid characters that
    [lower] leaves unchanged), [canonical] returns the serialized parse,
    and the canonical text is its own canonical form; [canonical_option]
    does the same on a present text and passes an absent one through. *)
Theorem X20_canonical_idempotent (T : str) (u : TaggedUrn.t)
    (Hparse : TaggedUrn.from_string T = Ok u)
    (Hu : reads_back u = true) :
  TaggedUrn.canonical T = Ok (TaggedUrn.to_string u)
  /\ TaggedUrn.canonical (TaggedUrn.to_string u) = Ok (TaggedUrn.to_string u)
  /\ TaggedUrn.canonical_option (Some T) = Ok (Some (TaggedUrn.to_string u))
  /\ TaggedUrn.canonical_option (Some (TaggedUrn.to_string u))
     = Ok (Some (TaggedUrn.to_string u))
  /\ TaggedUrn.canonical_option None = Ok None.
Proof.
  pose proof (reads_back_text u Hu) as E.
  assert (Hs : TaggedUrn.to_string
                 (TaggedUrn.mk (TaggedUrn.prefix u)
                    (sorted (TaggedUrn.tags u)))
               = TaggedUrn.to_string u)
    by (rewrite to_string_sorted; destruct u; reflexivity).
  unfold TaggedUrn.canonical, TaggedUrn.canonical_option.
  rewrite Hparse, E; simpl; rewrite Hs; repeat split.
Qed.

Lemma X20_canonical_idempotent_witness :
  TaggedUrn.canonical (lit "CAP:Op=Generate;ext;")
  = Ok (lit "cap:ext;op=generate")
  /\ TaggedUrn.canonical (lit "cap:ext;op=generate")
     = Ok (lit "cap:ext;op=generate").
Proof.
  destruct (@X20_canonical_idempotent (lit "CAP:Op=Generate;ext;")
              (TaggedUrn.mk (lit "cap")
                 [(lit "op", lit "generate"); (lit "ext", lit "*")])
              eq_refl eq_refl) as [A [B _]].
  split; [exact A | exact B].
Defined.

(** ** What a parsed URN looks like *)

Lemma find_Some_In (s : str) : forall n, find ":" s = Some n -> In ":"%char s.
Proof.
  induction s as [|c s IH]; intros n; simpl; [discriminate|].
  destruct (Ascii.eqb_spec c ":") as [->|N]; [auto|].
  destruct (find ":" s) as [m|]; [|discriminate].
  intros _; right; apply (IH m eq_refl).
Qed.

(** X21. A text the parser accepts has no outer whitespace and contains a
    colon; the URN it returns is what the constructor would store, has a
    non-empty prefix without colon that equals its lowercase form, and has
    distinct keys, each non-empty, equal to its lowercase form and not
    purely numeric, each with a non-empty value. *)
Theorem X21_parsed_urn_invariants (s : str) (u : TaggedUrn.t)
    (Hparse : TaggedUrn.from_string s = Ok u) :
  strip s = s
  /\ In ":"%char s
  /\ constructed u
  /\ TaggedUrn.__init__ (TaggedUrn.prefix u) (TaggedUrn.tags u) = u
  /\ TaggedUrn.prefix u <> []
  /\ ~ In ":"%char (TaggedUrn.prefix u)
  /\ forall k v, In (k, v) (TaggedUrn.tags u) ->
       k <> [] /\ lower k = k
       /\ TaggedUrn._is_purely_numeric k = false
       /\ v <> [].
Proof.
  destruct (parsed_lowered s Hparse) as [Hne [Hcolon [Hlow Ht]]].
  assert (Hc : constructed u)
    by (split; [exact Hlow | apply lowered_normal, Ht]).
  assert (Hs : strip s = s /\ In ":"%char s).
  { unfold TaggedUrn.from_string in Hparse.
    destruct (str_eqb_spec s (strip s)) as [E|]; [|discriminate].
    split; [symmetry; exact E|].
    cbn [negb] in Hparse. destruct (is_empty s); [discriminate|].
    destruct (find ":" s) as [n|] eqn:Hf; [|discriminate].
    apply (find_Some_In _ Hf). }
  destruct Hs as [Hs1 Hs2].
  split; [exact Hs1|]; split; [exact Hs2|]; split; [exact Hc|].
  split; [apply constructed_self, Hc|].
  split; [exact Hne|]; split; [exact Hcolon|].
  intros k v I; destruct Ht as [_ HF].
  rewrite Forall_forall in HF.
  destruct (HF _ I) as [H1 [[H2 _] [H3 H4]]]; auto.
Qed.

Lemma X21_parsed_urn_invariants_witness :
  let u := TaggedUrn.mk (lit "cap")
             [(lit "op", lit "generate"); (lit "ext", lit "*")] in
  TaggedUrn.from_string (lit "Cap:OP=Generate;ext") = Ok u
  /\ constructed u.
Proof.
  intros u; split; [reflexivity|].
  destruct (@X21_parsed_urn_invariants (lit "Cap:OP=Generate;ext") u eq_refl)
    as [_ [_ [H _]]].
  exact H.
Defined.

(** X22. On well-formed URNs the canonical text identifies the URN: two
    well-formed URNs with the same text are equal. *)
Theorem X22_to_string_injective (a b : TaggedUrn.t)
    (Ha : well_formed a = true) (Hb : well_formed b = true)
    (Htext : TaggedUrn.to_string a = TaggedUrn.to_string b) :
  TaggedUrn.eqb a b = true
  /\ TaggedUrn.prefix a = TaggedUrn.prefix b
  /\ Permutation (TaggedUrn.tags a) (TaggedUrn.tags b).
Proof.
  pose proof (from_string_to_string a Ha) as Ea.
  pose proof (from_string_to_string b Hb) as Eb.
  rewrite Htext, Eb in Ea; injection Ea as Ep Es.
  assert (P : Permutation (TaggedUrn.tags a) (TaggedUrn.tags b))
    by (apply perm_of_sorted_eq; symmetry; exact Es).
  split; [|split; [symmetry; exact Ep | exact P]].
  unfold TaggedUrn.eqb; rewrite <- Ep, str_eqb_refl; simpl.
  apply dict_eqb_perm; [|exact P].
  unfold well_formed in Hb; rewrite !andb_true_iff in Hb.
  apply distinct_NoDup, Hb.
Qed.

Lemma X22_to_string_injective_witness :
  let a := TaggedUrn.mk (lit "cap")
             [(lit "op", lit "x"); (lit "ext", lit "pdf")] in
  let b := TaggedUrn.mk (lit "cap")
             [(lit "ext", lit "pdf"); (lit "op", lit "x")] in
  TaggedUrn.to_string a = TaggedUrn.to_string b
  /\ TaggedUrn.eqb a b = true.
Proof.
  intros a b; split; [reflexivity|].
  destruct (@X22_to_string_injective a b eq_refl eq_refl eq_refl) as [E _].
  exact E.
Defined.

(** ** Interchangeable spellings of a value *)




(** ** Matching against a text *)

(** X24. [conforms_to_str] and [accepts_str] raise the parser's error when
    the text does not parse, and a URN that meets [reads_back] conforms
    to, and accepts, its own canonical text. *)
Theorem X24_matches_own_text (u : TaggedUrn.t) :
  (forall text e,
     TaggedUrn.from_string text = Raise e ->
     TaggedUrn.conforms_to_str u text = Raise e
     /\ TaggedUrn.accepts_str u text = Raise e)
  /\ (reads_back u = true ->
      TaggedUrn.conforms_to_str u (TaggedUrn.to_string u) = Ok true
      /\ TaggedUrn.accepts_str u (TaggedUrn.to_string u) = Ok true).
Proof.
  split.
  - intros text e E; unfold TaggedUrn.conforms_to_str, TaggedUrn.accepts_str.
    rewrite E; split; reflexivity.
  - intros Hwf; unfold TaggedUrn.conforms_to_str, TaggedUrn.accepts_str.
    rewrite (reads_back_text u Hwf); cbn [bind].
    assert (ND : NoDup (keys (TaggedUrn.tags u))).
    { unfold reads_back in Hwf; rewrite !andb_true_iff in Hwf.
      apply distinct_NoDup, Hwf. }
    assert (NS : NoDup (keys (sorted (TaggedUrn.tags u)))).
    { eapply Permutation_NoDup; [|exact ND].
      apply Permutation_map; symmetry; apply sorted_perm. }
    assert (G : forall k, get (sorted (TaggedUrn.tags u)) k
                          = get (TaggedUrn.tags u) k).
    { intros k; apply perm_same_get;
        [exact NS | exact ND | apply sorted_perm]. }
    split.
    + change (TaggedUrn.conforms_to u ?p) with (TaggedUrn.accepts p u).
      rewrite accepts_same_prefix by reflexivity.
      apply Ok_true_inv, check_match_all_keys; intros k; simpl.
      rewrite G; apply values_match_refl.
    + rewrite accepts_same_prefix by reflexivity.
      apply Ok_true_inv, check_match_all_keys; intros k; simpl.
      rewrite G; apply values_match_refl.
Qed.

Lemma X24_matches_own_text_witness :
  let u := TaggedUrn.mk (lit "cap")
             [(lit "op", lit "Generate It"); (lit "ext", lit "*")] in
  TaggedUrn.conforms_to_str u (lit "cap:op") = Ok true
  /\ TaggedUrn.conforms_to_str u (lit "cap:=") = Raise InvalidCharacterError
  /\ TaggedUrn.conforms_to_str u (TaggedUrn.to_string u) = Ok true.
Proof.
  intros u; destruct (X24_matches_own_text u) as [A B].
  split; [reflexivity|]; split.
  - destruct (A (lit "cap:=") InvalidCharacterError eq_refl) as [E _].
    exact E.
  - destruct (B eq_refl) as [E _]; exact E.
Defined.

(** ** Where canonicalization is idempotent *)

Lemma lower_unchanged (s : str) : lower s = s -> unchanged_by_lower s = true.
Proof.
  unfold unchanged_by_lower.
  induction s as [|c s IH]; simpl; [reflexivity|].
  intros E; injection E as Ec Es.
  rewrite Ec, Ascii.eqb_refl; apply IH, Es.
Qed.

Lemma not_delimiter (c : ascii) :
  negb (char_in c [";"; "="]%char) = true ->
  Ascii.eqb c ";" = false /\ Ascii.eqb c "=" = false.
Proof.
  unfold char_in; cbn [existsb].
  destruct (Ascii.eqb c ";"), (Ascii.eqb c "="); simpl; intuition discriminate.
Qed.

(** A key without delimiters that the loop reads without raising is made
    of key characters. *)
Lemma scan_in_key_valid (k : str) : forall tags acc value rest cu,
  no_delimiter k = true ->
  TaggedUrn.scan (TaggedUrn.Cursor IN_KEY tags acc value) (k ++ rest) = Ok cu ->
  forallb TaggedUrn._is_valid_key_char k = true.
Proof.
  induction k as [|c k IH]; intros tags acc value rest cu Hd Hs;
    [reflexivity|].
  unfold no_delimiter in Hd; cbn [forallb] in Hd.
  apply andb_true_iff in Hd; destruct Hd as [Hc Hk].
  destruct (not_delimiter c Hc) as [E1 E2].
  cbn [app TaggedUrn.scan TaggedUrn.step] in Hs; rewrite E2, E1 in Hs.
  destruct (TaggedUrn._is_valid_key_char c) eqn:V; [|discriminate].
  cbn [bind] in Hs; cbn [forallb]; rewrite V; cbn [andb].
  apply (IH _ _ _ _ _ Hk Hs).
Qed.

Lemma scan_key_valid (k : str) (tags : dict) (rest : str)
    (cu : TaggedUrn.cursor) :
  no_delimiter k = true ->
  TaggedUrn.scan (TaggedUrn.Cursor EXPECTING_KEY tags [] []) (k ++ rest)
  = Ok cu ->
  forallb TaggedUrn._is_valid_key_char k = true.
Proof.
  destruct k as [|c k]; [reflexivity|]; intros Hd Hs.
  unfold no_delimiter in Hd; cbn [forallb] in Hd.
  apply andb_true_iff in Hd; destruct Hd as [Hc Hk].
  destruct (not_delimiter c Hc) as [E1 _].
  cbn [app TaggedUrn.scan TaggedUrn.step] in Hs; rewrite E1 in Hs.
  destruct (TaggedUrn._is_valid_key_char c) eqn:V; [|discriminate].
  cbn [bind] in Hs; cbn [forallb]; rewrite V; cbn [andb].
  apply (scan_in_key_valid k _ _ _ _ Hk Hs).
Qed.

(** So is an unquoted value without semicolon or quote. *)
Lemma scan_unquoted_valid (v : str) : forall tags key acc rest cu,
  ~ In ";"%char v ->
  TaggedUrn.scan (TaggedUrn.Cursor IN_UNQUOTED_VALUE tags key acc) (v ++ rest)
  = Ok cu ->
  forallb TaggedUrn._is_valid_unquoted_value_char v = true.
Proof.
  induction v as [|c v IH]; intros tags key acc rest cu Hn Hs;
    [reflexivity|].
  assert (E : Ascii.eqb c ";" = false)
    by (apply Ascii.eqb_neq; intros ->; apply Hn; left; reflexivity).
  cbn [app TaggedUrn.scan TaggedUrn.step] in Hs; rewrite E in Hs.
  destruct (TaggedUrn._is_valid_unquoted_value_char c) eqn:V;
    [|discriminate].
  cbn [bind] in Hs; cbn [forallb]; rewrite V; cbn [andb].
  apply (IH _ _ _ _ _ (fun I => Hn (or_intror I)) Hs).
Qed.

Lemma scan_value_valid (v : str) (tags : dict) (key rest : str)
    (cu : TaggedUrn.cursor) :
  ~ In ";"%char v -> ~ In dquote v ->
  TaggedUrn.scan (TaggedUrn.Cursor EXPECTING_VALUE tags key []) (v ++ rest)
  = Ok cu ->
  forallb TaggedUrn._is_valid_unquoted_value_char v = true.
Proof.
  destruct v as [|c v]; [reflexivity|]; intros Hn Hq Hs.
  assert (E1 : Ascii.eqb c dquote = false)
    by (apply Ascii.eqb_neq; intros ->; apply Hq; left; reflexivity).
  assert (E2 : Ascii.eqb c ";" = false)
    by (apply Ascii.eqb_neq; intros ->; apply Hn; left; reflexivity).
  cbn [app TaggedUrn.scan TaggedUrn.step] in Hs; rewrite E1, E2 in Hs.
  destruct (TaggedUrn._is_valid_unquoted_value_char c) eqn:V;
    [|discriminate].
  cbn [bind] in Hs; cbn [forallb]; rewrite V; cbn [andb].
  apply (scan_unquoted_valid v _ _ _ _ (fun I => Hn (or_intror I)) Hs).
Qed.

Lemma not_needs_quoting_plain (v : str) :
  TaggedUrn._needs_quoting v = false -> ~ In ";"%char v /\ ~ In dquote v.
Proof.
  intros Q; split; intros I;
    assert (Q' : TaggedUrn._needs_quoting v = true)
      by (apply needs_quoting_iff; eexists; split; [exact I | tauto]);
    congruence.
Qed.

(** What the serializer writes for a tag: the key, then a text that
    denotes the value the parser will store. *)
Lemma tag_to_string_reads (k v : str) :
  v <> [] ->
  TaggedUrn._needs_quoting v = true
  \/ forallb TaggedUrn._is_valid_unquoted_value_char v = true ->
  exists val,
    TaggedUrn.tag_to_string (k, v) = k ++ val
    /\ Wire.value_text val (read_value v).
Proof.
  intros Hne Hq; unfold TaggedUrn.tag_to_string.
  destruct (str_eqb_spec v (lit "*")) as [->|N1].
  { exists []; split; [rewrite app_nil_r; reflexivity | constructor]. }
  destruct (str_eqb_spec v (lit "?")) as [->|N2].
  { exists (lit "=?"); split; [reflexivity|].
    apply (Wire.vt_plain (v := lit "?")); [discriminate | reflexivity]. }
  destruct (str_eqb_spec v (lit "!")) as [->|N3].
  { exists (lit "=!"); split; [reflexivity|].
    apply (Wire.vt_plain (v := lit "!")); [discriminate | reflexivity]. }
  unfold read_value; destruct (TaggedUrn._needs_quoting v) eqn:Q.
  - exists ("="%char :: dquote :: Spec.escaped v ++ [dquote]); split.
    + rewrite quote_value_escaped; reflexivity.
    + constructor.
  - destruct Hq as [Hq|Hq]; [discriminate|].
    exists ("="%char :: v); split; [reflexivity|].
    constructor; assumption.
Qed.

Lemma tag_to_string_key (k v : str) :
  exists val,
    TaggedUrn.tag_to_string (k, v) = k ++ val
    /\ (TaggedUrn._needs_quoting v = false ->
        forallb TaggedUrn._is_valid_unquoted_value_char v = false ->
        val = "="%char :: v).
Proof.
  unfold TaggedUrn.tag_to_string.
  destruct (str_eqb_spec v (lit "*")) as [->|N1].
  { exists []; split; [rewrite app_nil_r; reflexivity | discriminate]. }
  destruct (str_eqb_spec v (lit "?")) as [->|N2].
  { exists (lit "=?"); split; [reflexivity | discriminate]. }
  destruct (str_eqb_spec v (lit "!")) as [->|N3].
  { exists (lit "=!"); split; [reflexivity | discriminate]. }
  destruct (TaggedUrn._needs_quoting v) eqn:Q.
  - eexists; split; [reflexivity | discriminate].
  - exists ("="%char :: v); split; reflexivity.
Qed.

Lemma join_cons (sep x : str) (l : list str) :
  join sep (x :: l)
  = x ++ match l with [] => [] | _ :: _ => sep ++ join sep l end.
Proof. destruct l; simpl; [rewrite app_nil_r|]; reflexivity. Qed.

(** When the loop and the end-of-input block run without raising on the
    serialized items, every key is made of key characters, every value
    either needs quoting or is made of unquoted-value characters, and the
    items collected are the ones written, each value as the parser reads
    it. *)
Lemma scan_items_inv (items : list (str * str)) : forall acc r,
  Forall (fun kv => fst kv <> [] /\ no_delimiter (fst kv) = true
                    /\ snd kv <> []) items ->
  (cu <- TaggedUrn.scan (TaggedUrn.Cursor EXPECTING_KEY acc [] [])
           (join (lit ";") (map TaggedUrn.tag_to_string items)) ;;
   TaggedUrn.at_end cu)
  = Ok r ->
  Forall (fun kv =>
            forallb TaggedUrn._is_valid_key_char (fst kv) = true
            /\ (TaggedUrn._needs_quoting (snd kv) = true
                \/ forallb TaggedUrn._is_valid_unquoted_value_char (snd kv)
                   = true)) items
  /\ r = acc ++ map (fun kv => (lower (fst kv), read_value (snd kv))) items.
Proof.
  induction items as [|[k v] items IH]; intros acc r HF E.
  - simpl in E; inversion E; subst.
    split; [constructor | rewrite app_nil_r; reflexivity].
  - inversion HF as [|? ? [Hk1 [Hk2 Hv]] HF']; subst; simpl in Hk1, Hk2, Hv.
    cbn [map] in E; rewrite join_cons in E.
    set (tail := match map TaggedUrn.tag_to_string items with
                 | [] => []
                 | _ :: _ => lit ";" ++ join (lit ";")
                                          (map TaggedUrn.tag_to_string items)
                 end) in E.
    assert (Hkey : forallb TaggedUrn._is_valid_key_char k = true).
    { destruct (tag_to_string_key k v) as [val [Et _]].
      rewrite Et, <- app_assoc in E.
      destruct (TaggedUrn.scan _ (k ++ val ++ tail)) as [cu|] eqn:Sc;
        [|discriminate].
      apply (scan_key_valid k _ _ Hk2 Sc). }
    assert (Hval : TaggedUrn._needs_quoting v = true
                   \/ forallb TaggedUrn._is_valid_unquoted_value_char v
                      = true).
    { destruct (TaggedUrn._needs_quoting v) eqn:Q; [left; reflexivity|].
      right.
      destruct (forallb TaggedUrn._is_valid_unquoted_value_char v) eqn:V;
        [reflexivity|].
      destruct (tag_to_string_key k v) as [val [Et Hform]].
      rewrite Et, (Hform Q V), <- app_assoc in E.
      rewrite scan_key in E by assumption.
      cbn [app TaggedUrn.scan] in E.
      rewrite step_in_key_equals in E
        by (destruct k; [congruence | discriminate]).
      cbn [bind] in E.
      destruct (TaggedUrn.scan _ (v ++ tail)) as [cu|] eqn:Sc;
        [|discriminate].
      destruct (not_needs_quoting_plain v Q) as [P1 P2].
      rewrite <- V; apply (scan_value_valid v _ _ _ P1 P2 Sc). }
    destruct (tag_to_string_reads k Hv Hval) as [val [Et Hread]].
    assert (Hkt : Wire.key_text k) by (split; assumption).
    destruct (scan_tag acc Hkt Hread) as [S1 S2].
    assert (Hfin : forall tags',
              TaggedUrn._finish_tag acc (lower k) (read_value v) = Ok tags' ->
              tags' = acc ++ [(lower k, read_value v)]).
    { intros tags' F; apply finish_tag_Ok in F.
      destruct F as [_ [_ [Hm [_ ->]]]].
      apply set_fresh; rewrite <- mem_In_keys, Hm; discriminate. }
    rewrite Et in E; unfold tail in E; clear tail.
    destruct items as [|y items].
    + cbn [map] in E; rewrite app_nil_r, S2 in E.
      split.
      * constructor; [split; assumption | constructor].
      * apply Hfin, E.
    + cbn [map] in E.
      change (lit ";" ++ ?x) with (";"%char :: x) in E.
      rewrite <- app_assoc, S1 in E.
      destruct (TaggedUrn._finish_tag acc (lower k) (read_value v))
        as [tags'|] eqn:F; [|discriminate].
      cbn [bind] in E.
      rewrite (Hfin tags' eq_refl) in E.
      destruct (IH _ _ HF' E) as [H1 H2].
      split.
      * constructor; [split; assumption | exact H1].
      * rewrite H2, <- app_assoc; reflexivity.
Qed.

(** Canonicalization is idempotent at [u] only if the URN the parser
    returns meets [reads_back]: together with the other direction this
    makes the URNs with the text of a URN that reads back exactly the ones
    at which it is idempotent. *)
Lemma idempotent_reads_back (u u' : TaggedUrn.t) :
  TaggedUrn.from_string (TaggedUrn.to_string u) = Ok u' ->
  TaggedUrn.to_string u' = TaggedUrn.to_string u ->
  reads_back u' = true.
Proof.
  intros E Ht; rewrite <- Ht in E; clear Ht u.
  destruct (parsed_lowered _ E) as [Hne [Hcolon [Hlow [ND HF]]]].
  assert (Hs : strip (TaggedUrn.to_string u') = TaggedUrn.to_string u').
  { unfold TaggedUrn.from_string in E.
    destruct (str_eqb_spec (TaggedUrn.to_string u')
                (strip (TaggedUrn.to_string u'))) as [H|];
      [symmetry; exact H | discriminate]. }
  destruct u' as [p tags]; cbn [TaggedUrn.prefix TaggedUrn.tags] in *.
  unfold TaggedUrn.to_string, TaggedUrn.tags_to_string in E, Hs.
  cbn [TaggedUrn.prefix TaggedUrn.tags] in E, Hs.
  change (p ++ lit ":" ++ ?b) with (p ++ ":"%char :: b) in E, Hs.
  destruct p as [|c p']; [congruence|].
  assert (Hc : isspace c = false)
    by (eapply strip_fixed_first; cbn [app] in Hs; exact Hs).
  assert (Hitems : Forall (fun kv => fst kv <> []
                                     /\ no_delimiter (fst kv) = true
                                     /\ snd kv <> []) (sorted tags)).
  { eapply Permutation_Forall; [symmetry; apply sorted_perm|].
    eapply Forall_impl; [|exact HF].
    intros kv [H1 [[_ H2] [_ H3]]]; auto. }
  assert (Hall : Forall (fun kv => stable_key (fst kv) = true
                                   /\ stable_value (snd kv) = true) tags).
  { destruct (sorted tags) as [|[k0 v0] items] eqn:Es.
    { assert (Hnil : tags = [])
        by (apply Permutation_nil; rewrite <- Es; apply sorted_perm).
      rewrite Hnil; constructor. }
    rewrite <- Es in *.
    assert (Hbody : join (lit ";") (map TaggedUrn.tag_to_string (sorted tags))
                    <> []
                    /\ join (lit ";")
                         (map TaggedUrn.tag_to_string (sorted tags))
                       <> lit ";").
    { rewrite Es; cbn [map]; rewrite join_cons.
      destruct (tag_to_string_key k0 v0) as [val [-> _]].
      rewrite Es in Hitems; inversion Hitems as [|? ? [H1 [H2 _]] _]; subst.
      simpl in H1, H2; destruct k0 as [|c0 k0]; [congruence|].
      unfold no_delimiter in H2; cbn [forallb] in H2.
      apply andb_true_iff in H2; destruct H2 as [H2 _].
      destruct (not_delimiter c0 H2) as [E1 _]; apply Ascii.eqb_neq in E1.
      split; [discriminate|].
      cbn [app]; intros H; inversion H; congruence. }
    destruct Hbody as [B1 B2].
    rewrite from_string_body in E; try assumption;
      [|repeat split; [discriminate | assumption | assumption]].
    destruct (TaggedUrn.scan TaggedUrn.start _) as [cu|] eqn:Sc;
      cbn [bind] in E; [|discriminate].
    destruct (TaggedUrn.at_end cu) as [r|] eqn:Ae; cbn [bind] in E;
      [|discriminate].
    assert (Hr : lowered_tags r).
    { apply (@at_end_lowered cu); [|exact Ae].
      eapply scan_lowered; [|exact Sc].
      split; [split; constructor | apply lowered_nil]. }
    rewrite (init_of_normal _ (lowered_normal Hr)) in E.
    injection E as _ Er; subst r.
    destruct (@scan_items_inv (sorted tags) [] tags Hitems) as [Hval Hmap].
    { unfold TaggedUrn.start in Sc; rewrite Sc; exact Ae. }
    cbn [app] in Hmap.
    apply Forall_forall; intros [k v] I; cbn [fst snd].
    assert (Is : In (k, v) (sorted tags))
      by (apply (Permutation_in _ (Permutation_sym (sorted_perm tags))), I).
    rewrite Forall_forall in Hval, HF.
    destruct (Hval _ Is) as [Vk Vv]; destruct (HF _ I) as [K1 [[K2 _] [K3 K4]]].
    cbn [fst snd] in *.
    split.
    - unfold stable_key; rewrite Vk, K3, (lower_unchanged K2).
      destruct k; [congruence | reflexivity].
    - unfold stable_value.
      replace (negb (is_empty v)) with true
        by (destruct v; [congruence | reflexivity]).
      cbn [andb].
      destruct (TaggedUrn._needs_quoting v) eqn:Q; [reflexivity|].
      destruct Vv as [Vv|Vv]; [discriminate|].
      rewrite Vv; cbn [orb andb]; apply lower_unchanged.
      assert (Ir : In (k, lower v) tags).
      { rewrite Hmap at 1.
        apply in_map_iff; exists (k, v); split; [|exact Is].
        cbn [fst snd]; unfold read_value; rewrite K2, Q; reflexivity. }
      pose proof (get_In_NoDup tags k v ND I) as G1.
      pose proof (get_In_NoDup tags k (lower v) ND Ir) as G2.
      congruence. }
  unfold reads_back; cbn [TaggedUrn.prefix TaggedUrn.tags].
  rewrite !andb_true_iff; repeat split.
  - unfold stable_prefix; rewrite Hc; cbn [negb andb].
    apply andb_true_iff; split; [|apply str_eqb_eq, Hlow].
    destruct (char_in ":" (c :: p')) eqn:Ci; [|reflexivity].
    apply char_in_In in Ci; contradiction.
  - apply forallb_forall; intros k I.
    apply in_map_iff in I; destruct I as [[k0 v0] [<- I]].
    rewrite Forall_forall in Hall; apply (Hall _ I).
  - apply forallb_forall; intros v I.
    apply in_map_iff in I; destruct I as [[k0 v0] [<- I]].
    rewrite Forall_forall in Hall; apply (Hall _ I).
  - apply distinct_NoDup, ND.
Qed.

(** X25. Canonicalization is idempotent at [u] (the text of [u] parses
    and serializing the parse gives the same text) exactly when the text
    of [u] is the text of a URN that meets [reads_back]. *)
Theorem X25_idempotent_iff_text_reads_back (u : TaggedUrn.t) :
  (exists u',
     TaggedUrn.from_string (TaggedUrn.to_string u) = Ok u'
     /\ TaggedUrn.to_string u' = TaggedUrn.to_string u)
  <-> (exists w,
         reads_back w = true
         /\ TaggedUrn.to_string u = TaggedUrn.to_string w).
Proof.
  split.
  - intros [u' [E Ht]]; exists u'; split; [|symmetry; exact Ht].
    apply (idempotent_reads_back u E Ht).
  - intros [w [Hw Ht]].
    exists (TaggedUrn.mk (TaggedUrn.prefix w) (sorted (TaggedUrn.tags w))).
    split.
    + rewrite Ht; apply reads_back_text, Hw.
    + rewrite to_string_sorted, Ht; destruct w; reflexivity.
Qed.

Lemma X25_idempotent_iff_text_reads_back_witness :
  let u := TaggedUrn.__init__ (lit "a:z") [] in
  let v := TaggedUrn.__init__ (lit "cap") [(lit "k", lit "a,b")] in
  (exists w, reads_back w = true
             /\ TaggedUrn.to_string u = TaggedUrn.to_string w)
  /\ TaggedUrn.from_string (TaggedUrn.to_string v)
     = Raise InvalidCharacterError
  /\ ~ (exists w, reads_back w = true
                  /\ TaggedUrn.to_string v = TaggedUrn.to_string w).
Proof.
  intros u v; split; [|split; [reflexivity|]].
  - apply (X25_idempotent_iff_text_reads_back u).
    exists (TaggedUrn.mk (lit "a") [(lit "z:", lit "*")]).
    split; reflexivity.
  - intros H; apply (X25_idempotent_iff_text_reads_back v) in H.
    destruct H as [u' [E _]]; discriminate E.
Defined.
